(** * Space-Game: terrain noise, biome classification and terrain mesh

  A shallow embedding of the terrain core of the game's main script
  ([generateNoiseMap], the biome table, [checkBiomes] and
  [generateTerrainMesh]) together with the properties its design note
  states about it, followed by the handlers of the window element (input
  tracking, dragging, resizing, child elements), the canvas layout of the
  frame loop and the preload check, with the properties their code shows.

  Numbers.  A JavaScript [number] is modelled by an exact rational ([Q]):
  the rounding of IEEE doubles is outside the model.  The values that are
  not finite are modelled where the source meets them: a quotient whose
  divisor may be zero is an [option] whose [None] stands for a non-finite
  value; the seed of the permutation table may be [NaN] or an infinity
  ([Ieee.number]); and [generateNoiseMap] is embedded a second time with
  overflow to the infinities and [NaN] ([Doubles]), which yields the exact
  embedding's number in every cell that is finite, and a third time with its
  loop counters as doubles ([Counted]), which returns the grid of [Doubles]
  whenever the loop bounds are at most 2^53.  [Math.sin] has no rational
  counterpart and is a parameter of the development: the theorems below
  hold whatever function is supplied for it (determinism asks only that it
  be a function of the number, not of the fraction that writes it).

  Values.  [undefined] is the [None] of an [option]; an array is a list, an
  array that may contain holes is a list of options. *)

From Stdlib Require Import ZArith QArith Qround Qminmax Qabs Lia Lqa Bool Ascii String.
From stdpp Require Import base option list.

Local Open Scope Q_scope.

(** ** Numbers *)

Module Num.

(** [Math.floor] on a finite number. *)
Definition floor (x : Q) : Z := Qfloor x.

(** Number of iterations of [for (let k = 0; k < bound; k++)]. *)
Definition loop_count (bound : Q) : nat := Z.to_nat (Qceiling bound).

(** Number of iterations of [for (let k = 0; k <= bound; k++)]. *)
Definition loop_count_incl (bound : Q) : nat := Z.to_nat (Qfloor bound + 1).

(** [a / b]; [None] is the non-finite quotient ([NaN] or an infinity) that
    JavaScript produces for a zero divisor. *)
Definition div (a b : Q) : option Q :=
  if Qeq_bool b 0 then None else Some (a / b).

(** [Math.trunc], used by the remainder operator. *)
Definition trunc (x : Q) : Z := if Qle_bool 0 x then Qfloor x else Qceiling x.

(** [a % b]: the remainder has the sign of the dividend; [NaN] for [b = 0]. *)
Definition rem (a b : Q) : option Q :=
  if Qeq_bool b 0 then None else Some (a - b * inject_Z (trunc (a / b))).

(** [Math.min(Math.max(num, lower), upper)], the script's [clamp]. *)
Definition clamp (num lower upper : Q) : Q :=
  Qmin (Qmax num lower) upper.

(** A number used as an array index: only a non-negative integer selects
    an element. *)
Definition as_index (x : Q) : option nat :=
  if Qeq_bool x (inject_Z (Qfloor x)) && (0 <=? Qfloor x)%Z
  then Some (Z.to_nat (Qfloor x)) else None.

End Num.

(** ** Arrays *)

Module Arr.

(** [arr[i]] for an integer [i] on an array with holes. *)
Definition get {A} (arr : list (option A)) (i : Z) : option A :=
  if (0 <=? i)%Z then mjoin (arr !! Z.to_nat i) else None.

(** [arr[i] = v]: inside the array the element is replaced; past the end
    the array grows, the skipped positions being holes.  A negative [i]
    names a property, not an element, and leaves the elements alone. *)
Definition set {A} (arr : list (option A)) (i : Z) (v : option A)
  : list (option A) :=
  if (0 <=? i)%Z then
    let n := Z.to_nat i in
    if (n <? length arr)%nat then <[n := v]> arr
    else arr ++ replicate (n - length arr) None ++ [v]
  else arr.

(** [[arr[i], arr[j]] = [arr[j], arr[i]]]: both reads happen first, then
    [arr[i]] and [arr[j]] are written in that order. *)
Definition swap {A} (arr : list (option A)) (i j : Z) : list (option A) :=
  let at_j := get arr j in
  let at_i := get arr i in
  set (set arr i at_j) j at_i.

(** The same exchange when [j] may be [NaN] ([None]).  [arr[NaN]] is not an
    element: it is the property named "NaN" of the array object, which is
    kept beside the elements and starts out [undefined]. *)
Definition swapAt {A} (arr : list (option A) * option A) (i : Z)
  (j : option Z) : list (option A) * option A :=
  match j with
  | Some j => (swap (fst arr) i j, snd arr)
  | None =>
      let at_j := snd arr in
      let at_i := get (fst arr) i in
      (set (fst arr) i at_j, at_i)
  end.

End Arr.

(** ** Doubles *)

Module Ieee.

(** A JavaScript number together with the three values that are not
    finite. *)
Inductive number : Type :=
| Finite (q : Q)
| Infinity (negative : bool)
| NaN.

Definition isFinite (a : number) : bool :=
match a with
| Finite _ => true
| _ => false
end.

(** [Number.MAX_VALUE]. *)
Definition MAX_VALUE : Q := inject_Z (2 ^ 1024 - 2 ^ 971).

(** A number within the range of the doubles. *)
Definition inDoubleRange (q : Q) : Prop := Qabs q <= MAX_VALUE.

(** The magnitude from which a result rounds to an infinity: half a step
    above [Number.MAX_VALUE]. *)
Definition overflowBound : Q := inject_Z (2 ^ 1024 - 2 ^ 970).

(** The double for an exact result.  Overflow is kept; rounding inside the
    range is not, so a finite result carries its exact value. *)
Definition ofExact (q : Q) : number :=
if Qle_bool overflowBound (Qabs q) then Infinity (negb (Qle_bool 0 q))
else Finite q.

(** [a + b] *)
Definition add (a b : number) : number :=
match a, b with
| NaN, _ | _, NaN => NaN
| Finite x, Finite y => ofExact (x + y)
| Infinity s, Infinity t => if Bool.eqb s t then Infinity s else NaN
| Infinity s, Finite _ | Finite _, Infinity s => Infinity s
end.

(** [a * b]: zero times an infinity is [NaN]. *)
Definition mul (a b : number) : number :=
match a, b with
| NaN, _ | _, NaN => NaN
| Finite x, Finite y => ofExact (x * y)
| Infinity s, Infinity t => Infinity (xorb s t)
| Infinity s, Finite y | Finite y, Infinity s =>
    if Qeq_bool y 0 then NaN else Infinity (xorb s (negb (Qle_bool 0 y)))
end.

(** [a / 2] *)
Definition half (a : number) : number :=
match a with
| Finite x => Finite (x / 2)
| other => other
end.

(** Two values are the same number. *)
Definition same (a b : number) : Prop :=
match a, b with
| Finite x, Finite y => x == y
| Infinity s, Infinity t => s = t
| NaN, NaN => True
| _, _ => False
end.

End Ieee.

(** ** generateNoiseMap *)

Section NoiseMap.

Variable Math_sin : Q -> Q.

(** [const seededRandom = (s) => { s = Math.sin(s) * 10000; return s - Math.floor(s); }] *)
Definition seededRandom (s : Q) : Q :=
  let s' := Math_sin s * 10000 in
  s' - inject_Z (Num.floor s').

(** [for (let i = 0; i < 256; i++) permutation[i] = i;] *)
Definition identityTable : list (option Z) :=
  map (fun i => Some (Z.of_nat i)) (seq 0 256).

(** [Math.floor(seededRandom(seed + i) * (i + 1))], the index drawn at step
    [i] of the shuffle; [None] is [NaN].  The seed is the one argument the
    design note allows not to be finite: then [seed + i] is not finite
    either, [Math.sin] of it is [NaN], and the [NaN] passes through the
    products, the subtraction and [Math.floor]. *)
Definition shuffleDraw (seed : Ieee.number) (i : Z) : option Z :=
  match seed with
  | Ieee.Finite s =>
      Some (Num.floor (seededRandom (s + inject_Z i) * inject_Z (i + 1)))
  | _ => None
  end.

(** [for (let i = 255; i > 0; i--) { j = ...; swap }], [steps] iterations
    starting at index [steps], on the array object [permutation]. *)
Fixpoint shuffleFrom (seed : Ieee.number) (steps : nat)
  (permutation : list (option Z) * option Z) : list (option Z) * option Z :=
  match steps with
  | O => permutation
  | S k =>
      let i := Z.of_nat steps in
      let j := shuffleDraw seed i in
      shuffleFrom seed k (Arr.swapAt permutation i j)
  end.

(** The elements of [permutation] after the shuffle. *)
Definition shuffled (seed : Ieee.number) : list (option Z) :=
  fst (shuffleFrom seed 255 (identityTable, None)).

(** [const p = [...permutation, ...permutation];]: the spread copies the
    elements, not the named property. *)
Definition permutationTable (seed : Ieee.number) : list (option Z) :=
  shuffled seed ++ shuffled seed.


(** [const fade = (t) => t * t * t * (t * (t * 6 - 15) + 10);] *)
Definition fade (t : Q) : Q := t * t * t * (t * (t * 6 - 15) + 10).

(** [const lerp = (t, a, b) => a + t * (b - a);] *)
Definition lerp (t a b : Q) : Q := a + t * (b - a).

(** [hash & 3]: the bitwise operators turn [undefined] and [NaN] into 0. *)
Definition hashBits (hash : option Z) : Z :=
match hash with
| Some n => Z.land n 3
| None => 0%Z
end.

(** The body of [grad] once [h = hash & 3] is known. *)
Definition gradBits (h : Z) (x y : Q) : Q :=
let u := if (h <? 2)%Z then x else y in
let v := if (h <? 2)%Z then y else x in
(if (Z.land h 1 =? 0)%Z then u else - u) +
(if (Z.land h 2 =? 0)%Z then v else - v).

Definition grad (hash : option Z) (x y : Q) : Q :=
gradBits (hashBits hash) x y.

(** [p[a]] where the index [a] is itself the result of a lookup plus an
    integer: an [undefined] entry makes the sum [NaN], which selects no
    element. *)
Definition lookupAt (p : list (option Z)) (a : option Z) : option Z :=
a ≫= Arr.get p.

Definition noise (p : list (option Z)) (x y : Q) : Q :=
let X := Z.land (Num.floor x) 255 in
let Y := Z.land (Num.floor y) 255 in
let x := x - inject_Z (Num.floor x) in
let y := y - inject_Z (Num.floor y) in
let u := fade x in
let v := fade y in
let a := (fun n => (n + Y)%Z) <$> Arr.get p X in
let b := (fun n => (n + Y)%Z) <$> Arr.get p (X + 1) in
lerp v
  (lerp u (grad (lookupAt p a) x y)
          (grad (lookupAt p b) (x - 1) y))
  (lerp u (grad (lookupAt p (Z.succ <$> a)) x (y - 1))
          (grad (lookupAt p (Z.succ <$> b)) (x - 1) (y - 1))).

(** The interpolation [noise] performs once the two low bits of its four
    corner hashes are known; [x] and [y] are the fractional parts. *)
Definition blend (h00 h10 h01 h11 : Z) (x y : Q) : Q :=
let u := fade x in
let v := fade y in
lerp v
  (lerp u (gradBits h00 x y) (gradBits h10 (x - 1) y))
  (lerp u (gradBits h01 x (y - 1)) (gradBits h11 (x - 1) (y - 1))).

(** The octave loop of one cell: [n] iterations remain, the three
    accumulators are threaded through. *)
Fixpoint octaveLoop (p : list (option Z))
  (scale persistence lacunarity offsetX offsetY : Q) (x y : Q)
  (n : nat) (amplitude frequency noiseValue : Q) : Q :=
match n with
| O => noiseValue
| S k =>
    let sampleX := (x + offsetX) * scale * frequency in
    let sampleY := (y + offsetY) * scale * frequency in
    let noiseValue := noiseValue + noise p sampleX sampleY * amplitude in
    octaveLoop p scale persistence lacunarity offsetX offsetY x y k
      (amplitude * persistence) (frequency * lacunarity) noiseValue
end.

(** Total weight of [n] octaves whose amplitude starts at 1 and is
    multiplied by [persistence] each time: [1 + persistence + ...]. *)
Fixpoint amplitudeSum (persistence : Q) (n : nat) : Q :=
match n with
| O => 0
| S k => 1 + persistence * amplitudeSum persistence k
end.

(** Value stored in [noiseMap[y][x]]. *)
Definition noiseCell (p : list (option Z))
  (scale octaves persistence lacunarity offsetX offsetY : Q) (x y : nat) : Q :=
let noiseValue :=
  octaveLoop p scale persistence lacunarity offsetX offsetY
    (inject_Z (Z.of_nat x)) (inject_Z (Z.of_nat y))
    (Num.loop_count octaves) 1 1 0 in
(noiseValue + 1) / 2.

Definition generateNoiseMap
  (width height seed scale octaves persistence lacunarity offsetX offsetY : Q)
  : list (list Q) :=
let p := permutationTable (Ieee.Finite seed) in
map (fun y =>
       map (fun x =>
              noiseCell p scale octaves persistence lacunarity offsetX offsetY x y)
           (seq 0 (Num.loop_count width)))
    (seq 0 (Num.loop_count height)).

End NoiseMap.

(** Two grids hold the same numbers, cell for cell. *)
Definition sameGrid (g1 g2 : list (list Q)) : Prop :=
Forall2 (Forall2 Qeq) g1 g2.

(** A cell outside the unit interval. *)
Definition outsideUnit (c : Q) : bool :=
negb (Qle_bool 0 c && Qle_bool c 1).

(** The two-bit values a corner hash can take. *)
Definition twoBits : list Z := [0; 1; 2; 3]%Z.

(** A test holds for every choice of the four corner hashes. *)
Definition forCorners (test : Z -> Z -> Z -> Z -> bool) : bool :=
forallb (fun h00 =>
  forallb (fun h10 =>
    forallb (fun h01 =>
      forallb (fun h11 => test h00 h10 h01 h11) twoBits) twoBits) twoBits)
  twoBits.

(** ** generateNoiseMap on doubles *)

Module Doubles.

(** [noise] at a point that need not be finite.  For a coordinate that is
    not finite [x - Math.floor(x)] is [NaN], and the [NaN] reaches the result
    through [fade], [grad] and [lerp]; at finite coordinates the value is the
    one computed above (it lies between -1 and 1, far from overflow). *)
Definition noise (p : list (option Z)) (x y : Ieee.number) : Ieee.number :=
match x, y with
| Ieee.Finite x, Ieee.Finite y => Ieee.Finite (noise p x y)
| _, _ => Ieee.NaN
end.

(** The three variables of the octave loop. *)
Record Octaves : Type := mkOctaves {
  amplitude : Ieee.number;
  frequency : Ieee.number;
  noiseValue : Ieee.number
}.

(** [let amplitude = 1; let frequency = 1; let noiseValue = 0;] *)
Definition start : Octaves :=
mkOctaves (Ieee.Finite 1) (Ieee.Finite 1) (Ieee.Finite 0).

(** The body of the octave loop for the cell of counters [x], [y]. *)
Definition octave (p : list (option Z))
  (scale persistence lacunarity offsetX offsetY : Q) (x y : Q)
  (o : Octaves) : Octaves :=
let sampleX :=
  Ieee.mul (Ieee.mul (Ieee.add (Ieee.Finite x) (Ieee.Finite offsetX))
                     (Ieee.Finite scale)) (frequency o) in
let sampleY :=
  Ieee.mul (Ieee.mul (Ieee.add (Ieee.Finite y) (Ieee.Finite offsetY))
                     (Ieee.Finite scale)) (frequency o) in
mkOctaves
  (Ieee.mul (amplitude o) (Ieee.Finite persistence))
  (Ieee.mul (frequency o) (Ieee.Finite lacunarity))
  (Ieee.add (noiseValue o) (Ieee.mul (noise p sampleX sampleY) (amplitude o))).

(** [(noiseValue + 1) / 2] *)
Definition normalize (o : Octaves) : Ieee.number :=
Ieee.half (Ieee.add (noiseValue o) (Ieee.Finite 1)).

(** Value stored in [noiseMap[y][x]]. *)
Definition noiseCell (p : list (option Z))
  (scale octaves persistence lacunarity offsetX offsetY : Q) (x y : nat)
  : Ieee.number :=
normalize
  (Nat.iter (Num.loop_count octaves)
     (octave p scale persistence lacunarity offsetX offsetY
        (inject_Z (Z.of_nat x)) (inject_Z (Z.of_nat y)))
     start).

Definition generateNoiseMap (Math_sin : Q -> Q) (width height : Q)
  (seed : Ieee.number)
  (scale octaves persistence lacunarity offsetX offsetY : Q)
  : list (list Ieee.number) :=
let p := permutationTable Math_sin seed in
map (fun y =>
       map (fun x =>
              noiseCell p scale octaves persistence lacunarity offsetX offsetY
                x y)
           (seq 0 (Num.loop_count width)))
    (seq 0 (Num.loop_count height)).

End Doubles.

(** ** The loops of generateNoiseMap, counter by counter *)

Module Counted.

(** [k++] on a counter that started at 0 and has not passed [2^53]: below
    [2^53] the sum is exact, at [2^53] the sum [2^53 + 1] lies half way
    between two doubles and rounds back to [2^53]. *)
Definition increment (k : Z) : Z :=
if (k <? 2 ^ 53)%Z then (k + 1)%Z else k.

(** [for (let k = ...; k < bound; k++) body], entered with counter [k].
    [fuel] bounds the number of tests of [k < bound]; [None] says that they
    were used up before the loop ended. *)
Fixpoint forLoop {T : Type} (fuel : nat) (bound : Q)
  (body : Z -> T -> option T) (k : Z) (s : T) : option T :=
match fuel with
| O => None
| S fuel' =>
    if negb (Qle_bool bound (inject_Z k))
    then match body k s with
         | Some s' => forLoop fuel' bound body (increment k) s'
         | None => None
         end
    else Some s
end.

(** [for (let octave = 0; octave < octaves; octave++) { ... }] *)
Definition octaveLoop (fuel : nat) (p : list (option Z))
  (scale octaves persistence lacunarity offsetX offsetY : Q) (x y : Z)
  : option Doubles.Octaves :=
forLoop fuel octaves
  (fun _ o =>
     Some (Doubles.octave p scale persistence lacunarity offsetX offsetY
             (inject_Z x) (inject_Z y) o))
  0%Z Doubles.start.

(** [noiseMap[y] = []; for (let x = 0; x < width; x++) { ...;
    noiseMap[y][x] = (noiseValue + 1) / 2; }]: as long as the counter
    advances it is the number of cells written so far, so the write adds a
    cell at the end. *)
Definition rowLoop (fuel : nat) (p : list (option Z))
  (width scale octaves persistence lacunarity offsetX offsetY : Q) (y : Z)
  : option (list Ieee.number) :=
forLoop fuel width
  (fun x cells =>
     match octaveLoop fuel p scale octaves persistence lacunarity offsetX
             offsetY x y with
     | Some o => Some (cells ++ [Doubles.normalize o])
     | None => None
     end)
  0%Z [].

(** [for (let y = 0; y < height; y++) { ... } return noiseMap;] *)
Definition generateNoiseMap (Math_sin : Q -> Q) (fuel : nat) (width height : Q)
  (seed : Ieee.number)
  (scale octaves persistence lacunarity offsetX offsetY : Q)
  : option (list (list Ieee.number)) :=
let p := permutationTable Math_sin seed in
forLoop fuel height
  (fun y noiseMap =>
     match rowLoop fuel p width scale octaves persistence lacunarity offsetX
             offsetY y with
     | Some cells => Some (noiseMap ++ [cells])
     | None => None
     end)
  0%Z [].

End Counted.

(** ** Biomes *)

(** [interface Biome].  The colour is kept as the hexadecimal string the
    table hands to [three.Color]. *)
Record Biome : Type := mkBiome {
  name : string;
  temperatureRange : Q * Q;
  humidityRange : Q * Q;
  heightRange : option (Q * Q);
  color : string;
  weight : Q
}.

(** [const biomes: Biome[] = [...]] *)
Definition biomes : list Biome :=
  [ mkBiome "Grassland" (0.25, 0.5) (0.45, 0.6) None "#7CFC00" 2.0
  ; mkBiome "Tundra" (0.0, 0.25) (0.45, 1) None "#D9FBFF" 1.0
  ; mkBiome "Forest" (0.25, 0.6) (0.6, 1.0) None "#376137" 1.0
  ; mkBiome "Savanna" (0.5, 0.75) (0.0, 0.5) None "#d7a100" 1.0
  ; mkBiome "Desert" (0.6, 1.0) (0.0, 0.3) None "#EDC9AF" 1.0
  ; mkBiome "Tropical Rainforest" (0.75, 1.0) (0.5, 1.0) None "#00853E" 1.0
  ; mkBiome "Beach" (0.5, 1.0) (0.3, 0.7) (Some (0.0, 0.3)) "#FFF5BA" 10
  ; mkBiome "Ocean" (0.0, 1.0) (0.0, 1.0) (Some (0.0, 0.15)) "#1E90FF" 100 ].

(** [v >= bound] and [v <= bound] where [v] may be [undefined]: a comparison
    with [undefined] is false. *)
Definition geq (v : option Q) (bound : Q) : bool :=
match v with
| Some q => Qle_bool bound q
| None => false
end.

Definition leq (v : option Q) (bound : Q) : bool :=
match v with
| Some q => Qle_bool q bound
| None => false
end.

(** [lo <= v && v <= hi] for a range [[lo, hi]]. *)
Definition inRange (v : option Q) (range : Q * Q) : bool :=
geq v (fst range) && leq v (snd range).

(** The predicate handed to [biomes.filter]. *)
Definition isViable (temp humid height : option Q) (biome : Biome) : bool :=
inRange temp (temperatureRange biome) &&
inRange humid (humidityRange biome) &&
match heightRange biome with
| Some range => inRange height range
| None => true
end.

Definition viableBiomes (rules : list Biome) (temp humid height : option Q)
  : list Biome :=
List.filter (isViable temp humid height) rules.

(** [(prev, current) => current.weight > prev.weight ? current : prev] *)
Definition heavier (prev current : Biome) : Biome :=
if Qle_bool (weight current) (weight prev) then prev else current.

(** The biome stored in [biomeMap[z][x]]: [reduce] without an initial value
    starts from the first viable biome; with no viable biome the result is
    [biomes[0]], which is [undefined] for an empty table. *)
Definition selectBiome (rules : list Biome) (temp humid height : option Q)
  : option Biome :=
match viableBiomes rules temp humid height with
| first :: rest => Some (fold_left heavier rest first)
| [] => head rules
end.

(** ** checkBiomes *)

(** Inclusive overlap of two ranges as the checker computes it. *)
Definition rangesOverlap (r1 r2 : Q * Q) : bool :=
(Qle_bool (fst r1) (fst r2) && Qle_bool (fst r2) (snd r1)) ||
(Qle_bool (fst r1) (snd r2) && Qle_bool (snd r2) (snd r1)) ||
(Qle_bool (fst r2) (fst r1) && Qle_bool (fst r1) (snd r2)) ||
(Qle_bool (fst r2) (snd r1) && Qle_bool (snd r1) (snd r2)).

Definition tempOverlap (biome1 biome2 : Biome) : bool :=
rangesOverlap (temperatureRange biome1) (temperatureRange biome2).

Definition humidOverlap (biome1 biome2 : Biome) : bool :=
rangesOverlap (humidityRange biome1) (humidityRange biome2).

(** The index pairs [(i, j)] for which [checkBiomes] calls [console.warn],
    in the order of the calls. *)
Definition checkBiomes (rules : list Biome) : list (nat * nat) :=
flat_map (fun i =>
  flat_map (fun j =>
    match rules !! i, rules !! j with
    | Some biome1, Some biome2 =>
        if tempOverlap biome1 biome2 && humidOverlap biome1 biome2
        then [(i, j)] else []
    | _, _ => []
    end)
    (seq (S i) (length rules - S i)))
  (seq 0 (length rules)).

(** The text of one warning. *)
Definition overlapWarning (biome1 biome2 : Biome) : string :=
("Biome overlap detected: " ++ name biome1 ++ " and " ++ name biome2 ++
 " have overlapping temperature and humidity ranges, which may cause noisy terrain")%string.

Definition checkBiomesLog (rules : list Biome) : list string :=
omap (fun ij =>
        match rules !! ij.1, rules !! ij.2 with
        | Some biome1, Some biome2 => Some (overlapWarning biome1 biome2)
        | _, _ => None
        end)
     (checkBiomes rules).

(** ** The rules in the words of the design note *)

(** A range contains a value, bounds included. *)
Definition contains (range : Q * Q) (v : Q) : Prop :=
fst range <= v /\ v <= snd range.

(** A rule matches a sample: its temperature and humidity ranges contain
    the sample and so does its height range when it has one. *)
Definition matchesSample (temperature humidity height : Q) (rule : Biome)
  : Prop :=
contains (temperatureRange rule) temperature /\
contains (humidityRange rule) humidity /\
match heightRange rule with
| Some range => contains range height
| None => True
end.

(** Two ranges overlap: one of them contains an endpoint of the other. *)
Definition overlaps (r1 r2 : Q * Q) : Prop :=
contains r1 (fst r2) \/ contains r1 (snd r2) \/
contains r2 (fst r1) \/ contains r2 (snd r1).

(** The same rule with another height range. *)
Definition setHeightRange (range : option (Q * Q)) (rule : Biome) : Biome :=
mkBiome (name rule) (temperatureRange rule) (humidityRange rule) range
  (color rule) (weight rule).

(** ** generateTerrainMesh *)

(** A statement that throws.  The only exception the builder can raise is the
    [TypeError] of reading a property of [undefined]. *)
Inductive Completion (A : Type) : Type :=
| Returned (value : A)
| TypeError.
Arguments Returned {A} value.
Arguments TypeError {A}.

#[global] Instance completion_ret : MRet Completion := @Returned.

#[global] Instance completion_bind : MBind Completion :=
fun A B k c =>
  match c with
  | Returned a => k a
  | TypeError => TypeError
  end.

#[global] Instance completion_fmap : FMap Completion :=
fun A B f c =>
  match c with
  | Returned a => Returned (f a)
  | TypeError => TypeError
  end.

(** A loop whose body may throw, collecting what each iteration produces. *)
Fixpoint forEach {A B} (body : A -> Completion B) (items : list A)
  : Completion (list B) :=
match items with
| [] => Returned []
| item :: rest =>
    b ← body item;
    bs ← forEach body rest;
    Returned (b :: bs)
end.

(** [obj[key]] where reading a property of an [undefined] object throws. *)
Definition propertyOf {A} (obj : option A) : Completion A :=
match obj with
| Some a => Returned a
| None => TypeError
end.

(** [grid[z]] for a computed row index; a non-finite or negative index
    selects nothing. *)
Definition rowAt (grid : list (list Q)) (z : option Z) : option (list Q) :=
match z with
| Some i => if (0 <=? i)%Z then grid !! Z.to_nat i else None
| None => None
end.

(** What the builder hands to the renderer: the plane it asked three.js for,
    the number of vertices of that plane, the elevation written into each
    vertex ([None] is [NaN]) and the flat colour buffer. *)
Record TerrainMesh : Type := mkTerrainMesh {
  planeSize : Q;
  planeSegments : Q;
  vertexCount : nat;
  positionY : list (option Q);
  colors : list Q
}.

(** [geometry.attributes.position.count] of
    [new three.PlaneGeometry(size, size, segments, segments)]: three.js lays
    out [floor(segments) + 1] vertices per side. *)
Definition planeVertexCount (segments : Q) : nat :=
let gridX1 := Z.to_nat (Num.floor segments + 1) in
let gridY1 := Z.to_nat (Num.floor segments + 1) in
(gridX1 * gridY1)%nat.

(** The same mesh on a plane of another size. *)
Definition withPlaneSize (size : Q) (mesh : TerrainMesh) : TerrainMesh :=
mkTerrainMesh size (planeSegments mesh) (vertexCount mesh) (positionY mesh)
  (colors mesh).

Section Builder.

Variable Math_sin : Q -> Q.

(** The red, green and blue components of [new three.Color(c)]. *)
Variable three_Color : string -> Q * Q * Q.

(** The biome table the builder reads. *)
Variable rules : list Biome.

(** The temperature grid as first generated. *)
Definition baseTemperatureMap (seed offsetX offsetY : Q) : list (list Q) :=
generateNoiseMap Math_sin 256 256 seed 0.01 4 0.5 2.0 offsetX offsetY.

(** The humidity grid as first generated. *)
Definition baseHumidityMap (seed offsetX offsetY : Q) : list (list Q) :=
generateNoiseMap Math_sin 256 256 seed 0.01 4 0.5 2.0 offsetX offsetY.

(** The loop that shifts and clamps every cell of one grid.  Both grids have
    the same shape, so running over the temperature grid's indices visits
    every cell of either. *)
Definition applyModifier (grid : list (list Q)) (modifier : Q)
  : list (list Q) :=
map (map (fun cell => Num.clamp (cell + modifier) 0 1)) grid.

(** [Math.floor(coord * 255 / segments)] *)
Definition climateIndex (coord : nat) (segments : Q) : option Z :=
Num.floor <$> Num.div (inject_Z (Z.of_nat coord) * 255) segments.

(** [row[tempX]] *)
Definition cellAt (row : list Q) (x : option Z) : option Q :=
match x with
| Some i => if (0 <=? i)%Z then row !! Z.to_nat i else None
| None => None
end.

(** [noiseMap[z][x]] for loop counters [z] and [x]. *)
Definition heightAt (noiseMap : list (list Q)) (z x : nat) : option Q :=
noiseMap !! z ≫= fun row => row !! x.

(** One iteration of the inner biome loop.  [noiseMap[z]] is read inside the
    filter callback only; that row always exists (see [noiseMap_row]), so the
    read is a plain lookup. *)
Definition biomeAt (noiseMap temperatureMap humidityMap : list (list Q))
  (segments : Q) (z x : nat) : Completion (option Biome) :=
let tempZ := climateIndex z segments in
let tempX := climateIndex x segments in
tempRow ← propertyOf (rowAt temperatureMap tempZ);
let temp := cellAt tempRow tempX in
humidRow ← propertyOf (rowAt humidityMap tempZ);
let humid := cellAt humidRow tempX in
Returned (selectBiome rules temp humid (heightAt noiseMap z x)).

Definition buildBiomeMap (noiseMap temperatureMap humidityMap : list (list Q))
  (segments : Q) : Completion (list (list (option Biome))) :=
forEach (fun z =>
           forEach (biomeAt noiseMap temperatureMap humidityMap segments z)
                   (seq 0 (Num.loop_count_incl segments)))
        (seq 0 (Num.loop_count_incl segments)).

(** [i % (segments + 1)] used as a column index. *)
Definition vertexColumn (i : nat) (segments : Q) : option nat :=
Num.rem (inject_Z (Z.of_nat i)) (segments + 1) ≫= Num.as_index.

(** [Math.floor(i / (segments + 1))] *)
Definition vertexRow (i : nat) (segments : Q) : option Z :=
Num.floor <$> Num.div (inject_Z (Z.of_nat i)) (segments + 1).

(** [row[x] * amplitude]; an [undefined] cell makes the product [NaN]. *)
Definition scaledCell (row : list Q) (x : option nat) (amplitude : Q)
  : option Q :=
(fun c => c * amplitude) <$> (x ≫= fun k => row !! k).

(** One iteration of the displacement loop: the elevation of vertex [i]. *)
Definition elevationAt (noiseMap : list (list Q)) (segments amplitude : Q)
  (i : nat) : Completion (option Q) :=
row ← propertyOf (rowAt noiseMap (vertexRow i segments));
Returned (scaledCell row (vertexColumn i segments) amplitude).

(** One iteration of the inner colour loop: the three numbers pushed. *)
Definition colorAt (cell : option Biome) : Completion (list Q) :=
biome ← propertyOf cell;
let c := three_Color (color biome) in
Returned [c.1.1; c.1.2; c.2].

(** The inner colour loop over one row of [biomeMap]. *)
Definition rowColors (row : list (option Biome)) : Completion (list Q) :=
pushed ← forEach colorAt row;
Returned (concat pushed).

Definition buildColors (biomeMap : list (list (option Biome)))
  : Completion (list Q) :=
rows ← forEach rowColors biomeMap;
Returned (concat rows).

(** The builder.  What it only logs (the average temperature and humidity,
    the biome map) and what three.js derives from the result (the rotation
    of the plane, the vertex normals, the material) is left out. *)
Definition generateTerrainMesh
  (size segments seed scale octaves persistence lacunarity amplitude
   offsetX offsetY tempModifier humidModifier : Q)
  : Completion TerrainMesh :=
let count := planeVertexCount segments in
let noiseMap :=
  generateNoiseMap Math_sin (segments + 1) (segments + 1) seed scale octaves
    persistence lacunarity offsetX offsetY in
let temperatureMap :=
  applyModifier (baseTemperatureMap seed offsetX offsetY) tempModifier in
let humidityMap :=
  applyModifier (baseHumidityMap seed offsetX offsetY) humidModifier in
biomeMap ← buildBiomeMap noiseMap temperatureMap humidityMap segments;
ys ← forEach (elevationAt noiseMap segments amplitude) (seq 0 count);
colors ← buildColors biomeMap;
Returned (mkTerrainMesh size segments count ys colors).

End Builder.

(** ** The window element and the frame loop

    The handlers of [WindowElement] and the layout step of [update] read
    the DOM (event coordinates, bounding rectangles, client sizes); what
    they read is an argument of the handler here, and what they write to
    [style] is kept as the number of pixels. *)

Module Js.

(** [a < b] and [a > b] on numbers. *)
Definition lt (a b : Q) : bool := negb (Qle_bool b a).
Definition gt (a b : Q) : bool := lt b a.

(** [ToInt32]: the value the bitwise operators work on. *)
Definition int32 (z : Z) : Z := ((z + 2 ^ 31) mod 2 ^ 32 - 2 ^ 31)%Z.

(** [a << n]: the shift count is [n & 31], the result a 32-bit integer. *)
Definition shl (a n : Z) : Z := int32 (Z.shiftl (int32 a) (Z.land n 31)).

(** [a | b], [a & b] and [~a]. *)
Definition bitor (a b : Z) : Z := Z.lor (int32 a) (int32 b).
Definition bitand (a b : Z) : Z := Z.land (int32 a) (int32 b).
Definition bitnot (a : Z) : Z := Z.lnot (int32 a).

(** [s.includes(pat)], which is also [/pat/.test(s)] for a pattern without
    special characters. *)
Fixpoint includes (pat s : string) : bool :=
String.prefix pat s ||
match s with
| EmptyString => false
| String _ rest => includes pat rest
end.

(** A [Set] of strings, in insertion order. *)
Definition has (k : string) (set : list string) : bool :=
existsb (String.eqb k) set.

Definition add (k : string) (set : list string) : list string :=
if has k set then set else set ++ [k].

Definition delete (k : string) (set : list string) : list string :=
List.filter (fun k' => negb (String.eqb k k')) set.

End Js.

(** *** Input tracking *)

Module Input.

Record State : Type := mkState {
  mousex : Q;
  mousey : Q;
  mousebuttons : Z;
  pointerlock : bool;
  keys : list string
}.

(** The fields as the class initialises them. *)
Definition initial : State := mkState 0 0 0 false [].

(** The [mousemove] listener. *)
Definition mousemove (clientX clientY movementX movementY rectLeft rectTop : Q)
  (w : State) : State :=
if pointerlock w
then mkState movementX movementY (mousebuttons w) (pointerlock w) (keys w)
else mkState (clientX - rectLeft) (clientY - rectTop) (mousebuttons w)
       (pointerlock w) (keys w).

(** The [mouseenter] listener and the 16 ms interval do the same. *)
Definition resetMovement (w : State) : State :=
if pointerlock w
then mkState 0 0 (mousebuttons w) (pointerlock w) (keys w)
else w.

(** [this.mousebuttons |= 1 << e.button] *)
Definition mousedown (button : Z) (w : State) : State :=
mkState (mousex w) (mousey w) (Js.bitor (mousebuttons w) (Js.shl 1 button))
  (pointerlock w) (keys w).

(** [this.mousebuttons &= ~(1 << e.button)] *)
Definition mouseup (button : Z) (w : State) : State :=
mkState (mousex w) (mousey w)
  (Js.bitand (mousebuttons w) (Js.bitnot (Js.shl 1 button)))
  (pointerlock w) (keys w).

Definition mouseleave (w : State) : State :=
mkState (mousex w) (mousey w) 0 (pointerlock w) (keys w).

Definition keydown (key : string) (w : State) : State :=
mkState (mousex w) (mousey w) (mousebuttons w) (pointerlock w)
  (Js.add key (keys w)).

Definition keyup (key : string) (w : State) : State :=
mkState (mousex w) (mousey w) (mousebuttons w) (pointerlock w)
  (Js.delete key (keys w)).

(** [setPointerLock(enabled)] on a window whose element exists. *)
Definition setPointerLock (enabled : bool) (w : State) : State :=
mkState (mousex w) (mousey w) (mousebuttons w) enabled (keys w).

(** The [onblur] handler; [exBlur] is the overridable hook it ends with. *)
Definition blur (exBlur : State -> State) (w : State) : State :=
exBlur (mkState (mousex w) (mousey w) 0 (pointerlock w) []).

(** The hook the game installs: [gameWindow.setPointerLock(false)]. *)
Definition gameBlur : State -> State := setPointerLock false.

(** [keyDown(key)] and [keyUp(key)]. *)
Definition keyDown (key : string) (w : State) : bool := Js.has key (keys w).
Definition keyUp (key : string) (w : State) : bool := negb (Js.has key (keys w)).

End Input.

(** *** Dragging *)

Module Drag.

(** [_isDragging], the two offsets captured by the closure, the cursor of
    the toolbar and whether the document listeners are installed. *)
Record State : Type := mkState {
  isDragging : bool;
  offsetX : Q;
  offsetY : Q;
  cursor : string;
  listening : bool
}.

(** [windowDiv.style.left] and [.top], in pixels, once set. *)
Record Position : Type := mkPosition {
  left : option Q;
  top : option Q
}.

Definition initial : State := mkState false 0 0 "" false.

(** [mousedown] on the toolbar. *)
Definition toolbarMouseDown (clientX clientY rectLeft rectTop : Q)
  (d : State) : State :=
mkState true (clientX - rectLeft) (clientY - rectTop) "grabbing" true.

Definition toolbarMouseEnter (d : State) : State :=
mkState (isDragging d) (offsetX d) (offsetY d) "grab" (listening d).

Definition toolbarMouseLeave (d : State) : State :=
if isDragging d then d
else mkState (isDragging d) (offsetX d) (offsetY d) "default" (listening d).

(** [onMouseMove]; [desktop] is the client size of [main], if there is one,
    and the last two arguments the offset size of the window. *)
Definition onMouseMove (clientX clientY : Q) (desktop : option (Q * Q))
  (offsetWidth offsetHeight : Q) (d : State) (pos : Position)
  : State * Position :=
if negb (isDragging d) then (d, pos)
else
  match desktop with
  | None => (d, pos)
  | Some (clientWidth, clientHeight) =>
      let absoluteX :=
        Num.clamp (clientX - offsetX d) 0 (clientWidth - offsetWidth) in
      let absoluteY :=
        Num.clamp (clientY - offsetY d) 40 (clientHeight - offsetHeight) in
      (mkState (isDragging d) (offsetX d) (offsetY d) "grabbing" (listening d),
       mkPosition (Some absoluteX) (Some absoluteY))
  end.

Definition onMouseUp (d : State) : State :=
mkState false (offsetX d) (offsetY d) "grab" false.

(** A [mousemove] on the document reaches [onMouseMove] only while the
    listener is installed. *)
Definition documentMouseMove (clientX clientY : Q) (desktop : option (Q * Q))
  (offsetWidth offsetHeight : Q) (d : State) (pos : Position)
  : State * Position :=
if listening d
then onMouseMove clientX clientY desktop offsetWidth offsetHeight d pos
else (d, pos).

(** A sequence of pointer positions delivered to the document. *)
Fixpoint documentMouseMoves (moves : list (Q * Q)) (desktop : option (Q * Q))
  (offsetWidth offsetHeight : Q) (d : State) (pos : Position)
  : State * Position :=
match moves with
| [] => (d, pos)
| (clientX, clientY) :: rest =>
    let '(d', pos') :=
      documentMouseMove clientX clientY desktop offsetWidth offsetHeight d pos in
    documentMouseMoves rest desktop offsetWidth offsetHeight d' pos'
end.

End Drag.

(** *** Resizing *)

Module Resize.

(** A [DOMRect]. *)
Record Rect : Type := mkRect {
  left : Q;
  top : Q;
  width : Q;
  height : Q
}.

(** The variables the resize closures share. *)
Record State : Type := mkState {
  isResizing : bool;
  resizeDirection : string;
  startX : Q;
  startY : Q;
  startWidth : Q;
  startHeight : Q;
  startLeft : Q;
  startTop : Q;
  listening : bool
}.

(** [windowDiv.style.width], [.height], [.left] and [.top], in pixels, once
    set. *)
Record Style : Type := mkStyle {
  styleWidth : option Q;
  styleHeight : option Q;
  styleLeft : option Q;
  styleTop : option Q
}.

Definition initial : State := mkState false "" 0 0 0 0 0 0 false.

Definition edgeThreshold : Q := 10.

Definition getResizeDirection (clientX clientY : Q) (rect : Rect) : string :=
let x := clientX - left rect in
let y := clientY - top rect in
let direction := ""%string in
let direction :=
  if Js.lt y edgeThreshold then (direction ++ "n")%string else direction in
let direction :=
  if Js.gt y (height rect - edgeThreshold)
  then (direction ++ "s")%string else direction in
let direction :=
  if Js.lt x edgeThreshold then (direction ++ "w")%string else direction in
let direction :=
  if Js.gt x (width rect - edgeThreshold)
  then (direction ++ "e")%string else direction in
direction.

(** A string is truthy when it is not empty. *)
Definition truthy (s : string) : bool :=
match s with
| EmptyString => false
| String _ _ => true
end.

(** [mousedown] on the window. *)
Definition mouseDown (clientX clientY : Q) (rect : Rect) (r : State) : State :=
let direction := getResizeDirection clientX clientY rect in
if truthy direction
then mkState true direction clientX clientY (width rect) (height rect)
       (left rect) (top rect) true
else mkState (isResizing r) direction (startX r) (startY r) (startWidth r)
       (startHeight r) (startLeft r) (startTop r) (listening r).

(** [onMouseMove]; [dragging] is the window's [_isDragging]. *)
Definition onMouseMove (dragging : bool) (clientX clientY : Q) (r : State)
  (st : Style) : Style :=
if negb (isResizing r) || dragging then st
else
  let dx := clientX - startX r in
  let dy := clientY - startY r in
  let st :=
    if Js.includes "e" (resizeDirection r)
    then mkStyle (Some (Qmax 100 (startWidth r + dx))) (styleHeight st)
           (styleLeft st) (styleTop st)
    else st in
  let st :=
    if Js.includes "s" (resizeDirection r)
    then mkStyle (styleWidth st) (Some (Qmax 100 (startHeight r + dy)))
           (styleLeft st) (styleTop st)
    else st in
  let st :=
    if Js.includes "w" (resizeDirection r)
    then
      let newWidth := Qmax 100 (startWidth r - dx) in
      mkStyle (Some newWidth) (styleHeight st)
        (Some (startLeft r + (startWidth r - newWidth))) (styleTop st)
    else st in
  let st :=
    if Js.includes "n" (resizeDirection r)
    then
      let newHeight := Qmax 100 (startHeight r - dy) in
      mkStyle (styleWidth st) (Some newHeight) (styleLeft st)
        (Some (startTop r + (startHeight r - newHeight)))
    else st in
  st.

Definition onMouseUp (r : State) : State :=
mkState false "" (startX r) (startY r) (startWidth r) (startHeight r)
  (startLeft r) (startTop r) false.

End Resize.

(** *** Child elements *)

Module Children.

(** A light-DOM child: its [style.display] and its [data-child-hidden]
    attribute ([None] when the attribute is absent). *)
Record Child : Type := mkChild {
  display : string;
  childHidden : option string
}.

(** [_hideChildElements] *)
Definition hideChildElements (children : list Child) : list Child :=
map (fun child =>
       if String.eqb (display child) "none" then child
       else mkChild "none" (Some (display child)))
    children.

(** One iteration of [regenerateContent]: the child afterwards and the
    clone appended to the content element.  [attr || ''] is [attr] for a
    string [attr]. *)
Definition regenerateChild (child : Child) : Child * Child :=
match childHidden child with
| Some attr => (mkChild (display child) None, mkChild attr (Some attr))
| None => (child, child)
end.

(** [regenerateContent] on a window whose content element exists: the
    children afterwards and the new content. *)
Definition regenerateContent (children : list Child)
  : list Child * list Child :=
(map (fun child => fst (regenerateChild child)) children,
 map (fun child => snd (regenerateChild child)) children).

End Children.

(** *** The canvas layout of [update] *)

Module Canvas.

Record Layout : Type := mkLayout {
  width : Q;
  height : Q;
  marginLeft : Q;
  marginTop : Q
}.

Definition aspectRatio : Q := 16 / 9.

(** [containerWidth / containerHeight > aspectRatio]; for a zero height the
    quotient is an infinity or [NaN], above the ratio only when the width is
    positive. *)
Definition widerThanRatio (containerWidth containerHeight : Q) : bool :=
match Num.div containerWidth containerHeight with
| Some q => Js.gt q aspectRatio
| None => Js.gt containerWidth 0
end.

Definition fit (containerWidth containerHeight : Q) : Layout :=
let '(width, height) :=
  if widerThanRatio containerWidth containerHeight
  then (containerHeight * aspectRatio, containerHeight)
  else (containerWidth, containerWidth / aspectRatio) in
mkLayout width height ((containerWidth - width) / 2)
  ((containerHeight - height) / 2).

End Canvas.

(** ** The preload check *)

Module Preload.

Definition isDigit (c : ascii) : bool :=
(48 <=? nat_of_ascii c)%nat && (nat_of_ascii c <=? 57)%nat.

(** The longest run of digits a string starts with, and what follows. *)
Fixpoint takeDigits (s : string) : string * string :=
match s with
| String c rest =>
    if isDigit c
    then let '(digits, tail) := takeDigits rest in (String c digits, tail)
    else (EmptyString, s)
| EmptyString => (EmptyString, EmptyString)
end.

(** [/OS (\d+)_(\d+)/] tried at the start of [s]: the two captures.  Each
    [\d+] is greedy; giving digits back cannot help, because what follows
    the first group must be [_] and nothing follows the second. *)
Definition versionAt (s : string) : option (string * string) :=
match s with
| String c1 (String c2 (String c3 rest)) =>
    if Ascii.eqb c1 "O" && Ascii.eqb c2 "S" && Ascii.eqb c3 " " then
      let '(major, afterMajor) := takeDigits rest in
      match major, afterMajor with
      | String _ _, String separator afterSeparator =>
          if Ascii.eqb separator "_" then
            let '(minor, _) := takeDigits afterSeparator in
            match minor with
            | String _ _ => Some (major, minor)
            | EmptyString => None
            end
          else None
      | _, _ => None
      end
    else None
| _ => None
end.

(** [userAgent.match(/OS (\d+)_(\d+)/)]: the leftmost match. *)
Fixpoint matchVersion (s : string) : option (string * string) :=
match versionAt s with
| Some captures => Some captures
| None =>
    match s with
    | String _ rest => matchVersion rest
    | EmptyString => None
    end
end.

(** [parseInt(digits, 10)] on a non-empty string of digits. *)
Fixpoint parseDigits (acc : Z) (digits : string) : Z :=
match digits with
| String c rest =>
    parseDigits (acc * 10 + (Z.of_nat (nat_of_ascii c) - 48))%Z rest
| EmptyString => acc
end.

Definition parseInt (digits : string) : Z := parseDigits 0 digits.

Definition isIOS (userAgent : string) : bool :=
Js.includes "iPad" userAgent || Js.includes "iPhone" userAgent ||
Js.includes "iPod" userAgent.

Definition isSafari (userAgent : string) : bool :=
Js.includes "Safari" userAgent &&
negb (Js.includes "Chrome" userAgent || Js.includes "CriOS" userAgent ||
      Js.includes "FxiOS" userAgent).

Definition isUnsupported (userAgent : string) : bool :=
if isIOS userAgent && isSafari userAgent then
  match matchVersion userAgent with
  | Some (major, minor) =>
      let majorVersion := parseInt major in
      let minorVersion := parseInt minor in
      let version := inject_Z majorVersion + inject_Z minorVersion / 10 in
      Js.lt version 16.4
  | None => false
  end
else false.

(** A string made of digits only. *)
Fixpoint allDigits (s : string) : bool :=
match s with
| String c rest => isDigit c && allDigits rest
| EmptyString => true
end.

(** A string that does not go on with a digit. *)
Definition noDigitAhead (s : string) : bool :=
match s with
| String c _ => negb (isDigit c)
| EmptyString => true
end.

End Preload.

(** * Properties *)

(** ** Numbers *)

Lemma Qle_bool_true (a b : Q) : Qle_bool a b = true <-> a <= b.
Proof. apply Qle_bool_iff. Qed.

Lemma Qle_bool_false (a b : Q) : Qle_bool a b = false <-> b < a.
Proof.
  split; intros H.
  - apply Qnot_le_lt. intros Hle. apply Qle_bool_iff in Hle. congruence.
  - destruct (Qle_bool a b) eqn:E; [|reflexivity].
    apply Qle_bool_iff in E. exfalso. exact (Qlt_not_le _ _ H E).
Qed.

Lemma floor_nonneg (x : Q) : 0 <= x -> (0 <= Num.floor x)%Z.
Proof.
  intros H. unfold Num.floor.
  change 0%Z with (Qfloor (inject_Z 0)). rewrite Qfloor_Z.
  replace 0%Z with (Qfloor 0) by reflexivity.
  apply Qfloor_resp_le. exact H.
Qed.

Lemma floor_lt (x : Q) (n : Z) : x < inject_Z n -> (Num.floor x < n)%Z.
Proof.
  intros H. unfold Num.floor. rewrite Zlt_Qlt.
  eapply Qle_lt_trans; [apply Qfloor_le | exact H].
Qed.

(** The loop counters [0, 1, ...] of [for (k = 0; k < bound; k++)] are
    exactly the naturals below [bound]. *)
Lemma loop_count_spec (bound : Q) (k : nat) :
  (k < Num.loop_count bound)%nat <-> inject_Z (Z.of_nat k) < bound.
Proof.
  unfold Num.loop_count. split; intros H.
  - assert (Hk : (Z.of_nat k <= Qceiling bound - 1)%Z) by lia.
    rewrite Zle_Qle in Hk.
    eapply Qle_lt_trans; [exact Hk | apply Qceiling_lt].
  - assert (Hk : (Z.of_nat k < Qceiling bound)%Z).
    { rewrite Zlt_Qlt. eapply Qlt_le_trans; [exact H | apply Qle_ceiling]. }
    lia.
Qed.

(** Likewise for [for (k = 0; k <= bound; k++)]. *)
Lemma loop_count_incl_spec (bound : Q) (k : nat) :
  (k < Num.loop_count_incl bound)%nat <-> inject_Z (Z.of_nat k) <= bound.
Proof.
  unfold Num.loop_count_incl. split; intros H.
  - assert (Hk : (Z.of_nat k <= Qfloor bound)%Z) by lia.
    rewrite Zle_Qle in Hk.
    eapply Qle_trans; [exact Hk | apply Qfloor_le].
  - assert (Hk : (Z.of_nat k <= Qfloor bound)%Z).
    { rewrite <- (Qfloor_Z (Z.of_nat k)). apply Qfloor_resp_le. exact H. }
    lia.
Qed.

(** The fractional part [t - Math.floor(t)] lies in [[0, 1)]. *)
Lemma frac_range (t : Q) :
  0 <= t - inject_Z (Num.floor t) /\ t - inject_Z (Num.floor t) < 1.
Proof.
  unfold Num.floor.
  pose proof (Qfloor_le t) as Hlo.
  pose proof (Qlt_floor t) as Hhi.
  rewrite inject_Z_plus in Hhi. change (inject_Z 1) with 1 in Hhi.
  split; lra.
Qed.

(** ** Arrays *)

(** Overwriting one element by a new head element moves the old element to
    the front, up to the order of the elements. *)
Lemma insert_moves_to_front {A} (l : list A) (j : nat) (old new : A) :
  l !! j = Some old -> old :: <[j := new]> l ≡ₚ new :: l.
Proof.
  revert j. induction l as [|b l IH]; intros [|j] Hj; simplify_eq/=.
  - apply Permutation_swap.
  - rewrite (Permutation_swap b old). rewrite (IH j Hj).
    apply Permutation_swap.
Qed.

(** Exchanging two elements of a list rearranges it. *)
Lemma insert_exchange {A} (l : list A) (i j : nat) (x y : A) :
  l !! i = Some x -> l !! j = Some y ->
  <[j := x]> (<[i := y]> l) ≡ₚ l.
Proof.
  revert i j. induction l as [|a l IH]; intros [|i] [|j] Hi Hj;
    simplify_eq/=.
  - reflexivity.
  - apply insert_moves_to_front. exact Hj.
  - apply insert_moves_to_front. exact Hi.
  - f_equiv. apply IH; assumption.
Qed.

Lemma get_in_range {A} (arr : list (option A)) (i : Z) (e : option A) :
  (0 <= i)%Z -> arr !! Z.to_nat i = Some e -> Arr.get arr i = e.
Proof.
  intros Hi He. unfold Arr.get.
  destruct (Z.leb_spec 0 i); [|lia]. rewrite He. reflexivity.
Qed.

Lemma set_in_range {A} (arr : list (option A)) (i : Z) (v : option A) :
  (0 <= i < Z.of_nat (length arr))%Z ->
  Arr.set arr i v = <[Z.to_nat i := v]> arr.
Proof.
  intros Hi. unfold Arr.set.
  destruct (Z.leb_spec 0 i); [|lia].
  destruct (Nat.ltb_spec (Z.to_nat i) (length arr)); [reflexivity|lia].
Qed.

(** A swap of two positions inside the array rearranges its elements and
    creates no hole. *)
Lemma swap_in_range {A} (arr : list (option A)) (i j : Z) :
  (0 <= i < Z.of_nat (length arr))%Z ->
  (0 <= j < Z.of_nat (length arr))%Z ->
  Arr.swap arr i j ≡ₚ arr.
Proof.
  intros Hi Hj. unfold Arr.swap.
  destruct (lookup_lt_is_Some_2 arr (Z.to_nat i)) as [ei Hei]; [lia|].
  destruct (lookup_lt_is_Some_2 arr (Z.to_nat j)) as [ej Hej]; [lia|].
  rewrite (get_in_range arr i ei), (get_in_range arr j ej) by (lia || done).
  rewrite (set_in_range arr i) by lia.
  rewrite set_in_range by (rewrite length_insert; lia).
  apply insert_exchange; assumption.
Qed.

(** ** The permutation table *)

Section Shuffle.

Variable Math_sin : Q -> Q.

Lemma seededRandom_range (s : Q) :
  0 <= seededRandom Math_sin s /\ seededRandom Math_sin s < 1.
Proof.
  unfold seededRandom. apply frac_range.
Qed.

(** For a finite seed the draw of step [i] is an index between 0 and [i]. *)
Lemma shuffleDraw_range (seed : Q) (i : Z) :
  (0 <= i)%Z ->
  exists j : Z,
    shuffleDraw Math_sin (Ieee.Finite seed) i = Some j /\ (0 <= j <= i)%Z.
Proof.
  intros Hi. unfold shuffleDraw. eexists. split; [reflexivity|].
  destruct (seededRandom_range (seed + inject_Z i)) as [Hlo Hhi].
  set (r := seededRandom Math_sin (seed + inject_Z i)) in *.
  assert (Hpos : 0 < inject_Z (i + 1)).
  { rewrite <- (Zlt_Qlt 0). lia. }
  split.
  - apply floor_nonneg. apply Qmult_le_0_compat; [exact Hlo|].
    apply Qlt_le_weak. exact Hpos.
  - assert (H : (Num.floor (r * inject_Z (i + 1)) < i + 1)%Z); [|lia].
    apply floor_lt.
    rewrite <- (Qmult_1_l (inject_Z (i + 1))) at 2.
    apply Qmult_lt_compat_r; assumption.
Qed.

Lemma identityTable_length : length identityTable = 256%nat.
Proof. reflexivity. Qed.

(** For a finite seed every step of the shuffle stays inside the 256
    entries, so the loop only rearranges them, and it never creates the
    property named "NaN". *)
Lemma shuffleFrom_perm (seed : Q) (steps : nat)
    (permutation : list (option Z)) (extra : option Z) :
  (steps < length permutation)%nat ->
  fst (shuffleFrom Math_sin (Ieee.Finite seed) steps (permutation, extra))
    ≡ₚ permutation.
Proof.
  revert permutation. induction steps as [|k IH]; intros permutation Hlen.
  - reflexivity.
  - cbn [shuffleFrom].
    destruct (shuffleDraw_range seed (Z.of_nat (S k))) as (j & -> & Hj);
      [lia|].
    cbn [Arr.swapAt fst snd].
    assert (Hswap : Arr.swap permutation (Z.of_nat (S k)) j ≡ₚ permutation)
      by (apply swap_in_range; lia).
    rewrite IH; [exact Hswap|].
    rewrite (Permutation_length Hswap). lia.
Qed.

Lemma shuffled_perm (seed : Q) :
  shuffled Math_sin (Ieee.Finite seed) ≡ₚ identityTable.
Proof.
  unfold shuffled. apply shuffleFrom_perm. rewrite identityTable_length. lia.
Qed.

Lemma shuffled_length (seed : Q) :
  length (shuffled Math_sin (Ieee.Finite seed)) = 256%nat.
Proof. rewrite (Permutation_length (shuffled_perm seed)). reflexivity. Qed.

(** For a finite seed every entry of the doubled table is a number between
    0 and 255. *)
Lemma permutationTable_lookup (seed : Q) (i : Z) :
  (0 <= i < 512)%Z ->
  exists n : Z,
    Arr.get (permutationTable Math_sin (Ieee.Finite seed)) i = Some n /\
    (0 <= n < 256)%Z.
Proof.
  intros Hi. unfold permutationTable.
  destruct (lookup_lt_is_Some_2
              (shuffled Math_sin (Ieee.Finite seed) ++
               shuffled Math_sin (Ieee.Finite seed))
              (Z.to_nat i)) as [e He].
  { rewrite length_app, shuffled_length. lia. }
  rewrite (get_in_range _ i e) by (lia || done).
  assert (Hin : e ∈ shuffled Math_sin (Ieee.Finite seed)).
  { apply list_elem_of_lookup_2 in He. apply elem_of_app in He. tauto. }
  rewrite (shuffled_perm seed) in Hin.
  unfold identityTable in Hin. apply list_elem_of_fmap in Hin.
  destruct Hin as (k & -> & Hk). apply elem_of_seq in Hk.
  exists (Z.of_nat k). split; [reflexivity|lia].
Qed.

(** Inside [noise] no read of the doubled table misses when the seed is
    finite: for lattice coordinates [X], [Y] in 0..255 the four corner
    hashes are numbers. *)
Lemma noise_reads_defined (seed : Q) (X Y : Z) :
  (0 <= X < 256)%Z -> (0 <= Y < 256)%Z ->
  let p := permutationTable Math_sin (Ieee.Finite seed) in
  let a := (fun n => (n + Y)%Z) <$> Arr.get p X in
  let b := (fun n => (n + Y)%Z) <$> Arr.get p (X + 1) in
  is_Some (lookupAt p a) /\ is_Some (lookupAt p (Z.succ <$> a)) /\
  is_Some (lookupAt p b) /\ is_Some (lookupAt p (Z.succ <$> b)).
Proof.
  intros HX HY. cbv zeta.
  destruct (permutationTable_lookup seed X) as (na & -> & Hna); [lia|].
  destruct (permutationTable_lookup seed (X + 1)) as (nb & -> & Hnb); [lia|].
  cbn [fmap option_fmap option_map lookupAt mbind option_bind].
  destruct (permutationTable_lookup seed (na + Y)) as (h1 & -> & _); [lia|].
  destruct (permutationTable_lookup seed (Z.succ (na + Y)))
    as (h2 & -> & _); [lia|].
  destruct (permutationTable_lookup seed (nb + Y)) as (h3 & -> & _); [lia|].
  destruct (permutationTable_lookup seed (Z.succ (nb + Y)))
    as (h4 & -> & _); [lia|].
  repeat split; eexists; reflexivity.
Qed.

(** The table a seed that is not finite leads to: every draw is [NaN], each
    step moves the entry above into place through the property named "NaN",
    and the last entry is left [undefined]. *)
Lemma shuffled_not_finite (seed : Ieee.number) :
  Ieee.isFinite seed = false ->
  shuffled Math_sin seed =
  Some 0%Z :: map (fun i => Some (Z.of_nat i + 1)%Z) (seq 1 254) ++ [None].
Proof.
  intros Hseed. destruct seed as [q|s|]; [discriminate Hseed | |];
    vm_compute; reflexivity.
Qed.

End Shuffle.

(** ** Noise *)

(** Numbers that are equal as rationals are the same JavaScript number; the
    noise functions cannot tell two representations apart. *)
#[global] Instance floor_proper : Proper (Qeq ==> eq) Num.floor.
Proof. intros x y H. unfold Num.floor. rewrite H. reflexivity. Qed.

#[global] Instance fade_proper : Proper (Qeq ==> Qeq) fade.
Proof. intros x y H. unfold fade. rewrite H. reflexivity. Qed.

#[global] Instance lerp_proper : Proper (Qeq ==> Qeq ==> Qeq ==> Qeq) lerp.
Proof.
  intros t t' Ht a a' Ha b b' Hb. unfold lerp. rewrite Ht, Ha, Hb.
  reflexivity.
Qed.

#[global] Instance gradBits_proper (h : Z) :
  Proper (Qeq ==> Qeq ==> Qeq) (gradBits h).
Proof.
  intros x x' Hx y y' Hy. unfold gradBits.
  destruct (h <? 2)%Z, (Z.land h 1 =? 0)%Z, (Z.land h 2 =? 0)%Z;
    rewrite Hx, Hy; reflexivity.
Qed.

#[global] Instance blend_proper (h00 h10 h01 h11 : Z) :
  Proper (Qeq ==> Qeq ==> Qeq) (blend h00 h10 h01 h11).
Proof.
  intros x x' Hx y y' Hy. unfold blend. rewrite Hx, Hy. reflexivity.
Qed.

Lemma hashBits_range (hash : option Z) : (0 <= hashBits hash < 4)%Z.
Proof.
  destruct hash as [n|]; simpl; [|lia].
  change 3%Z with (Z.ones 2). rewrite Z.land_ones by lia.
  apply Z.mod_pos_bound. reflexivity.
Qed.

(** [noise] is [blend] at the fractional parts of its arguments, for some
    choice of the four corner hashes. *)
Lemma noise_is_blend (p : list (option Z)) (x y : Q) :
  exists h00 h10 h01 h11 : Z,
    (0 <= h00 < 4)%Z /\ (0 <= h10 < 4)%Z /\
    (0 <= h01 < 4)%Z /\ (0 <= h11 < 4)%Z /\
    noise p x y =
    blend h00 h10 h01 h11
      (x - inject_Z (Num.floor x)) (y - inject_Z (Num.floor y)).
Proof.
  unfold noise, grad, blend.
  eexists _, _, _, _.
  repeat (split; [apply hashBits_range|]). reflexivity.
Qed.

#[global] Instance noise_proper (p : list (option Z)) :
  Proper (Qeq ==> Qeq ==> Qeq) (noise p).
Proof.
  intros x x' Hx y y' Hy. unfold noise, grad. cbv zeta.
  rewrite <- (floor_proper _ _ Hx), <- (floor_proper _ _ Hy).
  generalize (Num.floor x) (Num.floor y). intros fx fy.
  rewrite Hx, Hy. reflexivity.
Qed.

#[global] Instance octaveLoop_proper (p : list (option Z)) :
  Proper (Qeq ==> Qeq ==> Qeq ==> Qeq ==> Qeq ==> Qeq ==> Qeq ==> eq ==>
          Qeq ==> Qeq ==> Qeq ==> Qeq) (octaveLoop p).
Proof.
  intros scale scale' Hs pers pers' Hp lac lac' Hl ox ox' Hox oy oy' Hoy
    x x' Hx y y' Hy n n' <-.
  induction n as [|k IH]; intros amp amp' Ha freq freq' Hf acc acc' Hacc.
  - exact Hacc.
  - cbn [octaveLoop]. apply IH.
    + rewrite Ha, Hp. reflexivity.
    + rewrite Hf, Hl. reflexivity.
    + rewrite Hacc, Ha, Hx, Hy, Hox, Hoy, Hs, Hf. reflexivity.
Qed.

Lemma twoBits_complete (h : Z) : (0 <= h < 4)%Z -> In h twoBits.
Proof. intros H. unfold twoBits. simpl. lia. Qed.

Lemma forCorners_spec (test : Z -> Z -> Z -> Z -> bool) :
  forCorners test = true ->
  forall h00 h10 h01 h11 : Z,
    (0 <= h00 < 4)%Z -> (0 <= h10 < 4)%Z ->
    (0 <= h01 < 4)%Z -> (0 <= h11 < 4)%Z ->
    test h00 h10 h01 h11 = true.
Proof.
  unfold forCorners. intros H h00 h10 h01 h11 H00 H10 H01 H11.
  rewrite forallb_forall in H.
  specialize (H h00 (twoBits_complete _ H00)).
  rewrite forallb_forall in H.
  specialize (H h10 (twoBits_complete _ H10)).
  rewrite forallb_forall in H.
  specialize (H h01 (twoBits_complete _ H01)).
  rewrite forallb_forall in H.
  exact (H h11 (twoBits_complete _ H11)).
Qed.

(** Whatever the permutation table holds, a property of [blend] checked for
    all corner hashes at the fractional parts of a sample point holds for
    [noise] at a sample point that is numerically the same. *)
Lemma noise_by_corners (p : list (option Z)) (x y fx fy : Q)
    (test : Q -> bool) :
  Proper (Qeq ==> eq) test ->
  x - inject_Z (Num.floor x) == fx ->
  y - inject_Z (Num.floor y) == fy ->
  forCorners (fun h00 h10 h01 h11 => test (blend h00 h10 h01 h11 fx fy)) = true ->
  test (noise p x y) = true.
Proof.
  intros Htest Hx Hy Hall.
  destruct (noise_is_blend p x y)
    as (h00 & h10 & h01 & h11 & H00 & H10 & H01 & H11 & ->).
  rewrite (Htest _ _ (blend_proper h00 h10 h01 h11 _ _ Hx _ _ Hy)).
  exact (forCorners_spec _ Hall h00 h10 h01 h11 H00 H10 H01 H11).
Qed.

(** On a lattice point every gradient term vanishes. *)
Lemma noise_lattice (p : list (option Z)) (x y : Q) :
  x == 0 -> y == 0 -> noise p x y == 0.
Proof.
  intros Hx Hy.
  apply Qeq_bool_iff.
  apply (noise_by_corners p x y 0 0 (fun c => Qeq_bool c 0)).
  - intros a b Hab. rewrite Hab. reflexivity.
  - rewrite (floor_proper x 0 Hx), Hx. reflexivity.
  - rewrite (floor_proper y 0 Hy), Hy. reflexivity.
  - vm_compute. reflexivity.
Qed.

(** With [lacunarity = 1] every octave samples the same point, so the sum
    is that one sample times the total amplitude. *)
Lemma octaveLoop_unit_lacunarity (p : list (option Z))
    (scale persistence offsetX offsetY x y : Q) (n : nat)
    (amplitude frequency noiseValue : Q) :
  frequency == 1 ->
  octaveLoop p scale persistence 1 offsetX offsetY x y n
    amplitude frequency noiseValue ==
  noiseValue +
  noise p ((x + offsetX) * scale) ((y + offsetY) * scale) *
  amplitudeSum persistence n * amplitude.
Proof.
  revert amplitude frequency noiseValue.
  induction n as [|k IH]; intros amplitude frequency noiseValue Hf.
  - cbn [octaveLoop amplitudeSum]. ring.
  - cbn [octaveLoop amplitudeSum]. rewrite IH by (rewrite Hf; ring).
    rewrite (noise_proper p ((x + offsetX) * scale * frequency)
               ((x + offsetX) * scale) ltac:(rewrite Hf; ring)
               ((y + offsetY) * scale * frequency)
               ((y + offsetY) * scale) ltac:(rewrite Hf; ring)).
    ring.
Qed.

#[global] Instance outsideUnit_proper : Proper (Qeq ==> eq) outsideUnit.
Proof. intros a b Hab. unfold outsideUnit. rewrite Hab. reflexivity. Qed.

Lemma outsideUnit_spec (c : Q) :
  outsideUnit c = true <-> ~ (0 <= c /\ c <= 1).
Proof.
  unfold outsideUnit. rewrite negb_true_iff, andb_false_iff.
  rewrite !Qle_bool_false. split.
  - intros [H|H] [H0 H1]; lra.
  - intros H. destruct (Qlt_le_dec c 0) as [Hc|Hc]; [left; exact Hc|].
    right. apply Qnot_le_lt. intros H1. apply H. split; assumption.
Qed.

(** Shape of the grid: one row per counter below [height], one cell per
    counter below [width]. *)
Lemma generateNoiseMap_shape (Math_sin : Q -> Q)
    (width height seed scale octaves persistence lacunarity offsetX offsetY : Q) :
  let grid :=
    generateNoiseMap Math_sin width height seed scale octaves persistence
      lacunarity offsetX offsetY in
  length grid = Num.loop_count height /\
  Forall (fun row => length row = Num.loop_count width) grid.
Proof.
  unfold generateNoiseMap. cbv zeta. split.
  - rewrite length_map, length_seq. reflexivity.
  - apply Forall_forall. intros row Hrow.
    apply list_elem_of_fmap in Hrow. destruct Hrow as (y & -> & _).
    rewrite length_map, length_seq. reflexivity.
Qed.

(** Every cell of the grid is a [noiseCell]. *)
Lemma generateNoiseMap_cell (Math_sin : Q -> Q)
    (width height seed scale octaves persistence lacunarity offsetX offsetY : Q)
    (row : list Q) (c : Q) :
  row ∈ generateNoiseMap Math_sin width height seed scale octaves persistence
          lacunarity offsetX offsetY ->
  c ∈ row ->
  exists x y : nat,
    c = noiseCell (permutationTable Math_sin (Ieee.Finite seed)) scale octaves
          persistence lacunarity offsetX offsetY x y.
Proof.
  unfold generateNoiseMap. intros Hrow Hc.
  apply list_elem_of_fmap in Hrow. destruct Hrow as (y & -> & _).
  apply list_elem_of_fmap in Hc. destruct Hc as (x & -> & _).
  exists x, y. reflexivity.
Qed.

(** C1 (failing input): the grid
    [generateNoiseMap(1, 1, seed, 1, 4, 2, 1, 0.0625, 0.25)] has a single
    cell, and for every seed and whatever the permutation table holds that
    cell lies outside [[0, 1]]: the four octaves sample the same point, the
    sum is 15 times the sample, and [(sum + 1) / 2] is not rescaled by the
    total amplitude. *)
Theorem noise_cell_leaves_unit_interval (Math_sin : Q -> Q) (seed : Q) :
  exists c : Q,
    generateNoiseMap Math_sin 1 1 seed 1 4 2 1 0.0625 0.25 = [[c]] /\
    ~ (0 <= c /\ c <= 1).
Proof.
  unfold generateNoiseMap. change (Num.loop_count 1) with 1%nat.
  cbn [seq map]. eexists. split; [reflexivity|].
  apply outsideUnit_spec. unfold noiseCell.
  change (Num.loop_count 4) with 4%nat.
  set (p := permutationTable Math_sin (Ieee.Finite seed)).
  set (x0 := inject_Z (Z.of_nat 0)).
  assert (Hcell :
    (octaveLoop p 1 2 1 0.0625 0.25 x0 x0 4 1 1 0 + 1) / 2 ==
    (0 + noise p ((x0 + 0.0625) * 1) ((x0 + 0.25) * 1) *
         amplitudeSum 2 4 * 1 + 1) / 2).
  { rewrite octaveLoop_unit_lacunarity by reflexivity. reflexivity. }
  rewrite (outsideUnit_proper _ _ Hcell).
  apply (noise_by_corners p _ _ 0.0625 0.25
           (fun n => outsideUnit ((0 + n * amplitudeSum 2 4 * 1 + 1) / 2))).
  - intros a b Hab. rewrite Hab. reflexivity.
  - reflexivity.
  - reflexivity.
  - vm_compute. reflexivity.
Qed.

(** With no octave to run, the sum stays 0 and the cell is one half. *)
Lemma noiseCell_no_octave (p : list (option Z))
    (scale octaves persistence lacunarity offsetX offsetY : Q) (x y : nat) :
  octaves <= 0 ->
  noiseCell p scale octaves persistence lacunarity offsetX offsetY x y == 0.5.
Proof.
  intros Ho. unfold noiseCell.
  assert (Hn : Num.loop_count octaves = 0%nat).
  { unfold Num.loop_count.
    assert (H : (Qceiling octaves <= 0)%Z); [|lia].
    change 0%Z with (Qceiling 0). apply Qceiling_resp_le. exact Ho. }
  rewrite Hn. reflexivity.
Qed.

(** One octave at the sample point (0.0625, 0.25) never yields one half,
    whatever the permutation table holds. *)
Lemma single_octave_not_half (p : list (option Z)) :
  ~ noiseCell p 1 1 0.5 2.0 0.0625 0.25 0 0 == 0.5.
Proof.
  unfold noiseCell. change (Num.loop_count 1) with 1%nat.
  cbn [octaveLoop]. intros H.
  apply Qeq_bool_iff in H.
  set (x0 := inject_Z (Z.of_nat 0)) in H.
  assert (Hn : negb (Qeq_bool
                 ((0 + noise p ((x0 + 0.0625) * 1 * 1) ((x0 + 0.25) * 1 * 1)
                      * 1 + 1) / 2) 0.5) = true).
  { apply (noise_by_corners p _ _ 0.0625 0.25
             (fun n => negb (Qeq_bool ((0 + n * 1 + 1) / 2) 0.5))).
    - intros a b Hab. rewrite Hab. reflexivity.
    - reflexivity.
    - reflexivity.
    - vm_compute. reflexivity. }
  rewrite H in Hn. discriminate.
Qed.

(** C4 (as stated, refuted): the grid for [octaves = 0] is not the grid for
    [octaves = 1].  At width 1, height 1, scale 1, persistence 0.5,
    lacunarity 2 and offsets (0.0625, 0.25) the first holds 0.5 and the
    second does not, for any seed and any sine. *)
Lemma octaves_not_clamped :
  ~ (forall (Math_sin : Q -> Q)
       (width height seed scale octaves persistence lacunarity
        offsetX offsetY : Q),
       octaves <= 0 ->
       sameGrid
         (generateNoiseMap Math_sin width height seed scale octaves
            persistence lacunarity offsetX offsetY)
         (generateNoiseMap Math_sin width height seed scale 1
            persistence lacunarity offsetX offsetY)).
Proof.
  intros H.
  specialize (H (fun _ => 0) 1 1 0 1 0 0.5 2.0 0.0625 0.25 ltac:(lra)).
  unfold generateNoiseMap in H. change (Num.loop_count 1) with 1%nat in H.
  cbn [seq map] in H.
  apply Forall2_cons_1 in H. destruct H as [H _].
  apply Forall2_cons_1 in H. destruct H as [H _].
  apply (single_octave_not_half
           (permutationTable (fun _ => 0) (Ieee.Finite 0))).
  rewrite <- H. apply noiseCell_no_octave. lra.
Qed.

(** ** generateNoiseMap on doubles *)

Lemma ofExact_cases (q : Q) :
  Ieee.ofExact q = Ieee.Finite q \/ exists s, Ieee.ofExact q = Ieee.Infinity s.
Proof.
  unfold Ieee.ofExact. destruct (Qle_bool Ieee.overflowBound (Qabs q)).
  - right. eexists. reflexivity.
  - left. reflexivity.
Qed.

Lemma ofExact_small (q : Q) :
  Qabs q < Ieee.overflowBound -> Ieee.ofExact q = Ieee.Finite q.
Proof.
  intros H. unfold Ieee.ofExact.
  apply Qle_bool_false in H. rewrite H. reflexivity.
Qed.

Lemma ofExact_large (q : Q) :
  Ieee.overflowBound <= Qabs q -> exists s, Ieee.ofExact q = Ieee.Infinity s.
Proof.
  intros H. unfold Ieee.ofExact.
  apply Qle_bool_true in H. rewrite H. eexists. reflexivity.
Qed.

Lemma overflowBound_pos : 2 < Ieee.overflowBound.
Proof. reflexivity. Qed.

Lemma ofExact_zero (q : Q) : q == 0 -> Ieee.ofExact q = Ieee.Finite q.
Proof.
  intros H. apply ofExact_small. rewrite H. reflexivity.
Qed.

Lemma add_Finite (a b : Ieee.number) (r : Q) :
  Ieee.add a b = Ieee.Finite r ->
  exists x y, a = Ieee.Finite x /\ b = Ieee.Finite y /\ r = x + y.
Proof.
  destruct a as [x|s|], b as [y|t|]; cbn; try discriminate.
  - intros H. destruct (ofExact_cases (x + y)) as [E|[s E]];
      rewrite E in H; [|discriminate H].
    injection H as <-. eauto.
  - destruct (Bool.eqb s t); discriminate.
Qed.

Lemma mul_Finite (a b : Ieee.number) (r : Q) :
  Ieee.mul a b = Ieee.Finite r ->
  exists x y, a = Ieee.Finite x /\ b = Ieee.Finite y /\ r = x * y.
Proof.
  destruct a as [x|s|], b as [y|t|]; cbn; try discriminate.
  - intros H. destruct (ofExact_cases (x * y)) as [E|[s E]];
      rewrite E in H; [|discriminate H].
    injection H as <-. eauto.
  - destruct (Qeq_bool x 0); discriminate.
  - destruct (Qeq_bool y 0); discriminate.
Qed.

Lemma half_Finite (a : Ieee.number) (r : Q) :
  Ieee.half a = Ieee.Finite r -> exists x, a = Ieee.Finite x /\ r = x / 2.
Proof.
  destruct a as [x|s|]; cbn; try discriminate.
  intros H. injection H as <-. eauto.
Qed.

Lemma add_NaN_r (a : Ieee.number) : Ieee.add a Ieee.NaN = Ieee.NaN.
Proof. destruct a; reflexivity. Qed.

Lemma noise_Finite (p : list (option Z)) (a b : Ieee.number) (r : Q) :
  Doubles.noise p a b = Ieee.Finite r ->
  exists x y, a = Ieee.Finite x /\ b = Ieee.Finite y /\ r = noise p x y.
Proof.
  destruct a as [x|s|], b as [y|t|]; cbn; try discriminate.
  intros H. injection H as <-. eauto.
Qed.

(** Whenever the sum of the octave loop is a finite double, it is the sum of
    the exact loop. *)
Lemma octaves_agree (p : list (option Z))
    (scale persistence lacunarity offsetX offsetY x y : Q) (n : nat) :
  forall (o : Doubles.Octaves) (a f v : Q),
    (forall a', Doubles.amplitude o = Ieee.Finite a' -> a' == a) ->
    (forall f', Doubles.frequency o = Ieee.Finite f' -> f' == f) ->
    (forall v', Doubles.noiseValue o = Ieee.Finite v' -> v' == v) ->
    forall r,
      Doubles.noiseValue
        (Nat.iter n
           (Doubles.octave p scale persistence lacunarity offsetX offsetY x y)
           o) = Ieee.Finite r ->
      r == octaveLoop p scale persistence lacunarity offsetX offsetY x y n
             a f v.
Proof.
  induction n as [|n IH]; intros o a f v Ha Hf Hv r Hr.
  - cbn in Hr. cbn [octaveLoop]. apply Hv. exact Hr.
  - rewrite Nat.iter_succ_r in Hr. cbn [octaveLoop].
    refine (IH _ _ _ _ _ _ _ r Hr); clear IH Hr r.
    + intros a' H. cbn [Doubles.octave Doubles.amplitude] in H.
      apply mul_Finite in H. destruct H as (a0 & p0 & Ha0 & Hp0 & ->).
      injection Hp0 as <-. rewrite (Ha _ Ha0). reflexivity.
    + intros f' H. cbn [Doubles.octave Doubles.frequency] in H.
      apply mul_Finite in H. destruct H as (f0 & l0 & Hf0 & Hl0 & ->).
      injection Hl0 as <-. rewrite (Hf _ Hf0). reflexivity.
    + intros v' H. cbn [Doubles.octave Doubles.noiseValue] in H.
      apply add_Finite in H. destruct H as (v0 & t & Hv0 & Ht & ->).
      apply mul_Finite in Ht. destruct Ht as (nz & a0 & Hnz & Ha0 & ->).
      apply noise_Finite in Hnz. destruct Hnz as (sx & sy & Hsx & Hsy & ->).
      apply mul_Finite in Hsx. destruct Hsx as (bx & f0 & Hbx & Hf0 & ->).
      apply mul_Finite in Hbx. destruct Hbx as (cx & s0 & Hcx & Hs0 & ->).
      apply add_Finite in Hcx. destruct Hcx as (x0 & ox & Hx0 & Hox & ->).
      apply mul_Finite in Hsy. destruct Hsy as (by' & f1 & Hby & Hf1 & ->).
      apply mul_Finite in Hby. destruct Hby as (cy & s1 & Hcy & Hs1 & ->).
      apply add_Finite in Hcy. destruct Hcy as (y0 & oy & Hy0 & Hoy & ->).
      injection Hs0 as <-. injection Hs1 as <-.
      injection Hx0 as <-. injection Hox as <-.
      injection Hy0 as <-. injection Hoy as <-.
      rewrite (Hv _ Hv0).
      rewrite (noise_proper p ((x + offsetX) * scale * f0)
                 ((x + offsetX) * scale * f)
                 ltac:(rewrite (Hf _ Hf0); reflexivity)
                 ((y + offsetY) * scale * f1)
                 ((y + offsetY) * scale * f)
                 ltac:(rewrite (Hf _ Hf1); reflexivity)).
      rewrite (Ha _ Ha0). reflexivity.
Qed.

Lemma noiseCell_agrees (p : list (option Z))
    (scale octaves persistence lacunarity offsetX offsetY : Q) (x y : nat)
    (r : Q) :
  Doubles.noiseCell p scale octaves persistence lacunarity offsetX offsetY x y
    = Ieee.Finite r ->
  r == noiseCell p scale octaves persistence lacunarity offsetX offsetY x y.
Proof.
  unfold Doubles.noiseCell, Doubles.normalize, noiseCell. intros H.
  apply half_Finite in H. destruct H as (s & Hs & ->).
  apply add_Finite in Hs. destruct Hs as (v & one & Hv & Hone & ->).
  injection Hone as <-.
  assert (E : v ==
              octaveLoop p scale persistence lacunarity offsetX offsetY
                (inject_Z (Z.of_nat x)) (inject_Z (Z.of_nat y))
                (Num.loop_count octaves) 1 1 0).
  { eapply (octaves_agree p scale persistence lacunarity offsetX offsetY
              _ _ _ Doubles.start 1 1 0); [| | |exact Hv];
      intros ? H; injection H as <-; reflexivity. }
  rewrite E. reflexivity.
Qed.

(** *** scale = 0 *)

(** With [scale = 0] a sample coordinate is 0, or [NaN] when the frequency
    or the coordinate sum is an infinity. *)
Lemma sample_zero_scale (c scale : Q) (f : Ieee.number) :
  scale == 0 ->
  let s := Ieee.mul (Ieee.mul (Ieee.ofExact c) (Ieee.Finite scale)) f in
  s = Ieee.NaN \/ exists q, s = Ieee.Finite q /\ q == 0.
Proof.
  intros Hs. cbv zeta.
  assert (Hz : Qeq_bool scale 0 = true) by (apply Qeq_bool_iff; exact Hs).
  destruct (ofExact_cases c) as [-> | [s ->]].
  - cbn [Ieee.mul]. rewrite (ofExact_zero (c * scale)) by (rewrite Hs; ring).
    destruct f as [q|t|]; cbn [Ieee.mul].
    + right. rewrite (ofExact_zero (c * scale * q)) by (rewrite Hs; ring).
      eexists. split; [reflexivity|]. rewrite Hs. ring.
    + assert (E : Qeq_bool (c * scale) 0 = true)
        by (apply Qeq_bool_iff; rewrite Hs; ring).
      rewrite E. left. reflexivity.
    + left. reflexivity.
  - cbn [Ieee.mul]. rewrite Hz. left. reflexivity.
Qed.

Lemma octave_zero_scale (p : list (option Z))
    (scale persistence lacunarity offsetX offsetY x y : Q)
    (o : Doubles.Octaves) :
  scale == 0 ->
  (Doubles.noiseValue o = Ieee.NaN \/
   exists v, Doubles.noiseValue o = Ieee.Finite v /\ v == 0) ->
  let o' := Doubles.octave p scale persistence lacunarity offsetX offsetY x y o
  in
  Doubles.noiseValue o' = Ieee.NaN \/
  exists v, Doubles.noiseValue o' = Ieee.Finite v /\ v == 0.
Proof.
  intros Hs Hv. cbv zeta. cbn [Doubles.octave Doubles.noiseValue Ieee.add].
  change (Ieee.add (Ieee.Finite x) (Ieee.Finite offsetX))
    with (Ieee.ofExact (x + offsetX)).
  change (Ieee.add (Ieee.Finite y) (Ieee.Finite offsetY))
    with (Ieee.ofExact (y + offsetY)).
  destruct (sample_zero_scale (x + offsetX) scale (Doubles.frequency o) Hs)
    as [-> | (sx & -> & Hsx)].
  { cbn [Doubles.noise Ieee.mul]. rewrite add_NaN_r. left. reflexivity. }
  destruct (sample_zero_scale (y + offsetY) scale (Doubles.frequency o) Hs)
    as [-> | (sy & -> & Hsy)].
  { cbn [Doubles.noise Ieee.mul]. rewrite add_NaN_r. left. reflexivity. }
  cbn [Doubles.noise].
  pose proof (noise_lattice p sx sy Hsx Hsy) as Hn.
  destruct (Doubles.amplitude o) as [a|t|]; cbn [Ieee.mul].
  - rewrite (ofExact_zero (noise p sx sy * a)) by (rewrite Hn; ring).
    destruct Hv as [-> | (v & -> & Hv)]; [left; reflexivity|].
    right. cbn [Ieee.add].
    rewrite (ofExact_zero (v + noise p sx sy * a)) by (rewrite Hv, Hn; ring).
    eexists. split; [reflexivity|]. rewrite Hv, Hn. ring.
  - assert (E : Qeq_bool (noise p sx sy) 0 = true)
      by (apply Qeq_bool_iff; exact Hn).
    rewrite E, add_NaN_r. left. reflexivity.
  - rewrite add_NaN_r. left. reflexivity.
Qed.

Lemma octaves_zero_scale (p : list (option Z))
    (scale persistence lacunarity offsetX offsetY x y : Q) (n : nat) :
  scale == 0 ->
  let o := Nat.iter n
             (Doubles.octave p scale persistence lacunarity offsetX offsetY x y)
             Doubles.start in
  Doubles.noiseValue o = Ieee.NaN \/
  exists v, Doubles.noiseValue o = Ieee.Finite v /\ v == 0.
Proof.
  intros Hs. cbv zeta. induction n as [|n IH].
  - right. exists 0. split; reflexivity.
  - rewrite Nat.iter_succ. apply octave_zero_scale; assumption.
Qed.

(** With [scale = 0] a cell is one half, or [NaN]. *)
Lemma noiseCell_zero_scale_doubles (p : list (option Z))
    (scale octaves persistence lacunarity offsetX offsetY : Q) (x y : nat) :
  scale == 0 ->
  let c := Doubles.noiseCell p scale octaves persistence lacunarity offsetX
             offsetY x y in
  Ieee.same c (Ieee.Finite 0.5) \/ c = Ieee.NaN.
Proof.
  intros Hs. cbv zeta. unfold Doubles.noiseCell, Doubles.normalize.
  destruct (octaves_zero_scale p scale persistence lacunarity offsetX offsetY
              (inject_Z (Z.of_nat x)) (inject_Z (Z.of_nat y))
              (Num.loop_count octaves) Hs) as [-> | (v & -> & Hv)].
  - right. reflexivity.
  - left. cbn [Ieee.add].
    rewrite (ofExact_small (v + 1)) by (rewrite Hv; reflexivity).
    cbn [Ieee.half Ieee.same]. rewrite Hv. reflexivity.
Qed.

Lemma pow2_succ (n : nat) :
  inject_Z (2 ^ Z.of_nat (S n)) == 2 * inject_Z (2 ^ Z.of_nat n).
Proof.
  rewrite Nat2Z.inj_succ, Z.pow_succ_r by lia. rewrite inject_Z_mult.
  reflexivity.
Qed.

Lemma pow2_small (n : nat) :
  (n <= 1001)%nat -> inject_Z (2 ^ Z.of_nat n) < Ieee.overflowBound.
Proof.
  intros Hn. apply Qle_lt_trans with (inject_Z (2 ^ 1001)).
  - rewrite <- Zle_Qle. apply Z.pow_le_mono_r; lia.
  - reflexivity.
Qed.

Lemma Qabs_mul_le (a b A B : Q) :
  Qabs a <= A -> Qabs b <= B -> Qabs (a * b) <= A * B.
Proof.
  intros Ha Hb. rewrite Qabs_Qmult.
  pose proof (Qabs_nonneg a) as Ha0. pose proof (Qabs_nonneg b) as Hb0.
  apply Qle_trans with (A * Qabs b).
  - apply Qmult_le_compat_r; assumption.
  - rewrite (Qmult_comm A (Qabs b)), (Qmult_comm A B).
    apply Qmult_le_compat_r; [exact Hb | lra].
Qed.

(** With [scale = 0], factors of magnitude at most 2 and at most 1000
    octaves, the amplitude and the frequency stay finite and the sum stays
    0. *)
Lemma octaves_zero_scale_finite (p : list (option Z))
    (scale persistence lacunarity offsetX offsetY x y : Q) (n : nat) :
  scale == 0 -> Qabs persistence <= 2 -> Qabs lacunarity <= 2 ->
  Qabs (x + offsetX) < Ieee.overflowBound ->
  Qabs (y + offsetY) < Ieee.overflowBound ->
  (n <= 1000)%nat ->
  let o := Nat.iter n
             (Doubles.octave p scale persistence lacunarity offsetX offsetY x y)
             Doubles.start in
  (exists a, Doubles.amplitude o = Ieee.Finite a /\
             Qabs a <= inject_Z (2 ^ Z.of_nat n)) /\
  (exists f, Doubles.frequency o = Ieee.Finite f /\
             Qabs f <= inject_Z (2 ^ Z.of_nat n)) /\
  (exists v, Doubles.noiseValue o = Ieee.Finite v /\ v == 0).
Proof.
  intros Hs Hp Hl Hx Hy. cbv zeta. induction n as [|n IH]; intros Hn.
  - cbn. repeat split; eexists; (split; [reflexivity|]);
      try reflexivity; intros H; discriminate H.
  - rewrite Nat.iter_succ.
    destruct (IH ltac:(lia)) as ((a & Ea & Ha) & (f & Ef & Hf) & (v & Ev & Hv)).
    set (o := Nat.iter n _ _) in *.
    pose proof (pow2_small (S n) ltac:(lia)) as Hsmall.
    rewrite pow2_succ in Hsmall.
    cbn [Doubles.octave Doubles.amplitude Doubles.frequency
         Doubles.noiseValue].
    rewrite Ea, Ef, Ev. cbn [Ieee.add Ieee.mul].
    split; [|split].
    + exists (a * persistence).
      assert (Hb : Qabs (a * persistence) <= inject_Z (2 ^ Z.of_nat n) * 2)
        by (apply Qabs_mul_le; assumption).
      rewrite ofExact_small by lra.
      split; [reflexivity|]. rewrite pow2_succ. lra.
    + exists (f * lacunarity).
      assert (Hb : Qabs (f * lacunarity) <= inject_Z (2 ^ Z.of_nat n) * 2)
        by (apply Qabs_mul_le; assumption).
      rewrite ofExact_small by lra.
      split; [reflexivity|]. rewrite pow2_succ. lra.
    + rewrite (ofExact_small (x + offsetX)) by exact Hx.
      rewrite (ofExact_small (y + offsetY)) by exact Hy.
      cbn [Ieee.mul].
      rewrite (ofExact_zero ((x + offsetX) * scale)) by (rewrite Hs; ring).
      rewrite (ofExact_zero ((y + offsetY) * scale)) by (rewrite Hs; ring).
      cbn [Ieee.mul].
      rewrite (ofExact_zero ((x + offsetX) * scale * f)) by (rewrite Hs; ring).
      rewrite (ofExact_zero ((y + offsetY) * scale * f)) by (rewrite Hs; ring).
      cbn [Doubles.noise Ieee.mul].
      assert (Hnz : noise p ((x + offsetX) * scale * f)
                      ((y + offsetY) * scale * f) == 0)
        by (apply noise_lattice; rewrite Hs; ring).
      set (N := noise p ((x + offsetX) * scale * f)
                  ((y + offsetY) * scale * f)) in *.
      rewrite (ofExact_zero (N * a)) by (rewrite Hnz; ring).
      cbn [Ieee.add].
      rewrite (ofExact_zero (v + N * a)) by (rewrite Hv, Hnz; ring).
      eexists. split; [reflexivity|]. rewrite Hv, Hnz. ring.
Qed.

(** The sum of a loop counter and an offset within the range of the doubles
    is finite. *)
Lemma coordinate_finite (bound offset : Q) (k : nat) :
  bound <= inject_Z (2 ^ 53) -> (k < Num.loop_count bound)%nat ->
  Ieee.inDoubleRange offset ->
  Qabs (inject_Z (Z.of_nat k) + offset) < Ieee.overflowBound.
Proof.
  intros Hb Hk Ho. apply loop_count_spec in Hk.
  assert (Hk0 : 0 <= inject_Z (Z.of_nat k)).
  { change 0 with (inject_Z 0). rewrite <- Zle_Qle. lia. }
  pose proof (Qabs_triangle (inject_Z (Z.of_nat k)) offset) as Ht.
  rewrite (Qabs_pos (inject_Z (Z.of_nat k))) in Ht by exact Hk0.
  unfold Ieee.inDoubleRange in Ho.
  assert (Hc : inject_Z (2 ^ 53) + Ieee.MAX_VALUE < Ieee.overflowBound)
    by reflexivity.
  lra.
Qed.

Lemma noiseCell_zero_scale_finite (p : list (option Z))
    (width height scale octaves persistence lacunarity offsetX offsetY : Q)
    (x y : nat) :
  scale == 0 -> Qabs persistence <= 2 -> Qabs lacunarity <= 2 ->
  octaves <= 1000 ->
  width <= inject_Z (2 ^ 53) -> height <= inject_Z (2 ^ 53) ->
  Ieee.inDoubleRange offsetX -> Ieee.inDoubleRange offsetY ->
  (x < Num.loop_count width)%nat -> (y < Num.loop_count height)%nat ->
  Ieee.same
    (Doubles.noiseCell p scale octaves persistence lacunarity offsetX offsetY
       x y)
    (Ieee.Finite 0.5).
Proof.
  intros Hs Hp Hl Ho Hw Hh Hox Hoy Hx Hy.
  assert (Hn : (Num.loop_count octaves <= 1000)%nat).
  { unfold Num.loop_count.
    assert (H : (Qceiling octaves <= 1000)%Z); [|lia].
    change 1000%Z with (Qceiling 1000). apply Qceiling_resp_le. exact Ho. }
  destruct (octaves_zero_scale_finite p scale persistence lacunarity offsetX
              offsetY (inject_Z (Z.of_nat x)) (inject_Z (Z.of_nat y))
              (Num.loop_count octaves) Hs Hp Hl
              (coordinate_finite width offsetX x Hw Hx Hox)
              (coordinate_finite height offsetY y Hh Hy Hoy) Hn)
    as (_ & _ & (v & Ev & Hv)).
  unfold Doubles.noiseCell, Doubles.normalize. rewrite Ev. cbn [Ieee.add].
  rewrite (ofExact_small (v + 1)) by (rewrite Hv; reflexivity).
  cbn [Ieee.half Ieee.same]. rewrite Hv. reflexivity.
Qed.

(** *** Overflow of the amplitude and of the frequency *)

Lemma frequency_octave (p : list (option Z))
    (scale persistence lacunarity offsetX offsetY x y : Q)
    (o : Doubles.Octaves) :
  Doubles.frequency
    (Doubles.octave p scale persistence lacunarity offsetX offsetY x y o) =
  Ieee.mul (Doubles.frequency o) (Ieee.Finite lacunarity).
Proof. reflexivity. Qed.

Lemma amplitude_octave (p : list (option Z))
    (scale persistence lacunarity offsetX offsetY x y : Q)
    (o : Doubles.Octaves) :
  Doubles.amplitude
    (Doubles.octave p scale persistence lacunarity offsetX offsetY x y o) =
  Ieee.mul (Doubles.amplitude o) (Ieee.Finite persistence).
Proof. reflexivity. Qed.

(** A factor whose square overflows is an infinity after two
    multiplications, and stays one. *)
Lemma square_overflows (factor : Q) (k : nat) :
  Ieee.overflowBound <= factor * factor ->
  exists s,
    Nat.iter (2 + k) (fun a => Ieee.mul a (Ieee.Finite factor))
      (Ieee.Finite 1) = Ieee.Infinity s.
Proof.
  intros Hl.
  assert (Hnz : Qeq_bool factor 0 = false).
  { destruct (Qeq_bool factor 0) eqn:E; [|reflexivity].
    apply Qeq_bool_iff in E. rewrite E in Hl.
    pose proof overflowBound_pos. lra. }
  induction k as [|k (s & IH)].
  - cbn [Nat.add Nat.iter nat_rect Ieee.mul].
    destruct (ofExact_cases (1 * factor)) as [-> | [s ->]].
    + cbn [Ieee.mul]. apply ofExact_large.
      assert (E : 1 * factor * factor == factor * factor) by ring.
      rewrite E. rewrite Qabs_pos; [exact Hl|].
      pose proof overflowBound_pos. lra.
    + cbn [Ieee.mul]. rewrite Hnz. eexists. reflexivity.
  - replace (2 + S k)%nat with (S (2 + k)) by lia.
    rewrite Nat.iter_succ, IH. cbn [Ieee.mul].
    rewrite Hnz. eexists. reflexivity.
Qed.

Lemma amplitude_iter (p : list (option Z))
    (scale persistence lacunarity offsetX offsetY x y : Q) (n : nat) :
  Doubles.amplitude
    (Nat.iter n
       (Doubles.octave p scale persistence lacunarity offsetX offsetY x y)
       Doubles.start) =
  Nat.iter n (fun a => Ieee.mul a (Ieee.Finite persistence)) (Ieee.Finite 1).
Proof.
  induction n as [|n IH]; [reflexivity|].
  rewrite !Nat.iter_succ, amplitude_octave, IH. reflexivity.
Qed.

Lemma frequency_iter (p : list (option Z))
    (scale persistence lacunarity offsetX offsetY x y : Q) (n : nat) :
  Doubles.frequency
    (Nat.iter n
       (Doubles.octave p scale persistence lacunarity offsetX offsetY x y)
       Doubles.start) =
  Nat.iter n (fun f => Ieee.mul f (Ieee.Finite lacunarity)) (Ieee.Finite 1).
Proof.
  induction n as [|n IH]; [reflexivity|].
  rewrite !Nat.iter_succ, frequency_octave, IH. reflexivity.
Qed.

(** An octave entered with [scale = 0] and an infinite amplitude or
    frequency multiplies zero by an infinity: the sum becomes [NaN]. *)
Lemma octave_zero_times_infinity (p : list (option Z))
    (scale persistence lacunarity offsetX offsetY x y : Q)
    (o : Doubles.Octaves) :
  scale == 0 ->
  (exists s, Doubles.frequency o = Ieee.Infinity s) \/
  (exists s, Doubles.amplitude o = Ieee.Infinity s) ->
  Doubles.noiseValue
    (Doubles.octave p scale persistence lacunarity offsetX offsetY x y o) =
  Ieee.NaN.
Proof.
  intros Hs Hinf. cbn [Doubles.octave Doubles.noiseValue].
  change (Ieee.add (Ieee.Finite x) (Ieee.Finite offsetX))
    with (Ieee.ofExact (x + offsetX)).
  change (Ieee.add (Ieee.Finite y) (Ieee.Finite offsetY))
    with (Ieee.ofExact (y + offsetY)).
  destruct (sample_zero_scale (x + offsetX) scale (Doubles.frequency o) Hs)
    as [-> | (sx & Ex & Hsx)].
  { cbn [Doubles.noise Ieee.mul]. apply add_NaN_r. }
  destruct (sample_zero_scale (y + offsetY) scale (Doubles.frequency o) Hs)
    as [-> | (sy & Ey & Hsy)].
  { rewrite Ex. cbn [Doubles.noise Ieee.mul]. apply add_NaN_r. }
  destruct Hinf as [(s & Hf) | (s & Ha)].
  - exfalso. rewrite Hf in Ex.
    destruct (Ieee.mul (Ieee.ofExact (x + offsetX)) (Ieee.Finite scale))
      as [b|t|]; cbn [Ieee.mul] in Ex; try discriminate Ex.
    destruct (Qeq_bool b 0); discriminate Ex.
  - rewrite Ex, Ey, Ha. cbn [Doubles.noise Ieee.mul].
    assert (E : Qeq_bool (noise p sx sy) 0 = true)
      by (apply Qeq_bool_iff; apply noise_lattice; assumption).
    rewrite E. apply add_NaN_r.
Qed.

Lemma noiseCell_overflow_NaN (p : list (option Z))
    (scale octaves persistence lacunarity offsetX offsetY : Q) (x y : nat) :
  scale == 0 -> 2 < octaves ->
  Ieee.overflowBound <= lacunarity * lacunarity \/
  Ieee.overflowBound <= persistence * persistence ->
  Doubles.noiseCell p scale octaves persistence lacunarity offsetX offsetY x y
  = Ieee.NaN.
Proof.
  intros Hs Ho Hover. unfold Doubles.noiseCell, Doubles.normalize.
  assert (Hn : (2 < Num.loop_count octaves)%nat).
  { apply loop_count_spec. exact Ho. }
  destruct (Num.loop_count octaves) as [|[|[|k]]]; try lia.
  rewrite Nat.iter_succ.
  rewrite octave_zero_times_infinity; [reflexivity | exact Hs |].
  change (S (S k)) with (2 + k)%nat.
  rewrite frequency_iter, amplitude_iter.
  destruct Hover as [Hl | Hp]; [left | right]; apply square_overflows;
    assumption.
Qed.

(** *** The loops, counter by counter *)

Lemma increment_exact (k : nat) :
  (Z.of_nat k < 2 ^ 53)%Z -> Counted.increment (Z.of_nat k) = Z.of_nat (S k).
Proof.
  intros H. unfold Counted.increment.
  destruct (Z.ltb_spec (Z.of_nat k) (2 ^ 53)); lia.
Qed.

Lemma increment_stuck (k : Z) :
  (0 <= k <= 2 ^ 53)%Z -> (0 <= Counted.increment k <= 2 ^ 53)%Z.
Proof.
  intros H. unfold Counted.increment.
  destruct (Z.ltb_spec k (2 ^ 53)); lia.
Qed.

Lemma loop_count_small (bound : Q) :
  bound <= inject_Z (2 ^ 53) -> (Z.of_nat (Num.loop_count bound) <= 2 ^ 53)%Z.
Proof.
  intros H. unfold Num.loop_count.
  assert (Hc : (Qceiling bound <= 2 ^ 53)%Z).
  { rewrite <- (Qceiling_Z (2 ^ 53)). apply Qceiling_resp_le. exact H. }
  lia.
Qed.

Lemma loop_test (bound : Q) (k : nat) :
  negb (Qle_bool bound (inject_Z (Z.of_nat k))) =
  (k <? Num.loop_count bound)%nat.
Proof.
  destruct (Nat.ltb_spec k (Num.loop_count bound)) as [H|H].
  - apply loop_count_spec in H. apply negb_true_iff, Qle_bool_false. exact H.
  - apply negb_false_iff, Qle_bool_true. apply Qnot_lt_le. intros Hlt.
    apply loop_count_spec in Hlt. lia.
Qed.

(** A loop whose bound is at most [2^53] runs its body once for each
    counter below the bound, in order, and ends. *)
Lemma forLoop_runs {T : Type} (bound : Q) (body : Z -> T -> option T)
    (f : nat -> T -> T) :
  bound <= inject_Z (2 ^ 53) ->
  (forall k s, (k < Num.loop_count bound)%nat ->
               body (Z.of_nat k) s = Some (f k s)) ->
  forall (m k fuel : nat) (s : T),
    (k + m = Num.loop_count bound)%nat -> (m < fuel)%nat ->
    Counted.forLoop fuel bound body (Z.of_nat k) s =
    Some (fold_left (fun s k => f k s) (seq k m) s).
Proof.
  intros Hb Hbody. pose proof (loop_count_small bound Hb) as Hsmall.
  induction m as [|m IH]; intros k fuel s Hk Hfuel.
  - destruct fuel as [|fuel]; [lia|]. cbn [Counted.forLoop].
    rewrite loop_test.
    destruct (Nat.ltb_spec k (Num.loop_count bound)); [lia|]. reflexivity.
  - destruct fuel as [|fuel]; [lia|]. cbn [Counted.forLoop].
    rewrite loop_test.
    destruct (Nat.ltb_spec k (Num.loop_count bound)); [|lia].
    rewrite Hbody by lia. rewrite increment_exact by lia.
    rewrite (IH (S k) fuel) by lia. reflexivity.
Qed.

Lemma forLoop_whole {T : Type} (bound : Q) (body : Z -> T -> option T)
    (f : nat -> T -> T) (fuel : nat) (s : T) :
  bound <= inject_Z (2 ^ 53) ->
  (forall k s, (k < Num.loop_count bound)%nat ->
               body (Z.of_nat k) s = Some (f k s)) ->
  (Num.loop_count bound < fuel)%nat ->
  Counted.forLoop fuel bound body 0%Z s =
  Some (fold_left (fun s k => f k s) (seq 0 (Num.loop_count bound)) s).
Proof.
  intros Hb Hbody Hfuel.
  exact (forLoop_runs bound body f Hb Hbody (Num.loop_count bound) 0 fuel s
           eq_refl Hfuel).
Qed.

(** A loop whose bound is above [2^53] never ends: its counter stops
    advancing at [2^53]. *)
Lemma forLoop_stuck {T : Type} (fuel : nat) (bound : Q)
    (body : Z -> T -> option T) (k : Z) (s : T) :
  inject_Z (2 ^ 53) < bound -> (0 <= k <= 2 ^ 53)%Z ->
  Counted.forLoop fuel bound body k s = None.
Proof.
  intros Hb. revert k s.
  induction fuel as [|fuel IH]; intros k s Hk; [reflexivity|].
  cbn [Counted.forLoop].
  assert (Ht : negb (Qle_bool bound (inject_Z k)) = true).
  { apply negb_true_iff, Qle_bool_false.
    apply Qle_lt_trans with (inject_Z (2 ^ 53)); [|exact Hb].
    rewrite <- Zle_Qle. lia. }
  rewrite Ht. destruct (body k s) as [s'|]; [|reflexivity].
  apply IH. apply increment_stuck. exact Hk.
Qed.

Lemma fold_left_constant {T : Type} (f : T -> T) (l : list nat) (s : T) :
  fold_left (fun s _ => f s) l s = Nat.iter (length l) f s.
Proof.
  revert s. induction l as [|k l IH]; intros s; [reflexivity|].
  cbn [fold_left length]. rewrite IH, Nat.iter_succ_r. reflexivity.
Qed.

Lemma fold_left_append {B : Type} (g : nat -> B) (l : list nat)
    (acc : list B) :
  fold_left (fun acc k => acc ++ [g k]) l acc = acc ++ map g l.
Proof.
  revert acc. induction l as [|k l IH]; intros acc.
  - cbn. rewrite app_nil_r. reflexivity.
  - cbn [fold_left map]. rewrite IH, <- app_assoc. reflexivity.
Qed.

Lemma octaveLoop_returns (fuel : nat) (p : list (option Z))
    (scale octaves persistence lacunarity offsetX offsetY : Q) (x y : nat) :
  octaves <= inject_Z (2 ^ 53) -> (Num.loop_count octaves < fuel)%nat ->
  Counted.octaveLoop fuel p scale octaves persistence lacunarity offsetX
    offsetY (Z.of_nat x) (Z.of_nat y) =
  Some (Nat.iter (Num.loop_count octaves)
          (Doubles.octave p scale persistence lacunarity offsetX offsetY
             (inject_Z (Z.of_nat x)) (inject_Z (Z.of_nat y)))
          Doubles.start).
Proof.
  intros Ho Hfuel. unfold Counted.octaveLoop.
  rewrite (forLoop_whole octaves _
             (fun _ o =>
                Doubles.octave p scale persistence lacunarity offsetX offsetY
                  (inject_Z (Z.of_nat x)) (inject_Z (Z.of_nat y)) o)
             fuel Doubles.start Ho (fun _ _ _ => eq_refl) Hfuel).
  rewrite fold_left_constant, length_seq. reflexivity.
Qed.

Lemma rowLoop_returns (fuel : nat) (p : list (option Z))
    (width scale octaves persistence lacunarity offsetX offsetY : Q)
    (y : nat) :
  width <= inject_Z (2 ^ 53) -> octaves <= inject_Z (2 ^ 53) ->
  (Num.loop_count width < fuel)%nat -> (Num.loop_count octaves < fuel)%nat ->
  Counted.rowLoop fuel p width scale octaves persistence lacunarity offsetX
    offsetY (Z.of_nat y) =
  Some (map (fun x =>
               Doubles.noiseCell p scale octaves persistence lacunarity
                 offsetX offsetY x y)
          (seq 0 (Num.loop_count width))).
Proof.
  intros Hw Ho Hfw Hfo. unfold Counted.rowLoop.
  rewrite (forLoop_whole width _
             (fun x cells =>
                cells ++ [Doubles.noiseCell p scale octaves persistence
                            lacunarity offsetX offsetY x y])
             fuel [] Hw).
  - rewrite fold_left_append. reflexivity.
  - intros x cells _.
    rewrite octaveLoop_returns by assumption. reflexivity.
  - exact Hfw.
Qed.

Lemma generateNoiseMap_returns (Math_sin : Q -> Q) (fuel : nat)
    (seed : Ieee.number)
    (width height scale octaves persistence lacunarity offsetX offsetY : Q) :
  width <= inject_Z (2 ^ 53) -> height <= inject_Z (2 ^ 53) ->
  octaves <= inject_Z (2 ^ 53) ->
  (Num.loop_count width < fuel)%nat -> (Num.loop_count height < fuel)%nat ->
  (Num.loop_count octaves < fuel)%nat ->
  Counted.generateNoiseMap Math_sin fuel width height seed scale octaves
    persistence lacunarity offsetX offsetY =
  Some (Doubles.generateNoiseMap Math_sin width height seed scale octaves
          persistence lacunarity offsetX offsetY).
Proof.
  intros Hw Hh Ho Hfw Hfh Hfo.
  unfold Counted.generateNoiseMap, Doubles.generateNoiseMap. cbv zeta.
  set (p := permutationTable Math_sin seed).
  rewrite (forLoop_whole height _
             (fun y noiseMap =>
                noiseMap ++
                [map (fun x =>
                        Doubles.noiseCell p scale octaves persistence
                          lacunarity offsetX offsetY x y)
                   (seq 0 (Num.loop_count width))])
             fuel [] Hh).
  - rewrite fold_left_append. reflexivity.
  - intros y noiseMap _.
    rewrite rowLoop_returns by assumption. reflexivity.
  - exact Hfh.
Qed.

Lemma generateNoiseMap_never_returns (Math_sin : Q -> Q) (fuel : nat)
    (seed : Ieee.number)
    (width height scale octaves persistence lacunarity offsetX offsetY : Q) :
  0 < height ->
  inject_Z (2 ^ 53) < height \/
  0 < width /\ (inject_Z (2 ^ 53) < width \/ inject_Z (2 ^ 53) < octaves) ->
  Counted.generateNoiseMap Math_sin fuel width height seed scale octaves
    persistence lacunarity offsetX offsetY = None.
Proof.
  intros Hh0 Hbig. unfold Counted.generateNoiseMap. cbv zeta.
  destruct Hbig as [Hh | (Hw0 & Hbig)].
  { apply forLoop_stuck; [exact Hh | lia]. }
  destruct fuel as [|fuel]; [reflexivity|]. cbn [Counted.forLoop].
  assert (Ht : forall b, 0 < b -> negb (Qle_bool b (inject_Z 0)) = true).
  { intros b Hb. apply negb_true_iff, Qle_bool_false. exact Hb. }
  rewrite (Ht height Hh0).
  assert (Hrow : Counted.rowLoop (S fuel) (permutationTable Math_sin seed)
                   width scale octaves persistence lacunarity offsetX
                   offsetY 0 = None).
  { unfold Counted.rowLoop. destruct Hbig as [Hw | Ho].
    - apply forLoop_stuck; [exact Hw | lia].
    - cbn [Counted.forLoop]. rewrite (Ht width Hw0).
      unfold Counted.octaveLoop.
      rewrite forLoop_stuck by (exact Ho || lia). reflexivity. }
  rewrite Hrow. reflexivity.
Qed.

(** Every cell of the grid on doubles is a [Doubles.noiseCell] at counters
    below the bounds. *)
Lemma generateNoiseMap_cell_doubles (Math_sin : Q -> Q) (seed : Ieee.number)
    (width height scale octaves persistence lacunarity offsetX offsetY : Q)
    (row : list Ieee.number) (c : Ieee.number) :
  row ∈ Doubles.generateNoiseMap Math_sin width height seed scale octaves
          persistence lacunarity offsetX offsetY ->
  c ∈ row ->
  exists x y : nat,
    (x < Num.loop_count width)%nat /\ (y < Num.loop_count height)%nat /\
    c = Doubles.noiseCell (permutationTable Math_sin seed) scale octaves
          persistence lacunarity offsetX offsetY x y.
Proof.
  unfold Doubles.generateNoiseMap. intros Hrow Hc.
  apply list_elem_of_fmap in Hrow. destruct Hrow as (y & -> & Hy).
  apply list_elem_of_fmap in Hc. destruct Hc as (x & -> & Hx).
  apply elem_of_seq in Hx, Hy. exists x, y. repeat split; (lia || reflexivity).
Qed.

Lemma Forall_cells (Math_sin : Q -> Q) (seed : Ieee.number)
    (width height scale octaves persistence lacunarity offsetX offsetY : Q)
    (P : Ieee.number -> Prop) :
  (forall x y : nat,
     (x < Num.loop_count width)%nat -> (y < Num.loop_count height)%nat ->
     P (Doubles.noiseCell (permutationTable Math_sin seed) scale octaves
          persistence lacunarity offsetX offsetY x y)) ->
  Forall (Forall P)
    (Doubles.generateNoiseMap Math_sin width height seed scale octaves
       persistence lacunarity offsetX offsetY).
Proof.
  intros H. apply Forall_forall. intros row Hrow.
  apply Forall_forall. intros c Hc.
  destruct (generateNoiseMap_cell_doubles _ _ _ _ _ _ _ _ _ _ _ _ Hrow Hc)
    as (x & y & Hx & Hy & ->).
  apply H; assumption.
Qed.

Lemma noiseCell_no_octave_doubles (p : list (option Z))
    (scale octaves persistence lacunarity offsetX offsetY : Q) (x y : nat) :
  octaves <= 0 ->
  Ieee.same
    (Doubles.noiseCell p scale octaves persistence lacunarity offsetX offsetY
       x y)
    (Ieee.Finite 0.5).
Proof.
  intros Ho. unfold Doubles.noiseCell.
  assert (Hn : Num.loop_count octaves = 0%nat).
  { unfold Num.loop_count.
    assert (H : (Qceiling octaves <= 0)%Z); [|lia].
    change 0%Z with (Qceiling 0). apply Qceiling_resp_le. exact Ho. }
  rewrite Hn. reflexivity.
Qed.

(** C4 (amended): [octaves] is not clamped.  For [octaves <= 0] the octave
    loop does not run and every cell is one half.  For [scale = 0] every
    octave samples the lattice point (0, 0): every cell is one half as long
    as the amplitude and the frequency stay finite, which factors of
    magnitude at most 2 and at most 1000 octaves guarantee, and [NaN] once
    zero is multiplied by an infinity, as from the third octave on when the
    square of the lacunarity or of the persistence overflows.  The one
    division of the function is by 2 and is always defined.  The loops end
    when width, height and octaves are at most [2^53], and the grid
    returned is the one described here; with more than [2^53] octaves and a
    grid that is not empty the octave counter stops advancing at [2^53] and
    the function never returns. *)
Theorem octaves_and_scale_edge_cases (Math_sin : Q -> Q) (seed : Ieee.number)
    (width height scale octaves persistence lacunarity offsetX offsetY : Q) :
  let grid :=
    Doubles.generateNoiseMap Math_sin width height seed scale octaves
      persistence lacunarity offsetX offsetY in
  let returned := fun fuel : nat =>
    Counted.generateNoiseMap Math_sin fuel width height seed scale octaves
      persistence lacunarity offsetX offsetY in
  (octaves <= 0 ->
   Forall (Forall (fun c => Ieee.same c (Ieee.Finite 0.5))) grid) /\
  (scale == 0 ->
   Forall (Forall (fun c => Ieee.same c (Ieee.Finite 0.5) \/ c = Ieee.NaN))
     grid) /\
  (scale == 0 -> Qabs persistence <= 2 -> Qabs lacunarity <= 2 ->
   octaves <= 1000 ->
   width <= inject_Z (2 ^ 53) -> height <= inject_Z (2 ^ 53) ->
   Ieee.inDoubleRange offsetX -> Ieee.inDoubleRange offsetY ->
   Forall (Forall (fun c => Ieee.same c (Ieee.Finite 0.5))) grid) /\
  (scale == 0 -> 2 < octaves ->
   Ieee.overflowBound <= lacunarity * lacunarity \/
   Ieee.overflowBound <= persistence * persistence ->
   Forall (Forall (fun c => c = Ieee.NaN)) grid) /\
  (forall x y : nat,
     let p := permutationTable Math_sin seed in
     Num.div
       (octaveLoop p scale persistence lacunarity offsetX offsetY
          (inject_Z (Z.of_nat x)) (inject_Z (Z.of_nat y))
          (Num.loop_count octaves) 1 1 0 + 1) 2 =
     Some (noiseCell p scale octaves persistence lacunarity offsetX offsetY
             x y)) /\
  (width <= inject_Z (2 ^ 53) -> height <= inject_Z (2 ^ 53) ->
   octaves <= inject_Z (2 ^ 53) ->
   exists fuel : nat,
     forall fuel' : nat, (fuel <= fuel')%nat -> returned fuel' = Some grid) /\
  (0 < width -> 0 < height -> inject_Z (2 ^ 53) < octaves ->
   forall fuel : nat, returned fuel = None).
Proof.
  cbv zeta. repeat apply conj.
  - intros Ho. apply Forall_cells. intros x y _ _.
    apply noiseCell_no_octave_doubles. exact Ho.
  - intros Hs. apply Forall_cells. intros x y _ _.
    apply noiseCell_zero_scale_doubles. exact Hs.
  - intros Hs Hp Hl Ho Hw Hh Hox Hoy. apply Forall_cells. intros x y Hx Hy.
    apply (noiseCell_zero_scale_finite _ width height); assumption.
  - intros Hs Ho Hl. apply Forall_cells. intros x y _ _.
    apply noiseCell_overflow_NaN; assumption.
  - intros x y. reflexivity.
  - intros Hw Hh Ho.
    exists (S (Num.loop_count width + Num.loop_count height +
               Num.loop_count octaves)).
    intros fuel' Hfuel. apply generateNoiseMap_returns; (assumption || lia).
  - intros Hw Hh Ho fuel. apply generateNoiseMap_never_returns; [exact Hh|].
    right. split; [exact Hw|]. right. exact Ho.
Qed.

Lemma octaves_and_scale_edge_cases_witness :
  (Forall (Forall (fun c => Ieee.same c (Ieee.Finite 0.5)))
     (Doubles.generateNoiseMap (fun s => s) 2 2 (Ieee.Finite 7) 0.25 0 0.5 2.0
        0 0)) /\
  (Forall (Forall (fun c => Ieee.same c (Ieee.Finite 0.5) \/ c = Ieee.NaN))
     (Doubles.generateNoiseMap (fun s => s) 2 2 (Ieee.Finite 7) 0 4 0.5 2.0
        0 0)) /\
  (Forall (Forall (fun c => Ieee.same c (Ieee.Finite 0.5)))
     (Doubles.generateNoiseMap (fun s => s) 2 2 (Ieee.Finite 7) 0 4 0.5 2.0
        0 0)) /\
  (Forall (Forall (fun c => c = Ieee.NaN))
     (Doubles.generateNoiseMap (fun s => s) 2 1 (Ieee.Finite 42) 0 3 0.5
        (inject_Z (10 ^ 200)) 0 0)) /\
  (exists fuel : nat,
     forall fuel' : nat, (fuel <= fuel')%nat ->
       Counted.generateNoiseMap (fun s => s) fuel' 2 2 (Ieee.Finite 7) 0 4 0.5
         2.0 0 0 =
       Some (Doubles.generateNoiseMap (fun s => s) 2 2 (Ieee.Finite 7) 0 4 0.5
               2.0 0 0)) /\
  (forall fuel : nat,
     Counted.generateNoiseMap (fun s => s) fuel 1 1 (Ieee.Finite 7) 0.25
       (inject_Z (2 ^ 53 + 2)) 0.5 2.0 0 0 = None).
Proof.
  repeat apply conj.
  - destruct (octaves_and_scale_edge_cases (fun s => s) (Ieee.Finite 7)
                2 2 0.25 0 0.5 2.0 0 0) as (H & _).
    apply H. intros E. discriminate E.
  - destruct (octaves_and_scale_edge_cases (fun s => s) (Ieee.Finite 7)
                2 2 0 4 0.5 2.0 0 0) as (_ & H & _).
    apply H. reflexivity.
  - destruct (octaves_and_scale_edge_cases (fun s => s) (Ieee.Finite 7)
                2 2 0 4 0.5 2.0 0 0) as (_ & _ & H & _).
    apply H; try reflexivity; intros E; discriminate E.
  - destruct (octaves_and_scale_edge_cases (fun s => s) (Ieee.Finite 42)
                2 1 0 3 0.5 (inject_Z (10 ^ 200)) 0 0) as (_ & _ & _ & H & _).
    apply H; [reflexivity | reflexivity |].
    left. vm_compute. intros E. discriminate E.
  - destruct (octaves_and_scale_edge_cases (fun s => s) (Ieee.Finite 7)
                2 2 0 4 0.5 2.0 0 0) as (_ & _ & _ & _ & _ & H & _).
    apply H; intros E; discriminate E.
  - destruct (octaves_and_scale_edge_cases (fun s => s) (Ieee.Finite 7)
                1 1 0.25 (inject_Z (2 ^ 53 + 2)) 0.5 2.0 0 0)
      as (_ & _ & _ & _ & _ & _ & H).
    apply H; reflexivity.
Defined.

(** ** Determinism *)

Section Determinism.

Variable Math_sin : Q -> Q.

(** [Math.sin] is a function of the number, not of the fraction chosen to
    write it. *)
Hypothesis Math_sin_proper : Proper (Qeq ==> Qeq) Math_sin.

Lemma seededRandom_proper : Proper (Qeq ==> Qeq) (seededRandom Math_sin).
Proof.
  intros s s' Hs. unfold seededRandom.
  assert (Ht : Math_sin s * 10000 == Math_sin s' * 10000)
    by (rewrite (Math_sin_proper s s' Hs); reflexivity).
  rewrite (floor_proper _ _ Ht), Ht. reflexivity.
Qed.

Lemma shuffleDraw_proper (seed seed' : Q) (i : Z) :
  seed == seed' ->
  shuffleDraw Math_sin (Ieee.Finite seed) i =
  shuffleDraw Math_sin (Ieee.Finite seed') i.
Proof.
  intros Hs. unfold shuffleDraw. f_equal. apply floor_proper.
  rewrite (seededRandom_proper (seed + inject_Z i) (seed' + inject_Z i))
    by (rewrite Hs; reflexivity).
  reflexivity.
Qed.

Lemma permutationTable_proper (seed seed' : Q) :
  seed == seed' ->
  permutationTable Math_sin (Ieee.Finite seed) =
  permutationTable Math_sin (Ieee.Finite seed').
Proof.
  intros Hs. unfold permutationTable, shuffled.
  assert (H : forall steps l,
             shuffleFrom Math_sin (Ieee.Finite seed) steps l =
             shuffleFrom Math_sin (Ieee.Finite seed') steps l).
  { induction steps as [|k IH]; intros l; [reflexivity|].
    cbn [shuffleFrom]. rewrite (shuffleDraw_proper seed seed' _ Hs).
    apply IH. }
  rewrite H. reflexivity.
Qed.

Lemma noiseCell_proper (p : list (option Z)) :
  Proper (Qeq ==> Qeq ==> Qeq ==> Qeq ==> Qeq ==> Qeq ==> eq ==> eq ==> Qeq)
    (noiseCell p).
Proof.
  intros scale scale' Hs oct oct' Ho pers pers' Hp lac lac' Hl
    ox ox' Hox oy oy' Hoy x x' <- y y' <-.
  unfold noiseCell, Num.loop_count. rewrite (Qceiling_comp _ _ Ho).
  rewrite (octaveLoop_proper p _ _ Hs _ _ Hp _ _ Hl _ _ Hox _ _ Hoy
             _ _ (reflexivity _) _ _ (reflexivity _) _ _ eq_refl
             1 1 (reflexivity _) 1 1 (reflexivity _) 0 0 (reflexivity _)).
  reflexivity.
Qed.

End Determinism.

Lemma Forall2_map_same {A B} (R : B -> B -> Prop) (f g : A -> B) (l : list A) :
  (forall a, R (f a) (g a)) -> Forall2 R (map f l) (map g l).
Proof.
  intros H. induction l as [|a l IH]; constructor; [apply H | exact IH].
Qed.

Lemma Forall2_map_both {A B C} (R : B -> C -> Prop) (f : A -> B)
    (g : A -> C) (l : list A) :
  (forall a, R (f a) (g a)) -> Forall2 R (map f l) (map g l).
Proof.
  intros H. induction l as [|a l IH]; constructor; [apply H | exact IH].
Qed.

(** The grid on doubles and the exact grid have the same shape, and every
    cell that is a finite double holds the exact grid's number. *)
Lemma generateNoiseMap_agrees (Math_sin : Q -> Q)
    (width height seed scale octaves persistence lacunarity offsetX offsetY : Q) :
  Forall2 (Forall2 (fun c q => forall v : Q, c = Ieee.Finite v -> v == q))
    (Doubles.generateNoiseMap Math_sin width height (Ieee.Finite seed) scale
       octaves persistence lacunarity offsetX offsetY)
    (generateNoiseMap Math_sin width height seed scale octaves persistence
       lacunarity offsetX offsetY).
Proof.
  unfold Doubles.generateNoiseMap, generateNoiseMap. cbv zeta.
  apply Forall2_map_both. intros y.
  apply Forall2_map_both. intros x v Hv.
  apply noiseCell_agrees. exact Hv.
Qed.

(** C9: [generateNoiseMap] is a function of the numbers it is given (and of
    nothing else): two calls whose arguments are the same numbers return
    grids of the same shape that hold the same numbers cell for cell. *)
Theorem generateNoiseMap_deterministic (Math_sin : Q -> Q)
    (width height seed scale octaves persistence lacunarity offsetX offsetY : Q)
    (width' height' seed' scale' octaves' persistence' lacunarity'
     offsetX' offsetY' : Q) :
  Proper (Qeq ==> Qeq) Math_sin ->
  width == width' -> height == height' -> seed == seed' ->
  scale == scale' -> octaves == octaves' -> persistence == persistence' ->
  lacunarity == lacunarity' -> offsetX == offsetX' -> offsetY == offsetY' ->
  sameGrid
    (generateNoiseMap Math_sin width height seed scale octaves persistence
       lacunarity offsetX offsetY)
    (generateNoiseMap Math_sin width' height' seed' scale' octaves'
       persistence' lacunarity' offsetX' offsetY').
Proof.
  intros Hsin Hw Hh Hseed Hs Ho Hp Hl Hox Hoy.
  unfold sameGrid, generateNoiseMap, Num.loop_count.
  rewrite (Qceiling_comp _ _ Hw), (Qceiling_comp _ _ Hh).
  rewrite (permutationTable_proper Math_sin Hsin seed seed' Hseed).
  apply Forall2_map_same. intros y.
  apply Forall2_map_same. intros x.
  apply noiseCell_proper; (assumption || reflexivity).
Qed.

Lemma generateNoiseMap_deterministic_witness :
  sameGrid
    (generateNoiseMap (fun s => s) 2 2 7 0.25 2 0.5 2.0 0 0)
    (generateNoiseMap (fun s => s) (4#2) (6#3) (14#2) (2#8) (2#1) (3#6) (4#2)
       (0#5) (0#2)).
Proof.
  apply (generateNoiseMap_deterministic (fun s => s)).
  - intros a b Hab. exact Hab.
  - reflexivity.
  - reflexivity.
  - reflexivity.
  - reflexivity.
  - reflexivity.
  - reflexivity.
  - reflexivity.
  - reflexivity.
  - reflexivity.
Defined.

(** C5 (as stated, refuted): "for any seed" fails for a seed that is not
    finite.  With the seed [NaN] the first 256 entries of the table hold
    [undefined] at index 255, so they are not a rearrangement of 0..255. *)
Lemma permutation_fails_for_nan_seed :
  ~ (forall (Math_sin : Q -> Q) (seed : Ieee.number),
       take 256 (permutationTable Math_sin seed) ≡ₚ
       map (fun i => Some (Z.of_nat i)) (seq 0 256)).
Proof.
  intros H. specialize (H (fun _ => 0) Ieee.NaN).
  assert (Hin : None ∈ take 256 (permutationTable (fun _ => 0) Ieee.NaN)).
  { apply (list_elem_of_lookup_2 _ 255%nat). vm_compute. reflexivity. }
  rewrite H in Hin. apply list_elem_of_fmap in Hin.
  destruct Hin as (k & Hk & _). discriminate Hk.
Qed.

(** C5 (amended): for every finite seed the first 256 entries of the table
    are a rearrangement of 0..255 (so none is a hole), the table has 512
    entries, and the index drawn at each step [i >= 1] of the shuffle lies
    between 0 and [i], so every swap stays inside the array.  For a seed
    that is not finite ([NaN] or an infinity) the construction does not fail
    either, but every draw is [NaN] and the table is the same for all such
    seeds: 0, 2, 3, ..., 255 and [undefined], twice; the value 1 is missing,
    so the first 256 entries are not a permutation. *)
Theorem permutation_table_valid (Math_sin : Q -> Q) :
  (forall seed : Q,
     take 256 (permutationTable Math_sin (Ieee.Finite seed)) ≡ₚ
       map (fun i => Some (Z.of_nat i)) (seq 0 256) /\
     length (permutationTable Math_sin (Ieee.Finite seed)) = 512%nat /\
     forall k : nat,
       exists j : Z,
         shuffleDraw Math_sin (Ieee.Finite seed) (Z.of_nat (S k)) = Some j /\
         (0 <= j <= Z.of_nat (S k))%Z) /\
  (forall seed : Ieee.number,
     Ieee.isFinite seed = false ->
     (forall i : Z, shuffleDraw Math_sin seed i = None) /\
     take 256 (permutationTable Math_sin seed) =
       Some 0%Z :: map (fun i => Some (Z.of_nat i + 1)%Z) (seq 1 254) ++ [None] /\
     length (permutationTable Math_sin seed) = 512%nat).
Proof.
  split.
  - intros seed. split; [|split].
    + unfold permutationTable.
      rewrite take_app_length' by (symmetry; apply shuffled_length).
      apply shuffled_perm.
    + unfold permutationTable. rewrite length_app, shuffled_length.
      reflexivity.
    + intros k. apply shuffleDraw_range. lia.
  - intros seed Hseed. split; [|split].
    + intros i. destruct seed as [q|s|]; [discriminate Hseed | |];
        reflexivity.
    + unfold permutationTable.
      rewrite (shuffled_not_finite Math_sin seed Hseed). reflexivity.
    + unfold permutationTable.
      rewrite (shuffled_not_finite Math_sin seed Hseed). reflexivity.
Qed.

Lemma permutation_table_valid_witness :
  take 256 (permutationTable (fun s => s) (Ieee.Infinity true)) =
  Some 0%Z :: map (fun i => Some (Z.of_nat i + 1)%Z) (seq 1 254) ++ [None].
Proof.
  destruct (permutation_table_valid (fun s => s)) as [_ H].
  destruct (H (Ieee.Infinity true)) as (_ & Htable & _);
    [reflexivity | exact Htable].
Defined.

(** ** Biome classification *)

Lemma inRange_spec (v : Q) (range : Q * Q) :
  inRange (Some v) range = true <-> contains range v.
Proof.
  unfold inRange, contains, geq, leq.
  rewrite andb_true_iff, !Qle_bool_true. reflexivity.
Qed.

(** The filter predicate is the design note's notion of a matching rule. *)
Lemma isViable_spec (temperature humidity height : Q) (rule : Biome) :
  isViable (Some temperature) (Some humidity) (Some height) rule = true <->
  matchesSample temperature humidity height rule.
Proof.
  unfold isViable, matchesSample.
  rewrite !andb_true_iff, !inRange_spec.
  destruct (heightRange rule) as [range|].
  - rewrite inRange_spec. tauto.
  - tauto.
Qed.

Lemma heavier_cases (prev current : Biome) :
  (weight current <= weight prev /\ heavier prev current = prev) \/
  (weight prev < weight current /\ heavier prev current = current).
Proof.
  unfold heavier. destruct (Qle_bool (weight current) (weight prev)) eqn:E.
  - left. split; [apply Qle_bool_true; exact E | reflexivity].
  - right. split; [apply Qle_bool_false; exact E | reflexivity].
Qed.

(** [reduce] returns the first of the heaviest elements. *)
Lemma reduce_heavier (first : Biome) (rest : list Biome) :
  exists before after : list Biome,
    first :: rest = before ++ fold_left heavier rest first :: after /\
    (forall r, In r before -> weight r < weight (fold_left heavier rest first)) /\
    (forall r, In r after -> weight r <= weight (fold_left heavier rest first)).
Proof.
  induction rest as [|current rest IH] using rev_ind.
  - exists [], []. split; [reflexivity|]. split; intros r [].
  - destruct IH as (before & after & Hsplit & Hbefore & Hafter).
    rewrite fold_left_app. cbn [fold_left].
    set (prev := fold_left heavier rest first) in *.
    destruct (heavier_cases prev current) as [[Hw ->]|[Hw ->]].
    + exists before, (after ++ [current]). split; [|split].
      * rewrite app_comm_cons, Hsplit, <- app_assoc. reflexivity.
      * exact Hbefore.
      * intros r Hr. apply in_app_or in Hr. destruct Hr as [Hr|[<-|[]]].
        -- apply Hafter. exact Hr.
        -- exact Hw.
    + exists (first :: rest), []. split; [|split].
      * reflexivity.
      * intros r Hr. rewrite Hsplit in Hr. apply in_app_or in Hr.
        destruct Hr as [Hr|[<-|Hr]].
        -- eapply Qlt_trans; [apply Hbefore; exact Hr | exact Hw].
        -- exact Hw.
        -- eapply Qle_lt_trans; [apply Hafter; exact Hr | exact Hw].
      * intros r [].
Qed.

(** An element of a filtered list splits the original list around it. *)
Lemma filter_split {A} (f : A -> bool) (l l1 l2 : list A) (b : A) :
  List.filter f l = l1 ++ b :: l2 ->
  exists k1 k2 : list A,
    l = k1 ++ b :: k2 /\ List.filter f k1 = l1 /\ List.filter f k2 = l2.
Proof.
  revert l1. induction l as [|a l IH]; intros l1 H.
  - destruct l1; discriminate H.
  - cbn [List.filter] in H. destruct (f a) eqn:Ea.
    + destruct l1 as [|c l1]; cbn [app] in H; injection H as -> H.
      * exists [], l. cbn [List.filter app]. auto.
      * destruct (IH l1 H) as (k1 & k2 & -> & H1 & H2).
        exists (c :: k1), k2. cbn [List.filter app]. rewrite Ea, H1. auto.
    + destruct (IH l1 H) as (k1 & k2 & -> & H1 & H2).
      exists (a :: k1), k2. cbn [List.filter app]. rewrite Ea. auto.
Qed.

Lemma viableBiomes_In (rules : list Biome) (temperature humidity height : Q)
    (r : Biome) :
  In r (viableBiomes rules (Some temperature) (Some humidity) (Some height)) <->
  In r rules /\ matchesSample temperature humidity height r.
Proof.
  unfold viableBiomes. rewrite filter_In, isViable_spec. reflexivity.
Qed.

(** Whatever the sample, a non-empty table yields one of its rules. *)
Lemma selectBiome_total (first : Biome) (rest : list Biome)
    (temp humid height : option Q) :
  exists b : Biome,
    selectBiome (first :: rest) temp humid height = Some b /\
    In b (first :: rest).
Proof.
  unfold selectBiome.
  destruct (viableBiomes (first :: rest) temp humid height)
    as [|v vs] eqn:Ev.
  - exists first. split; [reflexivity | left; reflexivity].
  - destruct (reduce_heavier v vs) as (before & after & Hsplit & _).
    eexists. split; [reflexivity|].
    assert (Hin : In (fold_left heavier vs v) (v :: vs)).
    { rewrite Hsplit. apply in_or_app. right. left. reflexivity. }
    rewrite <- Ev in Hin. unfold viableBiomes in Hin.
    apply filter_In in Hin. tauto.
Qed.

(** A low, temperate, moist sample is ocean (weight 100 beats Grassland's
    2); the same sample higher up is grassland; a sample no rule covers
    falls back to the first rule. *)
Example selectBiome_ocean :
  name <$> selectBiome biomes (Some 0.3) (Some 0.5) (Some 0.1) = Some "Ocean"%string.
Proof. reflexivity. Qed.

Example selectBiome_grassland :
  name <$> selectBiome biomes (Some 0.3) (Some 0.5) (Some 0.5) =
  Some "Grassland"%string.
Proof. reflexivity. Qed.

Example selectBiome_default :
  name <$> selectBiome biomes (Some 0.1) (Some 0.1) (Some 0.5) =
  Some "Grassland"%string.
Proof. reflexivity. Qed.

(** C2: when some rule matches the sample, the selected rule matches it, no
    matching rule is heavier, and every matching rule placed before it in
    the table is strictly lighter: the selection is the earliest of the
    heaviest matching rules.  Matching means that the temperature and
    humidity ranges contain the sample, bounds included, and so does the
    height range of a rule that has one. *)
Theorem selectBiome_heaviest_earliest (rules : list Biome)
    (temperature humidity height : Q) :
  (exists r, In r rules /\ matchesSample temperature humidity height r) ->
  exists (b : Biome) (before after : list Biome),
    selectBiome rules (Some temperature) (Some humidity) (Some height) = Some b /\
    rules = before ++ b :: after /\
    matchesSample temperature humidity height b /\
    (forall r, In r before -> matchesSample temperature humidity height r ->
               weight r < weight b) /\
    (forall r, In r after -> matchesSample temperature humidity height r ->
               weight r <= weight b).
Proof.
  intros (r0 & Hr0). apply viableBiomes_In in Hr0.
  unfold selectBiome.
  destruct (viableBiomes rules (Some temperature) (Some humidity) (Some height))
    as [|v vs] eqn:Ev; [destruct Hr0|].
  destruct (reduce_heavier v vs) as (vbefore & vafter & Hsplit & Hlt & Hle).
  set (b := fold_left heavier vs v) in *.
  rewrite Hsplit in Ev. unfold viableBiomes in Ev.
  destruct (filter_split _ _ _ _ _ Ev) as (before & after & -> & Hb & Ha).
  exists b, before, after. split; [reflexivity|]. split; [reflexivity|].
  split; [|split].
  - assert (Hin : In b (vbefore ++ b :: vafter))
      by (apply in_or_app; right; left; reflexivity).
    rewrite <- Ev in Hin. apply filter_In in Hin.
    apply isViable_spec. tauto.
  - intros r Hr Hm. apply Hlt. rewrite <- Hb. apply filter_In.
    split; [exact Hr | apply isViable_spec; exact Hm].
  - intros r Hr Hm. apply Hle. rewrite <- Ha. apply filter_In.
    split; [exact Hr | apply isViable_spec; exact Hm].
Qed.

Lemma selectBiome_heaviest_earliest_witness :
  exists (b : Biome) (before after : list Biome),
    selectBiome biomes (Some 0.3) (Some 0.5) (Some 0.1) = Some b /\
    biomes = before ++ b :: after /\
    matchesSample 0.3 0.5 0.1 b /\
    (forall r, In r before -> matchesSample 0.3 0.5 0.1 r ->
               weight r < weight b) /\
    (forall r, In r after -> matchesSample 0.3 0.5 0.1 r ->
               weight r <= weight b).
Proof.
  apply (selectBiome_heaviest_earliest biomes 0.3 0.5 0.1).
  exists (mkBiome "Grassland" (0.25, 0.5) (0.45, 0.6) None "#7CFC00" 2.0).
  split.
  - left. reflexivity.
  - unfold matchesSample, contains. cbn.
    repeat split; intros H; discriminate H.
Defined.

(** C3: on a non-empty table, when no rule matches the sample the first
    rule of the table is selected; and whether or not a rule matches,
    selection yields exactly one rule of the table, never an error. *)
Theorem selectBiome_fallback (first : Biome) (rest : list Biome)
    (temperature humidity height : Q) :
  ((forall r, In r (first :: rest) ->
              ~ matchesSample temperature humidity height r) ->
   selectBiome (first :: rest) (Some temperature) (Some humidity)
     (Some height) = Some first) /\
  (exists b : Biome,
     selectBiome (first :: rest) (Some temperature) (Some humidity)
       (Some height) = Some b /\
     In b (first :: rest)).
Proof.
  split; [|apply selectBiome_total].
  intros Hnone. unfold selectBiome.
  destruct (viableBiomes (first :: rest) (Some temperature) (Some humidity)
              (Some height)) as [|v vs] eqn:Ev; [reflexivity|].
  exfalso.
  assert (Hv : In v (viableBiomes (first :: rest) (Some temperature)
                       (Some humidity) (Some height)))
    by (rewrite Ev; left; reflexivity).
  apply viableBiomes_In in Hv. destruct Hv as [Hin Hm].
  exact (Hnone v Hin Hm).
Qed.

Lemma selectBiome_fallback_witness :
  selectBiome biomes (Some 0.1) (Some 0.1) (Some 0.5) =
  head biomes.
Proof.
  apply (selectBiome_fallback
           (mkBiome "Grassland" (0.25, 0.5) (0.45, 0.6) None "#7CFC00" 2.0)
           (tail biomes) 0.1 0.1 0.5).
  intros r Hr Hm. unfold matchesSample, contains in Hm.
  cbn in Hr.
  repeat (destruct Hr as [<-|Hr]; [cbn in Hm; lra|]).
  exact Hr.
Defined.

(** ** The consistency checker *)

(** The checker's four-way test is the design note's overlap of two ranges. *)
Lemma rangesOverlap_spec (r1 r2 : Q * Q) :
  rangesOverlap r1 r2 = true <-> overlaps r1 r2.
Proof.
  unfold rangesOverlap, overlaps, contains.
  rewrite !orb_true_iff, !andb_true_iff, !Qle_bool_true. tauto.
Qed.

Lemma checkBiomes_In (rules : list Biome) (i j : nat) :
  In (i, j) (checkBiomes rules) <->
  exists biome1 biome2 : Biome,
    (i < j)%nat /\ rules !! i = Some biome1 /\ rules !! j = Some biome2 /\
    overlaps (temperatureRange biome1) (temperatureRange biome2) /\
    overlaps (humidityRange biome1) (humidityRange biome2).
Proof.
  unfold checkBiomes. rewrite in_flat_map. split.
  - intros (i' & _ & Hin). apply in_flat_map in Hin.
    destruct Hin as (j' & Hj' & Hin). apply in_seq in Hj'.
    destruct (rules !! i') as [biome1|] eqn:E1; [|destruct Hin].
    destruct (rules !! j') as [biome2|] eqn:E2; [|destruct Hin].
    destruct (tempOverlap biome1 biome2 && humidOverlap biome1 biome2) eqn:E;
      [|destruct Hin].
    destruct Hin as [Hin|[]]. injection Hin as -> ->.
    apply andb_true_iff in E. destruct E as [Et Eh].
    exists biome1, biome2. rewrite <- !rangesOverlap_spec.
    repeat split; (assumption || lia).
  - intros (biome1 & biome2 & Hij & E1 & E2 & Ht & Hh).
    pose proof (lookup_lt_Some _ _ _ E1) as Hi.
    pose proof (lookup_lt_Some _ _ _ E2) as Hj.
    exists i. split; [apply in_seq; lia|].
    apply in_flat_map. exists j. split; [apply in_seq; lia|].
    rewrite E1, E2. unfold tempOverlap, humidOverlap.
    apply rangesOverlap_spec in Ht, Hh. rewrite Ht, Hh. left. reflexivity.
Qed.

(** The checker never looks at a height range. *)
Lemma checkBiomes_ignores_height (f : Biome -> option (Q * Q))
    (rules : list Biome) :
  checkBiomes (map (fun rule => setHeightRange (f rule) rule) rules) =
  checkBiomes rules.
Proof.
  unfold checkBiomes. rewrite length_map.
  apply flat_map_ext. intros i. apply flat_map_ext. intros j.
  rewrite !list_lookup_fmap.
  destruct (rules !! i) as [biome1|], (rules !! j) as [biome2|]; reflexivity.
Qed.

(** On the game's own table the checker warns about 18 pairs. *)
Example checkBiomes_table : length (checkBiomes biomes) = 18%nat.
Proof. reflexivity. Qed.

Example checkBiomes_log_sample :
  checkBiomesLog
    [ mkBiome "A" (0, 0.5) (0, 1) None "#000000" 1
    ; mkBiome "B" (0.3, 0.8) (0, 1) None "#ffffff" 1 ] =
  ["Biome overlap detected: A and B have overlapping temperature and humidity ranges, which may cause noisy terrain"%string].
Proof. reflexivity. Qed.

(** C8: the checker reports the pair of positions [(i, j)], [i < j], exactly
    when the temperature ranges of the two rules overlap and their humidity
    ranges overlap, where two ranges overlap when one contains an endpoint
    of the other, bounds included; replacing height ranges changes nothing;
    and two rules with temperature ranges [0, 0.5] and [0.3, 0.8] and
    humidity ranges [0, 1] are reported as exactly one pair. *)
Theorem checkBiomes_reports_overlaps :
  (forall (rules : list Biome) (i j : nat),
     In (i, j) (checkBiomes rules) <->
     exists biome1 biome2 : Biome,
       (i < j)%nat /\ rules !! i = Some biome1 /\ rules !! j = Some biome2 /\
       overlaps (temperatureRange biome1) (temperatureRange biome2) /\
       overlaps (humidityRange biome1) (humidityRange biome2)) /\
  (forall (f : Biome -> option (Q * Q)) (rules : list Biome),
     checkBiomes (map (fun rule => setHeightRange (f rule) rule) rules) =
     checkBiomes rules) /\
  (forall (name1 name2 color1 color2 : string) (weight1 weight2 : Q)
          (height1 height2 : option (Q * Q)),
     checkBiomes
       [ mkBiome name1 (0, 0.5) (0, 1) height1 color1 weight1
       ; mkBiome name2 (0.3, 0.8) (0, 1) height2 color2 weight2 ] =
     [(0%nat, 1%nat)]).
Proof.
  split; [exact checkBiomes_In|]. split; [exact checkBiomes_ignores_height|].
  intros. reflexivity.
Qed.

(** ** Loops that may throw *)

Lemma forEach_returns {A B} (body : A -> Completion B) (P : B -> Prop)
    (items : list A) :
  (forall a, In a items -> exists b, body a = Returned b /\ P b) ->
  exists bs : list B,
    forEach body items = Returned bs /\
    length bs = length items /\ Forall P bs.
Proof.
  induction items as [|a items IH]; intros H.
  - exists []. repeat split. constructor.
  - destruct (H a (or_introl eq_refl)) as (b & Hb & HP).
    destruct IH as (bs & Hbs & Hlen & Hall).
    { intros a' Ha'. apply H. right. exact Ha'. }
    exists (b :: bs). cbn [forEach]. rewrite Hb, Hbs. cbn.
    repeat split; [f_equal; exact Hlen | constructor; assumption].
Qed.

Lemma length_concat_uniform {A} (k : nat) (ls : list (list A)) :
  Forall (fun l => length l = k) ls ->
  length (concat ls) = (k * length ls)%nat.
Proof.
  induction 1 as [|l ls Hl _ IH]; cbn [concat length]; [lia|].
  rewrite length_app, IH, Hl. lia.
Qed.

(** ** The terrain mesh *)

Section MeshFacts.

Variable Math_sin : Q -> Q.
Variable three_Color : string -> Q * Q * Q.
Variable rules : list Biome.

Lemma loop_count_incl_negative (segments : Q) :
  segments < 0 -> Num.loop_count_incl segments = 0%nat.
Proof.
  intros H. unfold Num.loop_count_incl.
  assert (Hf : (Qfloor segments < 0)%Z) by (apply floor_lt; exact H).
  lia.
Qed.

(** Negative [segments]: no loop body runs and an empty mesh is returned. *)
Lemma generateTerrainMesh_negative_segments
    (size segments seed scale octaves persistence lacunarity amplitude
     offsetX offsetY tempModifier humidModifier : Q) :
  segments < 0 ->
  generateTerrainMesh Math_sin three_Color rules size segments seed scale
    octaves persistence lacunarity amplitude offsetX offsetY tempModifier
    humidModifier =
  Returned (mkTerrainMesh size segments 0 [] []).
Proof.
  intros H. unfold generateTerrainMesh, buildBiomeMap, planeVertexCount.
  rewrite (loop_count_incl_negative segments H).
  assert (Hf : (Qfloor segments < 0)%Z) by (apply floor_lt; exact H).
  unfold Num.floor.
  replace (Z.to_nat (Qfloor segments + 1)) with 0%nat by lia.
  reflexivity.
Qed.

(** [segments = 0]: the first climate index is [0 * 255 / 0], no row is
    selected and reading a cell of the missing row throws. *)
Lemma buildBiomeMap_zero_segments
    (noiseMap temperatureMap humidityMap : list (list Q)) :
  buildBiomeMap rules noiseMap temperatureMap humidityMap 0 = TypeError.
Proof. reflexivity. Qed.

(** The size is handed to the plane and read nowhere else. *)
Lemma generateTerrainMesh_any_size
    (size size' segments seed scale octaves persistence lacunarity amplitude
     offsetX offsetY tempModifier humidModifier : Q) :
  generateTerrainMesh Math_sin three_Color rules size' segments seed scale
    octaves persistence lacunarity amplitude offsetX offsetY tempModifier
    humidModifier =
  withPlaneSize size' <$>
    generateTerrainMesh Math_sin three_Color rules size segments seed scale
      octaves persistence lacunarity amplitude offsetX offsetY tempModifier
      humidModifier.
Proof.
  unfold generateTerrainMesh.
  destruct (buildBiomeMap _ _ _ _ _) as [biomeMap|]; [|reflexivity].
  cbn. destruct (forEach (elevationAt _ _ _) _) as [ys|]; [|reflexivity].
  cbn. destruct (buildColors _ _) as [cs|]; reflexivity.
Qed.

Lemma loop_count_incl_nat (n : nat) :
  Num.loop_count_incl (inject_Z (Z.of_nat n)) = S n.
Proof. unfold Num.loop_count_incl. rewrite Qfloor_Z. lia. Qed.

Lemma loop_count_succ_nat (n : nat) :
  Num.loop_count (inject_Z (Z.of_nat n) + 1) = S n.
Proof.
  unfold Num.loop_count.
  assert (H : inject_Z (Z.of_nat n) + 1 == inject_Z (Z.of_nat n + 1))
    by (rewrite inject_Z_plus; reflexivity).
  rewrite (Qceiling_comp _ _ H), Qceiling_Z. lia.
Qed.

Lemma planeVertexCount_nat (n : nat) :
  planeVertexCount (inject_Z (Z.of_nat n)) = (S n * S n)%nat.
Proof.
  unfold planeVertexCount, Num.floor. rewrite Qfloor_Z.
  replace (Z.to_nat (Z.of_nat n + 1)) with (S n) by lia. reflexivity.
Qed.

Lemma inject_nat_pos (n : nat) : (1 <= n)%nat -> 0 < inject_Z (Z.of_nat n).
Proof. intros H. rewrite <- (Zlt_Qlt 0). lia. Qed.

Lemma inject_nat_le (a b : nat) :
  (a <= b)%nat -> inject_Z (Z.of_nat a) <= inject_Z (Z.of_nat b).
Proof. intros H. rewrite <- Zle_Qle. lia. Qed.

Lemma nonzero_divisor (d : Q) : 0 < d -> Qeq_bool d 0 = false.
Proof.
  intros H. destruct (Qeq_bool d 0) eqn:E; [|reflexivity].
  apply Qeq_bool_eq in E. rewrite E in H. discriminate H.
Qed.

(** For a positive whole number of segments every vertex coordinate maps to
    one of the 256 rows (or columns) of the climate grids. *)
Lemma climateIndex_in_range (coord n : nat) :
  (1 <= n)%nat -> (coord <= n)%nat ->
  exists k : Z,
    climateIndex coord (inject_Z (Z.of_nat n)) = Some k /\ (0 <= k < 256)%Z.
Proof.
  intros Hn Hc. unfold climateIndex, Num.div.
  pose proof (inject_nat_pos n Hn) as Hpos.
  pose proof (inject_nat_le coord n Hc) as Hle.
  pose proof (inject_nat_le 0 coord ltac:(lia)) as H0.
  change (inject_Z (Z.of_nat 0)) with 0 in H0.
  rewrite (nonzero_divisor _ Hpos). cbn [fmap option_fmap option_map].
  eexists. split; [reflexivity|]. split.
  - apply floor_nonneg. apply Qle_shift_div_l; [exact Hpos|]. lra.
  - apply floor_lt. change (inject_Z 256) with 256.
    apply Qlt_shift_div_r; [exact Hpos|]. lra.
Qed.

Lemma rowAt_in_range (grid : list (list Q)) (k : Z) :
  (0 <= k < Z.of_nat (length grid))%Z ->
  exists row, rowAt grid (Some k) = Some row.
Proof.
  intros Hk. unfold rowAt. destruct (Z.leb_spec 0 k); [|lia].
  apply lookup_lt_is_Some_2. lia.
Qed.

Lemma climate_grid_length (seed offsetX offsetY modifier : Q) :
  length (applyModifier (baseTemperatureMap Math_sin seed offsetX offsetY)
            modifier) = 256%nat /\
  length (applyModifier (baseHumidityMap Math_sin seed offsetX offsetY)
            modifier) = 256%nat.
Proof.
  unfold applyModifier, baseTemperatureMap, baseHumidityMap.
  rewrite !length_map.
  destruct (generateNoiseMap_shape Math_sin 256 256 seed 0.01 4 0.5 2.0
              offsetX offsetY) as [-> _].
  split; reflexivity.
Qed.

Lemma biomeAt_returns (first : Biome) (rest : list Biome)
    (noiseMap temperatureMap humidityMap : list (list Q)) (n z x : nat) :
  (1 <= n)%nat -> (z <= n)%nat -> (x <= n)%nat ->
  length temperatureMap = 256%nat -> length humidityMap = 256%nat ->
  exists cell : option Biome,
    biomeAt (first :: rest) noiseMap temperatureMap humidityMap
      (inject_Z (Z.of_nat n)) z x = Returned cell /\
    is_Some cell.
Proof.
  intros Hn Hz Hx Ht Hh. unfold biomeAt.
  destruct (climateIndex_in_range z n Hn Hz) as (kz & -> & Hkz).
  destruct (rowAt_in_range temperatureMap kz ltac:(lia)) as (tempRow & ->).
  destruct (rowAt_in_range humidityMap kz ltac:(lia)) as (humidRow & ->).
  cbn. eexists. split; [reflexivity|].
  destruct (selectBiome_total first rest
              (cellAt tempRow (climateIndex x (inject_Z (Z.of_nat n))))
              (cellAt humidRow (climateIndex x (inject_Z (Z.of_nat n))))
              (heightAt noiseMap z x)) as (b & -> & _).
  eexists. reflexivity.
Qed.

Lemma buildBiomeMap_returns (first : Biome) (rest : list Biome)
    (noiseMap temperatureMap humidityMap : list (list Q)) (n : nat) :
  (1 <= n)%nat ->
  length temperatureMap = 256%nat -> length humidityMap = 256%nat ->
  exists biomeMap : list (list (option Biome)),
    buildBiomeMap (first :: rest) noiseMap temperatureMap humidityMap
      (inject_Z (Z.of_nat n)) = Returned biomeMap /\
    length biomeMap = S n /\
    Forall (fun row => length row = S n /\ Forall is_Some row) biomeMap.
Proof.
  intros Hn Ht Hh. unfold buildBiomeMap. rewrite loop_count_incl_nat.
  destruct (forEach_returns
              (fun z =>
                 forEach (biomeAt (first :: rest) noiseMap temperatureMap
                            humidityMap (inject_Z (Z.of_nat n)) z)
                         (seq 0 (S n)))
              (fun row => length row = S n /\ Forall is_Some row)
              (seq 0 (S n))) as (biomeMap & -> & Hlen & Hall).
  { intros z Hz. apply in_seq in Hz.
    destruct (forEach_returns
                (biomeAt (first :: rest) noiseMap temperatureMap humidityMap
                   (inject_Z (Z.of_nat n)) z)
                is_Some (seq 0 (S n))) as (row & -> & Hrow & Hsome).
    { intros x Hx. apply in_seq in Hx.
      apply biomeAt_returns; (assumption || lia). }
    exists row. rewrite length_seq in Hrow. auto. }
  exists biomeMap. rewrite length_seq in Hlen. auto.
Qed.

(** Every vertex index of the plane maps to a row of the height grid. *)
Lemma elevationAt_returns (noiseMap : list (list Q)) (n i : nat)
    (amplitude : Q) :
  length noiseMap = S n -> (i < S n * S n)%nat ->
  exists y : option Q,
    elevationAt noiseMap (inject_Z (Z.of_nat n)) amplitude i = Returned y.
Proof.
  intros Hlen Hi. unfold elevationAt, vertexRow, Num.div.
  pose proof (inject_nat_le 0 n ltac:(lia)) as Hn0.
  pose proof (inject_nat_le 0 i ltac:(lia)) as Hi0.
  change (inject_Z (Z.of_nat 0)) with 0 in Hn0, Hi0.
  assert (Hpos : 0 < inject_Z (Z.of_nat n) + 1) by lra.
  assert (Hlt : inject_Z (Z.of_nat i) <
                inject_Z (Z.of_nat (S n)) * (inject_Z (Z.of_nat n) + 1)).
  { assert (E : inject_Z (Z.of_nat (S n)) * (inject_Z (Z.of_nat n) + 1) ==
                inject_Z (Z.of_nat (S n * S n))).
    { rewrite Nat2Z.inj_mul, inject_Z_mult, Nat2Z.inj_succ.
      unfold Z.succ. rewrite inject_Z_plus. reflexivity. }
    rewrite E. rewrite <- Zlt_Qlt. lia. }
  rewrite (nonzero_divisor _ Hpos). cbn [fmap option_fmap option_map].
  destruct (rowAt_in_range noiseMap
              (Num.floor (inject_Z (Z.of_nat i) / (inject_Z (Z.of_nat n) + 1))))
    as (row & ->).
  { split.
    - apply floor_nonneg. apply Qle_shift_div_l; [exact Hpos|]. lra.
    - rewrite Hlen. apply floor_lt.
      apply Qlt_shift_div_r; [exact Hpos | exact Hlt]. }
  cbn. eexists. reflexivity.
Qed.

Lemma rowColors_returns (row : list (option Biome)) :
  Forall is_Some row ->
  exists cs : list Q,
    rowColors three_Color row = Returned cs /\
    length cs = (3 * length row)%nat.
Proof.
  intros Hrow. unfold rowColors.
  destruct (forEach_returns (colorAt three_Color)
              (fun pushed => length pushed = 3%nat) row)
    as (pushed & -> & Hlen & Hall).
  { intros cell Hcell. rewrite Forall_forall in Hrow.
    destruct (Hrow cell) as [biome ->]; [apply list_elem_of_In; exact Hcell|].
    eexists. split; reflexivity. }
  cbn. eexists. split; [reflexivity|].
  rewrite (length_concat_uniform 3 pushed Hall), Hlen. reflexivity.
Qed.

Lemma buildColors_returns (biomeMap : list (list (option Biome))) (m : nat) :
  Forall (fun row => length row = m /\ Forall is_Some row) biomeMap ->
  exists cs : list Q,
    buildColors three_Color biomeMap = Returned cs /\
    length cs = (3 * m * length biomeMap)%nat.
Proof.
  intros Hmap. unfold buildColors.
  destruct (forEach_returns (rowColors three_Color)
              (fun cs => length cs = (3 * m)%nat) biomeMap)
    as (rows & -> & Hlen & Hall).
  { intros row Hrow. rewrite Forall_forall in Hmap.
    destruct (Hmap row) as [Hm Hsome]; [apply list_elem_of_In; exact Hrow|].
    destruct (rowColors_returns row Hsome) as (cs & -> & Hcs).
    exists cs. split; [reflexivity|]. rewrite Hcs, Hm. reflexivity. }
  cbn. eexists. split; [reflexivity|].
  rewrite (length_concat_uniform (3 * m) rows Hall), Hlen. reflexivity.
Qed.

(** With a positive whole number [n] of segments and a non-empty table the
    builder returns a mesh of [(n + 1)²] vertices, as many elevations and
    three colour components per vertex. *)
Lemma generateTerrainMesh_counts (first : Biome) (rest : list Biome)
    (n : nat)
    (size seed scale octaves persistence lacunarity amplitude
     offsetX offsetY tempModifier humidModifier : Q) :
  (1 <= n)%nat ->
  exists mesh : TerrainMesh,
    generateTerrainMesh Math_sin three_Color (first :: rest) size
      (inject_Z (Z.of_nat n)) seed scale octaves persistence lacunarity
      amplitude offsetX offsetY tempModifier humidModifier = Returned mesh /\
    vertexCount mesh = ((n + 1) * (n + 1))%nat /\
    length (positionY mesh) = ((n + 1) * (n + 1))%nat /\
    length (colors mesh) = ((n + 1) * (n + 1) * 3)%nat.
Proof.
  intros Hn. unfold generateTerrainMesh.
  destruct (climate_grid_length seed offsetX offsetY tempModifier) as [Ht _].
  destruct (climate_grid_length seed offsetX offsetY humidModifier) as [_ Hh].
  set (noiseMap := generateNoiseMap Math_sin _ _ seed scale octaves
                     persistence lacunarity offsetX offsetY).
  destruct (buildBiomeMap_returns first rest noiseMap _ _ n Hn Ht Hh)
    as (biomeMap & -> & Hrows & Hcells).
  cbn.
  assert (Hnoise : length noiseMap = S n).
  { subst noiseMap.
    destruct (generateNoiseMap_shape Math_sin (inject_Z (Z.of_nat n) + 1)
                (inject_Z (Z.of_nat n) + 1) seed scale octaves persistence
                lacunarity offsetX offsetY) as [-> _].
    apply loop_count_succ_nat. }
  rewrite planeVertexCount_nat.
  destruct (forEach_returns
              (elevationAt noiseMap (inject_Z (Z.of_nat n)) amplitude)
              (fun _ => True) (seq 0 (S n * S n)))
    as (ys & -> & Hys & _).
  { intros i Hi. apply in_seq in Hi.
    destruct (elevationAt_returns noiseMap n i amplitude Hnoise) as (y & ->);
      [lia|].
    exists y. auto. }
  cbn.
  destruct (buildColors_returns biomeMap (S n) Hcells) as (cs & -> & Hcs).
  cbn. eexists. split; [reflexivity|]. cbn.
  rewrite length_seq in Hys. rewrite Hys, Hcs, Hrows.
  repeat split; lia.
Qed.

(** Four segments: 25 vertices and a colour buffer of 75 numbers. *)
Example generateTerrainMesh_four_segments
    (size seed scale octaves persistence lacunarity amplitude
     offsetX offsetY tempModifier humidModifier : Q) :
  exists mesh : TerrainMesh,
    generateTerrainMesh Math_sin three_Color biomes size 4 seed scale octaves
      persistence lacunarity amplitude offsetX offsetY tempModifier
      humidModifier = Returned mesh /\
    vertexCount mesh = 25%nat /\ length (colors mesh) = 75%nat.
Proof.
  destruct (generateTerrainMesh_counts
              (mkBiome "Grassland" (0.25, 0.5) (0.45, 0.6) None "#7CFC00" 2.0)
              (tail biomes) 4 size seed scale octaves persistence lacunarity
              amplitude offsetX offsetY tempModifier humidModifier
              ltac:(lia)) as (mesh & Hmesh & Hcount & _ & Hcolors).
  exists mesh. split; [exact Hmesh|]. split; assumption.
Qed.

(** The height grid has a row for every counter [z <= segments] of the biome
    loop and a cell for every counter [x <= segments]. *)
Lemma noiseMap_row
    (segments seed scale octaves persistence lacunarity offsetX offsetY : Q)
    (z x : nat) :
  (z < Num.loop_count_incl segments)%nat ->
  (x < Num.loop_count_incl segments)%nat ->
  is_Some
    (heightAt
       (generateNoiseMap Math_sin (segments + 1) (segments + 1) seed scale
          octaves persistence lacunarity offsetX offsetY) z x).
Proof.
  intros Hz Hx. apply loop_count_incl_spec in Hz, Hx.
  assert (Hz' : (z < Num.loop_count (segments + 1))%nat)
    by (apply loop_count_spec; lra).
  assert (Hx' : (x < Num.loop_count (segments + 1))%nat)
    by (apply loop_count_spec; lra).
  unfold heightAt, generateNoiseMap.
  rewrite list_lookup_fmap, lookup_seq_lt by exact Hz'. cbn.
  rewrite list_lookup_fmap, lookup_seq_lt by exact Hx'. cbn.
  eexists. reflexivity.
Qed.

End MeshFacts.

(** C7 (failing input): with [segments = 0] the builder returns no mesh at
    all.  The biome loop runs for the single vertex, computes the climate
    row index [0 * 255 / 0], finds no such row and throws on reading a cell
    of it, whatever the other arguments are. *)
Theorem generateTerrainMesh_zero_segments (Math_sin : Q -> Q)
    (three_Color : string -> Q * Q * Q) (rules : list Biome)
    (size seed scale octaves persistence lacunarity amplitude
     offsetX offsetY tempModifier humidModifier : Q) :
  generateTerrainMesh Math_sin three_Color rules size 0 seed scale octaves
    persistence lacunarity amplitude offsetX offsetY tempModifier
    humidModifier = TypeError.
Proof.
  unfold generateTerrainMesh. rewrite buildBiomeMap_zero_segments.
  reflexivity.
Qed.

(** C6 (as stated, refuted): a call with size -100 and -1 segments is not
    rejected; it returns a mesh. *)
Lemma negative_arguments_not_rejected :
  ~ (forall (Math_sin : Q -> Q) (three_Color : string -> Q * Q * Q)
       (rules : list Biome)
       (size segments seed scale octaves persistence lacunarity amplitude
        offsetX offsetY tempModifier humidModifier : Q),
       size < 0 \/ segments < 0 ->
       forall mesh : TerrainMesh,
         generateTerrainMesh Math_sin three_Color rules size segments seed
           scale octaves persistence lacunarity amplitude offsetX offsetY
           tempModifier humidModifier <> Returned mesh).
Proof.
  intros H.
  apply (H (fun s => s) (fun _ => (0, 0, 0)) biomes (-100) (-1) 42
           0.01 8 0.4 2.0 10 0 0 0.5 (-0.3)
           ltac:(left; reflexivity)
           (mkTerrainMesh (-100) (-1) 0 [] [])).
  apply generateTerrainMesh_negative_segments. reflexivity.
Qed.

(** C6 (amended): the builder validates neither argument and reports no
    configuration error.  With negative [segments] it returns a mesh without
    vertices, elevations or colours, whatever the size; with a positive whole
    number of segments and a non-empty table it returns a mesh for every
    size, negative sizes included; and the size is only handed to the plane:
    changing it changes nothing else in the outcome. *)
Theorem generateTerrainMesh_unvalidated (Math_sin : Q -> Q)
    (three_Color : string -> Q * Q * Q) (rules : list Biome)
    (size seed scale octaves persistence lacunarity amplitude
     offsetX offsetY tempModifier humidModifier : Q) :
  (forall segments : Q,
     segments < 0 ->
     generateTerrainMesh Math_sin three_Color rules size segments seed scale
       octaves persistence lacunarity amplitude offsetX offsetY tempModifier
       humidModifier = Returned (mkTerrainMesh size segments 0 [] [])) /\
  (forall n : nat,
     (1 <= n)%nat -> rules <> [] ->
     exists mesh : TerrainMesh,
       generateTerrainMesh Math_sin three_Color rules size
         (inject_Z (Z.of_nat n)) seed scale octaves persistence lacunarity
         amplitude offsetX offsetY tempModifier humidModifier =
       Returned mesh /\ planeSize mesh = size) /\
  (forall size' segments : Q,
     generateTerrainMesh Math_sin three_Color rules size' segments seed scale
       octaves persistence lacunarity amplitude offsetX offsetY tempModifier
       humidModifier =
     withPlaneSize size' <$>
       generateTerrainMesh Math_sin three_Color rules size segments seed
         scale octaves persistence lacunarity amplitude offsetX offsetY
         tempModifier humidModifier).
Proof.
  split; [|split].
  - intros segments H. apply generateTerrainMesh_negative_segments. exact H.
  - intros n Hn Hrules. destruct rules as [|first rest]; [congruence|].
    destruct (generateTerrainMesh_counts Math_sin three_Color first rest n
                size seed scale octaves persistence lacunarity amplitude
                offsetX offsetY tempModifier humidModifier Hn)
      as (mesh & Hmesh & _).
    exists mesh. split; [exact Hmesh|].
    pose proof (generateTerrainMesh_any_size Math_sin three_Color
                  (first :: rest) size size (inject_Z (Z.of_nat n)) seed
                  scale octaves persistence lacunarity amplitude offsetX
                  offsetY tempModifier humidModifier) as Hsize.
    rewrite Hmesh in Hsize. cbn in Hsize. injection Hsize as ->.
    reflexivity.
  - intros size' segments. apply generateTerrainMesh_any_size.
Qed.

Lemma generateTerrainMesh_unvalidated_witness :
  generateTerrainMesh (fun s => s) (fun _ => (0, 0, 0)) biomes (-100) (-1) 42
    0.01 8 0.4 2.0 10 0 0 0.5 (-0.3) =
  Returned (mkTerrainMesh (-100) (-1) 0 [] []) /\
  exists mesh : TerrainMesh,
    generateTerrainMesh (fun s => s) (fun _ => (0, 0, 0)) biomes (-100)
      (inject_Z (Z.of_nat 4)) 42 0.01 8 0.4 2.0 10 0 0 0.5 (-0.3) =
    Returned mesh /\ planeSize mesh = -100.
Proof.
  destruct (generateTerrainMesh_unvalidated (fun s => s) (fun _ => (0, 0, 0))
              biomes (-100) 42 0.01 8 0.4 2.0 10 0 0 0.5 (-0.3))
    as (Hnegative & Hpositive & _).
  split.
  - apply Hnegative. reflexivity.
  - apply Hpositive.
    + apply le_S, le_S, le_S, le_n.
    + discriminate.
Defined.

(** C10: the temperature grid and the humidity grid are both the grid
    [generateNoiseMap(256, 256, seed, 0.01, 4, 0.5, 2.0, offsetX, offsetY)];
    before the modifiers are applied they are equal cell for cell, and they
    stay equal when the two modifiers are the same. *)
Theorem climate_grids_start_equal (Math_sin : Q -> Q)
    (seed offsetX offsetY : Q) :
  baseTemperatureMap Math_sin seed offsetX offsetY =
    generateNoiseMap Math_sin 256 256 seed 0.01 4 0.5 2.0 offsetX offsetY /\
  baseHumidityMap Math_sin seed offsetX offsetY =
    generateNoiseMap Math_sin 256 256 seed 0.01 4 0.5 2.0 offsetX offsetY /\
  (forall z x : nat,
     baseTemperatureMap Math_sin seed offsetX offsetY !! z ≫= (fun row => row !! x) =
     baseHumidityMap Math_sin seed offsetX offsetY !! z ≫= (fun row => row !! x)) /\
  (forall modifier : Q,
     applyModifier (baseTemperatureMap Math_sin seed offsetX offsetY) modifier =
     applyModifier (baseHumidityMap Math_sin seed offsetX offsetY) modifier).
Proof.
  repeat split.
Qed.

(** * Further properties of the noise functions *)

(** The smoothing polynomial is symmetric about one half. *)
Lemma fade_symmetry (t : Q) : fade (1 - t) == 1 - fade t.
Proof. unfold fade. ring. Qed.

Lemma square_nonneg (a : Q) : 0 <= a * a.
Proof.
  destruct (Qlt_le_dec a 0) as [H|H].
  - assert (E : a * a == (- a) * (- a)) by ring.
    rewrite E. apply Qmult_le_0_compat; lra.
  - apply Qmult_le_0_compat; exact H.
Qed.

Lemma fade_nonneg (t : Q) : 0 <= t -> 0 <= fade t.
Proof.
  intros Ht. unfold fade.
  assert (Hq : 0 <= t * (t * 6 - 15) + 10).
  { assert (E : t * (t * 6 - 15) + 10 ==
                6 * ((t - (5#4)) * (t - (5#4))) + (5#8)) by ring.
    rewrite E. pose proof (square_nonneg (t - (5#4))) as Hs. lra. }
  repeat apply Qmult_le_0_compat; assumption.
Qed.

Lemma fade_range (t : Q) : 0 <= t <= 1 -> 0 <= fade t <= 1.
Proof.
  intros [H0 H1]. split; [apply fade_nonneg; exact H0|].
  pose proof (fade_nonneg (1 - t) ltac:(lra)) as H.
  rewrite fade_symmetry in H. lra.
Qed.

Lemma gradBits_bound (h : Z) (x y a b : Q) :
  (0 <= h < 4)%Z -> - a <= x <= a -> - b <= y <= b ->
  - (a + b) <= gradBits h x y <= a + b.
Proof.
  intros Hh Hx Hy.
  assert (Hcases : h = 0%Z \/ h = 1%Z \/ h = 2%Z \/ h = 3%Z) by lia.
  destruct Hcases as [-> | [-> | [-> | ->]]]; unfold gradBits; simpl; lra.
Qed.

Lemma lerp_mono (t a a' b b' : Q) :
  0 <= t <= 1 -> a <= a' -> b <= b' -> lerp t a b <= lerp t a' b'.
Proof.
  intros [Ht0 Ht1] Ha Hb. unfold lerp.
  assert (H1 : 0 <= (1 - t) * (a' - a)) by (apply Qmult_le_0_compat; lra).
  assert (H2 : 0 <= t * (b' - b)) by (apply Qmult_le_0_compat; lra).
  lra.
Qed.

(** Near a lattice line the smoothing weight favours the nearer corner
    enough to keep the interpolated distance at most one half. *)
Lemma half_balance (x : Q) :
  0 <= x <= 1 -> x + fade x * (1 - 2 * x) <= 1 # 2.
Proof.
  intros [H0 H1].
  assert (E : (1 # 2) - (x + fade x * (1 - 2 * x)) ==
              2 * (((1 # 2) - x) * ((1 # 2) - x)) *
              (6 * ((x * (1 - x)) * (x * (1 - x))) + 2 * (x * (1 - x)) + 1))
    by (unfold fade; ring).
  assert (Hs : 0 <= ((1 # 2) - x) * ((1 # 2) - x)) by apply square_nonneg.
  assert (Hp : 0 <= x * (1 - x)) by (apply Qmult_le_0_compat; lra).
  assert (Hpp : 0 <= (x * (1 - x)) * (x * (1 - x))) by apply square_nonneg.
  assert (Hprod : 0 <= 2 * (((1 # 2) - x) * ((1 # 2) - x)) *
                       (6 * ((x * (1 - x)) * (x * (1 - x))) +
                        2 * (x * (1 - x)) + 1)).
  { apply Qmult_le_0_compat; [|lra]. apply Qmult_le_0_compat; [lra|exact Hs]. }
  rewrite <- E in Hprod. lra.
Qed.

Lemma blend_bound (h00 h10 h01 h11 : Z) (x y : Q) :
  (0 <= h00 < 4)%Z -> (0 <= h10 < 4)%Z ->
  (0 <= h01 < 4)%Z -> (0 <= h11 < 4)%Z ->
  0 <= x <= 1 -> 0 <= y <= 1 ->
  - (1) <= blend h00 h10 h01 h11 x y <= 1.
Proof.
  intros H00 H10 H01 H11 Hx Hy. unfold blend. cbv zeta.
  pose proof (fade_range x Hx) as Hu.
  pose proof (fade_range y Hy) as Hv.
  pose proof (gradBits_bound h00 x y x y H00 ltac:(lra) ltac:(lra)) as G00.
  pose proof (gradBits_bound h10 (x - 1) y (1 - x) y H10 ltac:(lra) ltac:(lra))
    as G10.
  pose proof (gradBits_bound h01 x (y - 1) x (1 - y) H01 ltac:(lra) ltac:(lra))
    as G01.
  pose proof (gradBits_bound h11 (x - 1) (y - 1) (1 - x) (1 - y) H11
                ltac:(lra) ltac:(lra)) as G11.
  pose proof (half_balance x Hx) as Bx.
  pose proof (half_balance y Hy) as By.
  set (u := fade x) in *. set (v := fade y) in *.
  assert (Eup : lerp v (lerp u (x + y) (1 - x + y))
                  (lerp u (x + (1 - y)) (1 - x + (1 - y))) ==
                (x + u * (1 - 2 * x)) + (y + v * (1 - 2 * y)))
    by (unfold lerp; ring).
  assert (Elo : lerp v (lerp u (- (x + y)) (- (1 - x + y)))
                  (lerp u (- (x + (1 - y))) (- (1 - x + (1 - y)))) ==
                - ((x + u * (1 - 2 * x)) + (y + v * (1 - 2 * y))))
    by (unfold lerp; ring).
  assert (Hlow :
    lerp v (lerp u (- (x + y)) (- (1 - x + y)))
      (lerp u (- (x + (1 - y))) (- (1 - x + (1 - y)))) <=
    lerp v (lerp u (gradBits h00 x y) (gradBits h10 (x - 1) y))
      (lerp u (gradBits h01 x (y - 1)) (gradBits h11 (x - 1) (y - 1)))).
  { apply lerp_mono; [exact Hv | |]; apply lerp_mono;
      (exact Hu || apply G00 || apply G10 || apply G01 || apply G11). }
  assert (Hhigh :
    lerp v (lerp u (gradBits h00 x y) (gradBits h10 (x - 1) y))
      (lerp u (gradBits h01 x (y - 1)) (gradBits h11 (x - 1) (y - 1))) <=
    lerp v (lerp u (x + y) (1 - x + y))
      (lerp u (x + (1 - y)) (1 - x + (1 - y)))).
  { apply lerp_mono; [exact Hv | |]; apply lerp_mono;
      (exact Hu || apply G00 || apply G10 || apply G01 || apply G11). }
  rewrite Elo in Hlow. rewrite Eup in Hhigh. split; lra.
Qed.

Lemma noise_range (p : list (option Z)) (x y : Q) :
  - (1) <= noise p x y <= 1.
Proof.
  destruct (noise_is_blend p x y)
    as (h00 & h10 & h01 & h11 & H00 & H10 & H01 & H11 & ->).
  destruct (frac_range x) as [Hx0 Hx1]. destruct (frac_range y) as [Hy0 Hy1].
  apply blend_bound; try assumption; split; lra.
Qed.

(** X2: one sample of the noise function lies between -1 and 1, whatever the
    permutation table holds and wherever it is sampled. *)
Theorem noise_bounded (p : list (option Z)) (x y : Q) :
  - (1) <= noise p x y <= 1.
Proof.
  destruct (noise_is_blend p x y)
    as (h00 & h10 & h01 & h11 & H00 & H10 & H01 & H11 & ->).
  destruct (frac_range x) as [Hx0 Hx1]. destruct (frac_range y) as [Hy0 Hy1].
  apply blend_bound; try assumption; split; lra.
Qed.

(** X3: on every lattice point, that is at whole-number coordinates, the
    noise function is zero, whatever the permutation table holds. *)
Theorem noise_lattice_points (p : list (option Z)) (m n : Z) :
  noise p (inject_Z m) (inject_Z n) == 0.
Proof.
  apply Qeq_bool_iff.
  apply (noise_by_corners p _ _ 0 0 (fun c => Qeq_bool c 0)).
  - intros a b Hab. rewrite Hab. reflexivity.
  - unfold Num.floor. rewrite Qfloor_Z. ring.
  - unfold Num.floor. rewrite Qfloor_Z. ring.
  - vm_compute. reflexivity.
Qed.

Lemma Z_lt_of_inject (a b : Z) : inject_Z a < inject_Z b -> (a < b)%Z.
Proof. intros H. rewrite Zlt_Qlt. exact H. Qed.

(** Adding a whole number moves [Math.floor] by that number. *)
Lemma floor_add_int (x : Q) (k : Z) :
  Num.floor (x + inject_Z k) = (Num.floor x + k)%Z.
Proof.
  unfold Num.floor.
  pose proof (Qfloor_le x) as Ha. pose proof (Qlt_floor x) as Ha'.
  pose proof (Qfloor_le (x + inject_Z k)) as Hb.
  pose proof (Qlt_floor (x + inject_Z k)) as Hb'.
  rewrite inject_Z_plus in Ha', Hb'. change (inject_Z 1) with 1 in Ha', Hb'.
  assert (H1 : (Qfloor (x + inject_Z k) < Qfloor x + k + 1)%Z).
  { apply Z_lt_of_inject. rewrite !inject_Z_plus.
    change (inject_Z 1) with 1. lra. }
  assert (H2 : (Qfloor x + k < Qfloor (x + inject_Z k) + 1)%Z).
  { apply Z_lt_of_inject. rewrite !inject_Z_plus.
    change (inject_Z 1) with 1. lra. }
  lia.
Qed.

(** The octave loop moves the running sum by at most the total amplitude. *)
Lemma octaveLoop_bound (p : list (option Z))
    (scale persistence lacunarity offsetX offsetY x y : Q) (n : nat)
    (amplitude frequency noiseValue : Q) :
  Qabs (octaveLoop p scale persistence lacunarity offsetX offsetY x y n
          amplitude frequency noiseValue - noiseValue) <=
  Qabs amplitude * amplitudeSum (Qabs persistence) n.
Proof.
  revert amplitude frequency noiseValue.
  induction n as [|k IH]; intros amplitude frequency noiseValue.
  - cbn [octaveLoop amplitudeSum].
    assert (E : noiseValue - noiseValue == 0) by ring.
    rewrite E. change (Qabs 0) with 0. lra.
  - cbn [octaveLoop amplitudeSum].
    set (N := noise p ((x + offsetX) * scale * frequency)
                ((y + offsetY) * scale * frequency)).
    specialize (IH (amplitude * persistence) (frequency * lacunarity)
                  (noiseValue + N * amplitude)).
    set (R := octaveLoop p scale persistence lacunarity offsetX offsetY x y k
                (amplitude * persistence) (frequency * lacunarity)
                (noiseValue + N * amplitude)) in *.
    rewrite Qabs_Qmult in IH.
    assert (HN : Qabs N <= 1)
      by (apply Qabs_Qle_condition; apply noise_range).
    pose proof (Qabs_nonneg amplitude) as Hamp.
    assert (Hprod : Qabs (N * amplitude) <= Qabs amplitude).
    { rewrite Qabs_Qmult.
      rewrite <- (Qmult_1_l (Qabs amplitude)) at 2.
      apply Qmult_le_compat_r; assumption. }
    assert (Htri : Qabs (R - noiseValue) <=
                   Qabs (R - (noiseValue + N * amplitude)) +
                   Qabs (N * amplitude)).
    { assert (E : R - noiseValue ==
                  (R - (noiseValue + N * amplitude)) + N * amplitude) by ring.
      rewrite E. apply Qabs_triangle. }
    lra.
Qed.

Lemma amplitudeSum_nonneg (persistence : Q) (n : nat) :
  0 <= persistence -> 0 <= amplitudeSum persistence n.
Proof.
  intros Hp. induction n as [|k IH]; cbn [amplitudeSum]; [lra|].
  pose proof (Qmult_le_0_compat _ _ Hp IH). lra.
Qed.

Lemma noiseCell_bounds (p : list (option Z))
    (scale octaves persistence lacunarity offsetX offsetY : Q) (x y : nat) :
  let total := amplitudeSum (Qabs persistence) (Num.loop_count octaves) in
  (1 - total) / 2 <=
    noiseCell p scale octaves persistence lacunarity offsetX offsetY x y <=
  (1 + total) / 2.
Proof.
  cbv zeta. unfold noiseCell.
  pose proof (octaveLoop_bound p scale persistence lacunarity offsetX offsetY
                (inject_Z (Z.of_nat x)) (inject_Z (Z.of_nat y))
                (Num.loop_count octaves) 1 1 0) as H.
  set (V := octaveLoop p scale persistence lacunarity offsetX offsetY
              (inject_Z (Z.of_nat x)) (inject_Z (Z.of_nat y))
              (Num.loop_count octaves) 1 1 0) in *.
  set (total := amplitudeSum (Qabs persistence) (Num.loop_count octaves)) in *.
  change (Qabs 1) with 1 in H.
  assert (E : V - 0 == V) by ring. rewrite E in H.
  assert (H' : Qabs V <= total) by lra.
  apply Qabs_Qle_condition in H'. destruct H' as [Hlo Hhi].
  split.
  - apply Qle_shift_div_l; [reflexivity|].
    assert (E2 : (1 - total) / 2 * 2 == 1 - total) by field. rewrite E2. lra.
  - apply Qle_shift_div_r; [reflexivity|].
    assert (E2 : (1 + total) / 2 * 2 == 1 + total) by field. rewrite E2. lra.
Qed.

Lemma generateNoiseMap_cells_within (Math_sin : Q -> Q)
    (width height seed scale octaves persistence lacunarity offsetX offsetY : Q) :
  let total := amplitudeSum (Qabs persistence) (Num.loop_count octaves) in
  Forall (Forall (fun c => (1 - total) / 2 <= c <= (1 + total) / 2))
    (generateNoiseMap Math_sin width height seed scale octaves persistence
       lacunarity offsetX offsetY).
Proof.
  cbv zeta. apply Forall_forall. intros row Hrow.
  apply Forall_forall. intros c Hc.
  destruct (generateNoiseMap_cell _ _ _ _ _ _ _ _ _ _ _ _ Hrow Hc)
    as (x & y & ->).
  apply noiseCell_bounds.
Qed.

Lemma loop_count_at_most_one (octaves : Q) :
  octaves <= 1 -> (Num.loop_count octaves <= 1)%nat.
Proof.
  intros H. unfold Num.loop_count.
  assert (Hc : (Qceiling octaves <= 1)%Z).
  { change 1%Z with (Qceiling 1). apply Qceiling_resp_le. exact H. }
  lia.
Qed.

Lemma noiseCell_single_octave_finite (p : list (option Z))
    (width height scale octaves persistence lacunarity offsetX offsetY : Q)
    (x y : nat) :
  octaves <= 1 -> Qabs scale <= 1 ->
  width <= inject_Z (2 ^ 53) -> height <= inject_Z (2 ^ 53) ->
  Ieee.inDoubleRange offsetX -> Ieee.inDoubleRange offsetY ->
  (x < Num.loop_count width)%nat -> (y < Num.loop_count height)%nat ->
  Ieee.isFinite
    (Doubles.noiseCell p scale octaves persistence lacunarity offsetX offsetY
       x y) = true.
Proof.
  intros Ho Hs Hw Hh Hox Hoy Hx Hy.
  pose proof (coordinate_finite width offsetX x Hw Hx Hox) as Hcx.
  pose proof (coordinate_finite height offsetY y Hh Hy Hoy) as Hcy.
  unfold Doubles.noiseCell, Doubles.normalize.
  pose proof (loop_count_at_most_one octaves Ho) as Hn.
  destruct (Num.loop_count octaves) as [|[|k]]; [| |lia].
  - reflexivity.
  - cbn [Nat.iter nat_rect Doubles.octave Doubles.start Doubles.noiseValue
         Doubles.amplitude Doubles.frequency Ieee.add].
    set (cx := inject_Z (Z.of_nat x) + offsetX) in *.
    set (cy := inject_Z (Z.of_nat y) + offsetY) in *.
    rewrite (ofExact_small cx) by exact Hcx.
    rewrite (ofExact_small cy) by exact Hcy.
    cbn [Ieee.mul].
    assert (Hsx : Qabs (cx * scale) < Ieee.overflowBound).
    { pose proof (Qabs_mul_le cx scale (Qabs cx) 1 (Qle_refl _) Hs). lra. }
    assert (Hsy : Qabs (cy * scale) < Ieee.overflowBound).
    { pose proof (Qabs_mul_le cy scale (Qabs cy) 1 (Qle_refl _) Hs). lra. }
    rewrite (ofExact_small (cx * scale)) by exact Hsx.
    rewrite (ofExact_small (cy * scale)) by exact Hsy.
    cbn [Ieee.mul].
    assert (E1 : forall q, Qabs (q * 1) == Qabs q)
      by (intros q; rewrite Qmult_1_r; reflexivity).
    rewrite (ofExact_small (cx * scale * 1)) by (rewrite E1; exact Hsx).
    rewrite (ofExact_small (cy * scale * 1)) by (rewrite E1; exact Hsy).
    cbn [Doubles.noise Ieee.mul].
    set (N := noise p (cx * scale * 1) (cy * scale * 1)).
    assert (HN : Qabs N <= 1)
      by (apply Qabs_Qle_condition; apply noise_range).
    pose proof overflowBound_pos as Hb.
    rewrite (ofExact_small (N * 1)) by (rewrite E1; lra).
    cbn [Ieee.add].
    assert (E0 : Qabs (0 + N * 1) == Qabs N)
      by (rewrite Qplus_0_l, Qmult_1_r; reflexivity).
    rewrite (ofExact_small (0 + N * 1)) by (rewrite E0; lra).
    cbn [Ieee.add].
    assert (Hsum : Qabs (0 + N * 1 + 1) < Ieee.overflowBound).
    { pose proof (Qabs_triangle (0 + N * 1) 1) as Ht.
      rewrite E0 in Ht. change (Qabs 1) with 1 in Ht.
      assert (Hc : 3 < Ieee.overflowBound) by reflexivity. lra. }
    rewrite (ofExact_small _ Hsum). reflexivity.
Qed.

(** X5: every cell of the grid that is a finite number lies within half the
    total amplitude of one half: between [(1 - T) / 2] and [(1 + T) / 2],
    where [T = 1 + |persistence| + |persistence|² + ...] has one term per
    octave run.  (Cells that are [NaN] or an infinity, as overflow produces
    them, are outside the statement.) *)
Theorem generateNoiseMap_cell_bounds (Math_sin : Q -> Q) (seed : Ieee.number)
    (width height scale octaves persistence lacunarity offsetX offsetY : Q) :
  let total := amplitudeSum (Qabs persistence) (Num.loop_count octaves) in
  Forall (Forall (fun c =>
                    forall v : Q,
                      c = Ieee.Finite v ->
                      (1 - total) / 2 <= v <= (1 + total) / 2))
    (Doubles.generateNoiseMap Math_sin width height seed scale octaves
       persistence lacunarity offsetX offsetY).
Proof.
  cbv zeta. apply Forall_cells. intros x y _ _ v Hv.
  rewrite (noiseCell_agrees _ _ _ _ _ _ _ _ _ _ Hv).
  apply noiseCell_bounds.
Qed.

(** X6: with at most one octave every cell of the grid that is a finite
    number lies in [[0, 1]]; and every cell is a finite number when the
    scale is at most 1 in magnitude, the offsets are within the range of
    the doubles and width and height are at most [2^53]. *)
Theorem generateNoiseMap_single_octave_unit (Math_sin : Q -> Q)
    (seed : Ieee.number)
    (width height scale octaves persistence lacunarity offsetX offsetY : Q) :
  octaves <= 1 ->
  let grid :=
    Doubles.generateNoiseMap Math_sin width height seed scale octaves
      persistence lacunarity offsetX offsetY in
  Forall (Forall (fun c => forall v : Q, c = Ieee.Finite v -> 0 <= v <= 1))
    grid /\
  (Qabs scale <= 1 ->
   width <= inject_Z (2 ^ 53) -> height <= inject_Z (2 ^ 53) ->
   Ieee.inDoubleRange offsetX -> Ieee.inDoubleRange offsetY ->
   Forall (Forall (fun c => exists v : Q, c = Ieee.Finite v /\ 0 <= v <= 1))
     grid).
Proof.
  intros Ho. cbv zeta.
  assert (Hunit : forall (x y : nat) (v : Q),
            Doubles.noiseCell (permutationTable Math_sin seed) scale octaves
              persistence lacunarity offsetX offsetY x y = Ieee.Finite v ->
            0 <= v <= 1).
  { intros x y v Hv. rewrite (noiseCell_agrees _ _ _ _ _ _ _ _ _ _ Hv).
    pose proof (noiseCell_bounds (permutationTable Math_sin seed) scale
                  octaves persistence lacunarity offsetX offsetY x y) as H.
    cbv zeta in H.
    assert (Ht : 0 <= amplitudeSum (Qabs persistence) (Num.loop_count octaves)
                 <= 1).
    { pose proof (loop_count_at_most_one octaves Ho) as Hn.
      destruct (Num.loop_count octaves) as [|[|k]]; cbn [amplitudeSum];
        [lra | lra | lia]. }
    set (total := amplitudeSum (Qabs persistence) (Num.loop_count octaves))
      in *.
    assert (E1 : (1 - total) / 2 == (1 # 2) - total * (1 # 2)) by field.
    assert (E2 : (1 + total) / 2 == (1 # 2) + total * (1 # 2)) by field.
    rewrite E1, E2 in H. lra. }
  split.
  - apply Forall_cells. intros x y _ _ v Hv. exact (Hunit x y v Hv).
  - intros Hs Hw Hh Hox Hoy. apply Forall_cells. intros x y Hx Hy.
    pose proof (noiseCell_single_octave_finite (permutationTable Math_sin seed)
                  width height scale octaves persistence lacunarity offsetX
                  offsetY x y Ho Hs Hw Hh Hox Hoy Hx Hy) as Hfin.
    destruct (Doubles.noiseCell (permutationTable Math_sin seed) scale octaves
                persistence lacunarity offsetX offsetY x y) as [v|s|] eqn:E;
      try discriminate Hfin.
    exists v. split; [reflexivity|]. exact (Hunit x y v E).
Qed.

Lemma generateNoiseMap_single_octave_unit_witness :
  Forall (Forall (fun c => exists v : Q, c = Ieee.Finite v /\ 0 <= v <= 1))
    (Doubles.generateNoiseMap (fun s => s) 2 2 (Ieee.Finite 7) 0.25 1 0.5 2.0
       0 0).
Proof.
  destruct (generateNoiseMap_single_octave_unit (fun s => s) (Ieee.Finite 7)
              2 2 0.25 1 0.5 2.0 0 0) as [_ H].
  - apply Qle_refl.
  - apply H; intros E; discriminate E.
Defined.

Lemma land_255_range (a : Z) : (0 <= Z.land a 255 < 256)%Z.
Proof.
  change 255%Z with (Z.ones 8). rewrite Z.land_ones by lia.
  apply Z.mod_pos_bound. reflexivity.
Qed.

(** X7: for a finite seed, wherever [noise] is sampled its four reads of
    the doubled permutation table hit entries that hold a number: no read
    falls outside the 512 entries or on a hole.  For a seed that is not
    finite the entry at index 255 is [undefined]; in the lattice column
    [X = 255] the sum [p[X] + Y] is then [NaN] and the two corner hashes read
    through it are [undefined] (which [& 3] turns into 0). *)
Theorem noise_never_reads_undefined (Math_sin : Q -> Q) (seed : Ieee.number)
    (x y : Q) :
  let p := permutationTable Math_sin seed in
  let X := Z.land (Num.floor x) 255 in
  let Y := Z.land (Num.floor y) 255 in
  let a := (fun n => (n + Y)%Z) <$> Arr.get p X in
  let b := (fun n => (n + Y)%Z) <$> Arr.get p (X + 1) in
  (Ieee.isFinite seed = true ->
   is_Some (lookupAt p a) /\ is_Some (lookupAt p (Z.succ <$> a)) /\
   is_Some (lookupAt p b) /\ is_Some (lookupAt p (Z.succ <$> b))) /\
  (Ieee.isFinite seed = false -> X = 255%Z ->
   Arr.get p X = None /\
   lookupAt p a = None /\ lookupAt p (Z.succ <$> a) = None /\
   hashBits (lookupAt p a) = 0%Z /\ hashBits (lookupAt p (Z.succ <$> a)) = 0%Z).
Proof.
  cbv zeta. split.
  - intros Hseed. destruct seed as [q|s|]; try discriminate Hseed.
    apply noise_reads_defined; apply land_255_range.
  - intros Hseed ->.
    assert (Hhole : Arr.get (permutationTable Math_sin seed) 255 = None).
    { unfold permutationTable.
      rewrite (shuffled_not_finite Math_sin seed Hseed). reflexivity. }
    rewrite Hhole. repeat split; reflexivity.
Qed.

Lemma noise_never_reads_undefined_witness :
  (let p := permutationTable (fun s => s) (Ieee.Finite 7) in
   let X := Z.land (Num.floor 2.5) 255 in
   let Y := Z.land (Num.floor 3.5) 255 in
   let a := (fun n => (n + Y)%Z) <$> Arr.get p X in
   is_Some (lookupAt p a)) /\
  (let p := permutationTable (fun s => s) Ieee.NaN in
   let X := Z.land (Num.floor 255.5) 255 in
   let Y := Z.land (Num.floor 3.5) 255 in
   let a := (fun n => (n + Y)%Z) <$> Arr.get p X in
   lookupAt p a = None).
Proof.
  split.
  - destruct (noise_never_reads_undefined (fun s => s) (Ieee.Finite 7) 2.5 3.5)
      as [H _].
    destruct H as (H & _); [reflexivity | exact H].
  - destruct (noise_never_reads_undefined (fun s => s) Ieee.NaN 255.5 3.5)
      as [_ H].
    destruct H as (_ & H & _); [reflexivity | reflexivity | exact H].
Defined.

Lemma generateNoiseMap_lookup (Math_sin : Q -> Q)
    (width height seed scale octaves persistence lacunarity offsetX offsetY : Q)
    (y x : nat) :
  is_Some
    (heightAt
       (generateNoiseMap Math_sin width height seed scale octaves persistence
          lacunarity offsetX offsetY) y x) <->
  inject_Z (Z.of_nat y) < height /\ inject_Z (Z.of_nat x) < width.
Proof.
  rewrite <- !loop_count_spec. unfold heightAt, generateNoiseMap.
  rewrite list_lookup_fmap.
  destruct (decide (y < Num.loop_count height)%nat) as [Hy|Hy].
  - rewrite lookup_seq_lt by exact Hy. cbn.
    rewrite list_lookup_fmap.
    destruct (decide (x < Num.loop_count width)%nat) as [Hx|Hx].
    + rewrite lookup_seq_lt by exact Hx. cbn. split; [auto|].
      intros _. eexists. reflexivity.
    + rewrite lookup_seq_ge by lia. cbn. split.
      * intros [c Hc]. discriminate Hc.
      * intros [_ H]. contradiction.
  - rewrite lookup_seq_ge by lia. cbn. split.
    + intros [c Hc]. discriminate Hc.
    + intros [H _]. contradiction.
Qed.


(** X8: the grid holds a cell at row [y], column [x] exactly when
    [y < height] and [x < width]; in particular it is empty for a height
    that is not positive. *)
Theorem generateNoiseMap_cells_exist (Math_sin : Q -> Q)
    (width height seed scale octaves persistence lacunarity offsetX offsetY : Q)
    (y x : nat) :
  is_Some
    (heightAt
       (generateNoiseMap Math_sin width height seed scale octaves persistence
          lacunarity offsetX offsetY) y x) <->
  inject_Z (Z.of_nat y) < height /\ inject_Z (Z.of_nat x) < width.
Proof.
  rewrite <- !loop_count_spec. unfold heightAt, generateNoiseMap.
  rewrite list_lookup_fmap.
  destruct (decide (y < Num.loop_count height)%nat) as [Hy|Hy].
  - rewrite lookup_seq_lt by exact Hy. cbn.
    rewrite list_lookup_fmap.
    destruct (decide (x < Num.loop_count width)%nat) as [Hx|Hx].
    + rewrite lookup_seq_lt by exact Hx. cbn. split; [auto|].
      intros _. eexists. reflexivity.
    + rewrite lookup_seq_ge by lia. cbn. split.
      * intros [c Hc]. discriminate Hc.
      * intros [_ H]. contradiction.
  - rewrite lookup_seq_ge by lia. cbn. split.
    + intros [c Hc]. discriminate Hc.
    + intros [H _]. contradiction.
Qed.

(** The octave loop sees a cell only through the sums [x + offsetX] and
    [y + offsetY]. *)
Lemma octaveLoop_shift (p : list (option Z))
    (scale persistence lacunarity offsetX offsetY offsetX' offsetY' : Q)
    (x y x' y' : Q) (n : nat) (amplitude frequency noiseValue : Q) :
  x + offsetX == x' + offsetX' -> y + offsetY == y' + offsetY' ->
  octaveLoop p scale persistence lacunarity offsetX offsetY x y n
    amplitude frequency noiseValue ==
  octaveLoop p scale persistence lacunarity offsetX' offsetY' x' y' n
    amplitude frequency noiseValue.
Proof.
  intros Hx Hy. revert amplitude frequency noiseValue.
  induction n as [|k IH]; intros amplitude frequency noiseValue.
  - reflexivity.
  - cbn [octaveLoop]. rewrite IH.
    apply octaveLoop_proper; try reflexivity.
    rewrite Hx, Hy. reflexivity.
Qed.

Lemma loop_count_add_nat (bound : Q) (k : nat) :
  (Num.loop_count (bound + inject_Z (Z.of_nat k)) - k)%nat =
  Num.loop_count bound.
Proof.
  unfold Num.loop_count, Qceiling.
  assert (E : - (bound + inject_Z (Z.of_nat k)) ==
              - bound + inject_Z (- Z.of_nat k))
    by (rewrite inject_Z_opp; ring).
  rewrite (Qfloor_comp _ _ E).
  pose proof (floor_add_int (- bound) (- Z.of_nat k)) as H.
  unfold Num.floor in H. rewrite H. lia.
Qed.

Lemma Forall2_map_seq {B} (R : B -> B -> Prop) (f g : nat -> B)
    (a b m : nat) :
  (forall i, R (f (a + i)%nat) (g (b + i)%nat)) ->
  Forall2 R (map f (seq a m)) (map g (seq b m)).
Proof.
  intros H. revert a b H. induction m as [|m IH]; intros a b H.
  - constructor.
  - cbn [seq map]. constructor.
    + specialize (H 0%nat). rewrite !Nat.add_0_r in H. exact H.
    + apply IH. intros i. specialize (H (S i)).
      rewrite !Nat.add_succ_r in H. exact H.
Qed.

Lemma drop_map_seq {B} (f : nat -> B) (k n : nat) :
  drop k (map f (seq 0 n)) = map f (seq k (n - k)).
Proof.
  change (map f (seq 0 n)) with (f <$> seq 0 n).
  rewrite <- fmap_drop, drop_seq. reflexivity.
Qed.

(** The exact grid shifts with whole-number offsets. *)
Lemma noiseCell_shift_whole (p : list (option Z))
    (scale octaves persistence lacunarity : Q) (a b : Z) (x y k j : nat) :
  noiseCell p scale octaves persistence lacunarity
    (inject_Z (a + Z.of_nat k)) (inject_Z (b + Z.of_nat j)) x y ==
  noiseCell p scale octaves persistence lacunarity (inject_Z a) (inject_Z b)
    (k + x) (j + y).
Proof.
  unfold noiseCell.
  rewrite (octaveLoop_shift p scale persistence lacunarity
             (inject_Z (a + Z.of_nat k)) (inject_Z (b + Z.of_nat j))
             (inject_Z a) (inject_Z b)
             (inject_Z (Z.of_nat x)) (inject_Z (Z.of_nat y))
             (inject_Z (Z.of_nat (k + x))) (inject_Z (Z.of_nat (j + y)))).
  - reflexivity.
  - rewrite Nat2Z.inj_add, !inject_Z_plus. ring.
  - rewrite Nat2Z.inj_add, !inject_Z_plus. ring.
Qed.

(** X9: whole-number offsets translate the sampling window.  For whole
    offsets [a], [b] and whole shifts [k], [j], with all the sums of a
    counter and an offset below [2^53] (where the doubles add whole numbers
    exactly), the grid generated at offsets [(a + k, b + j)] is the grid
    generated at [(a, b)] with [k] more columns and [j] more rows, once its
    first [j] rows and first [k] columns are dropped: tiles generated with
    whole-number offsets line up cell for cell. *)
Theorem generateNoiseMap_offset_shift (Math_sin : Q -> Q)
    (width height seed scale octaves persistence lacunarity : Q)
    (a b : Z) (k j : nat) :
  width <= inject_Z (2 ^ 52) -> height <= inject_Z (2 ^ 52) ->
  (Z.abs a + Z.of_nat k <= 2 ^ 52)%Z -> (Z.abs b + Z.of_nat j <= 2 ^ 52)%Z ->
  sameGrid
    (generateNoiseMap Math_sin width height seed scale octaves persistence
       lacunarity (inject_Z (a + Z.of_nat k)) (inject_Z (b + Z.of_nat j)))
    (map (drop k)
       (drop j
          (generateNoiseMap Math_sin (width + inject_Z (Z.of_nat k))
             (height + inject_Z (Z.of_nat j)) seed scale octaves persistence
             lacunarity (inject_Z a) (inject_Z b)))).
Proof.
  intros _ _ _ _. unfold sameGrid, generateNoiseMap.
  rewrite drop_map_seq, loop_count_add_nat, map_map.
  apply Forall2_map_seq. intros y. rewrite Nat.add_0_l.
  rewrite drop_map_seq, loop_count_add_nat.
  apply Forall2_map_seq. intros x. rewrite Nat.add_0_l.
  apply noiseCell_shift_whole.
Qed.

Lemma generateNoiseMap_offset_shift_witness :
  sameGrid
    (generateNoiseMap (fun s => s) 2 2 7 0.25 2 0.5 2.0
       (inject_Z (3 + Z.of_nat 1)) (inject_Z (-2 + Z.of_nat 2)))
    (map (drop 1)
       (drop 2
          (generateNoiseMap (fun s => s) (2 + inject_Z (Z.of_nat 1))
             (2 + inject_Z (Z.of_nat 2)) 7 0.25 2 0.5 2.0 (inject_Z 3)
             (inject_Z (-2))))).
Proof.
  apply (generateNoiseMap_offset_shift (fun s => s) 2 2 7 0.25 2 0.5 2.0 3 (-2)
           1 2); intros E; discriminate E.
Defined.

(** * Further properties of the terrain builder *)

Lemma clamp_unit (v : Q) :
  0 <= Num.clamp v 0 1 <= 1 /\
  (1 <= v -> Num.clamp v 0 1 == 1) /\
  (v <= 0 -> Num.clamp v 0 1 == 0).
Proof.
  unfold Num.clamp.
  destruct (Q.max_spec v 0) as [[H1 E1]|[H1 E1]];
    destruct (Q.min_spec (Qmax v 0) 1) as [[H2 E2]|[H2 E2]];
    rewrite E2; rewrite ?E1 in *; repeat split; intros; lra.
Qed.

Lemma climate_total_amplitude :
  amplitudeSum (Qabs 0.5) (Num.loop_count 4) == 15 # 8.
Proof. reflexivity. Qed.

(** X11: after the modifier loop every cell of the temperature grid and of the
    humidity grid lies in [[0, 1]]; a modifier of 1.4375 or more saturates
    the whole grid at 1 and a modifier of -1.4375 or less empties it to 0
    (four octaves of persistence 0.5 keep every unshifted cell between
    -0.4375 and 1.4375). *)
Theorem climate_grids_clamped (Math_sin : Q -> Q)
    (seed offsetX offsetY modifier : Q) :
  let temperatureMap :=
    applyModifier (baseTemperatureMap Math_sin seed offsetX offsetY) modifier in
  let humidityMap :=
    applyModifier (baseHumidityMap Math_sin seed offsetX offsetY) modifier in
  Forall (Forall (fun c => 0 <= c <= 1)) temperatureMap /\
  Forall (Forall (fun c => 0 <= c <= 1)) humidityMap /\
  (23 # 16 <= modifier ->
   Forall (Forall (fun c => c == 1)) temperatureMap /\
   Forall (Forall (fun c => c == 1)) humidityMap) /\
  (modifier <= - (23 # 16) ->
   Forall (Forall (fun c => c == 0)) temperatureMap /\
   Forall (Forall (fun c => c == 0)) humidityMap).
Proof.
  cbv zeta. unfold baseHumidityMap, baseTemperatureMap, applyModifier.
  pose proof (generateNoiseMap_cells_within Math_sin 256 256 seed 0.01 4 0.5
                2.0 offsetX offsetY) as Hb.
  cbv zeta in Hb.
  set (grid := generateNoiseMap Math_sin 256 256 seed 0.01 4 0.5 2.0
                 offsetX offsetY) in *.
  assert (Hcell : forall row c, row ∈ grid -> c ∈ row ->
                    - (7 # 16) <= c <= 23 # 16).
  { intros row c Hrow Hc. rewrite Forall_forall in Hb.
    specialize (Hb row Hrow). rewrite Forall_forall in Hb.
    specialize (Hb c Hc). cbv beta in Hb.
    rewrite climate_total_amplitude in Hb.
    assert (E1 : (1 - (15 # 8)) / 2 == - (7 # 16)) by reflexivity.
    assert (E2 : (1 + (15 # 8)) / 2 == 23 # 16) by reflexivity.
    rewrite E1, E2 in Hb. exact Hb. }
  assert (Hall : forall P : Q -> Prop,
            (forall row c, row ∈ grid -> c ∈ row ->
                           P (Num.clamp (c + modifier) 0 1)) ->
            Forall (Forall P)
              (map (map (fun cell => Num.clamp (cell + modifier) 0 1)) grid)).
  { intros P HP. apply Forall_forall. intros row' Hrow'.
    apply list_elem_of_fmap in Hrow'. destruct Hrow' as (row & -> & Hrow).
    apply Forall_forall. intros c' Hc'.
    apply list_elem_of_fmap in Hc'. destruct Hc' as (c & -> & Hc).
    apply (HP row c Hrow Hc). }
  assert (Hrange : Forall (Forall (fun c => 0 <= c <= 1))
                     (map (map (fun cell => Num.clamp (cell + modifier) 0 1))
                        grid)).
  { apply Hall. intros row c _ _. apply clamp_unit. }
  split; [exact Hrange|]. split; [exact Hrange|]. split.
  - intros Hm.
    assert (H1 : Forall (Forall (fun c => c == 1))
                   (map (map (fun cell => Num.clamp (cell + modifier) 0 1))
                      grid)).
    { apply Hall. intros row c Hrow Hc.
      destruct (Hcell row c Hrow Hc) as [Hlo _].
      apply clamp_unit. lra. }
    split; exact H1.
  - intros Hm.
    assert (H0 : Forall (Forall (fun c => c == 0))
                   (map (map (fun cell => Num.clamp (cell + modifier) 0 1))
                      grid)).
    { apply Hall. intros row c Hrow Hc.
      destruct (Hcell row c Hrow Hc) as [_ Hhi].
      apply clamp_unit. lra. }
    split; exact H0.
Qed.

Lemma climate_grids_clamped_witness :
  Forall (Forall (fun c => c == 1))
    (applyModifier (baseTemperatureMap (fun s => s) 42 0 0) 10) /\
  Forall (Forall (fun c => c == 0))
    (applyModifier (baseTemperatureMap (fun s => s) 42 0 0) (-10)).
Proof.
  split.
  - apply (climate_grids_clamped (fun s => s) 42 0 0 10).
    intros H. discriminate H.
  - apply (climate_grids_clamped (fun s => s) 42 0 0 (-10)).
    intros H. discriminate H.
Defined.

(** X12: with a whole number [n >= 1] of segments and a non-empty biome table
    the builder returns (does not throw) a mesh of [(n + 1)²] vertices with
    one elevation per vertex and three colour numbers per vertex. *)
Theorem terrain_mesh_shape (Math_sin : Q -> Q)
    (three_Color : string -> Q * Q * Q) (rules : list Biome) (n : nat)
    (size seed scale octaves persistence lacunarity amplitude
     offsetX offsetY tempModifier humidModifier : Q) :
  (1 <= n)%nat -> rules <> [] ->
  exists mesh : TerrainMesh,
    generateTerrainMesh Math_sin three_Color rules size
      (inject_Z (Z.of_nat n)) seed scale octaves persistence lacunarity
      amplitude offsetX offsetY tempModifier humidModifier = Returned mesh /\
    vertexCount mesh = ((n + 1) * (n + 1))%nat /\
    length (positionY mesh) = vertexCount mesh /\
    length (colors mesh) = (3 * vertexCount mesh)%nat.
Proof.
  intros Hn Hrules. destruct rules as [|first rest]; [congruence|].
  destruct (generateTerrainMesh_counts Math_sin three_Color first rest n
              size seed scale octaves persistence lacunarity amplitude
              offsetX offsetY tempModifier humidModifier Hn)
    as (mesh & Hmesh & Hcount & Hys & Hcolors).
  exists mesh. rewrite Hcount, Hys, Hcolors.
  repeat split; [exact Hmesh | lia].
Qed.

Lemma terrain_mesh_shape_witness :
  exists mesh : TerrainMesh,
    generateTerrainMesh (fun s => s) (fun _ => (0, 0, 0)) biomes 100
      (inject_Z (Z.of_nat 4)) 42 0.01 8 0.4 2.0 10 0 0 0.5 (-0.3) =
    Returned mesh /\
    vertexCount mesh = 25%nat /\
    length (positionY mesh) = vertexCount mesh /\
    length (colors mesh) = (3 * vertexCount mesh)%nat.
Proof.
  apply (terrain_mesh_shape (fun s => s) (fun _ => (0, 0, 0)) biomes 4).
  - apply le_S, le_S, le_S, le_n.
  - discriminate.
Defined.

Lemma forEach_map {A B} (body : A -> Completion B) (f : A -> B)
    (items : list A) :
  (forall a, In a items -> body a = Returned (f a)) ->
  forEach body items = Returned (map f items).
Proof.
  induction items as [|a items IH]; intros H; [reflexivity|].
  cbn [forEach map]. rewrite (H a (or_introl eq_refl)).
  rewrite IH by (intros a' Ha'; apply H; right; exact Ha').
  reflexivity.
Qed.

Lemma biomeAt_empty_table
    (noiseMap temperatureMap humidityMap : list (list Q)) (n z x : nat) :
  (1 <= n)%nat -> (z <= n)%nat ->
  length temperatureMap = 256%nat -> length humidityMap = 256%nat ->
  biomeAt [] noiseMap temperatureMap humidityMap (inject_Z (Z.of_nat n)) z x =
  Returned None.
Proof.
  intros Hn Hz Ht Hh. unfold biomeAt.
  destruct (climateIndex_in_range z n Hn Hz) as (kz & -> & Hkz).
  destruct (rowAt_in_range temperatureMap kz ltac:(lia)) as (tempRow & ->).
  destruct (rowAt_in_range humidityMap kz ltac:(lia)) as (humidRow & ->).
  reflexivity.
Qed.

(** X13: with an empty biome table and a whole number [n >= 1] of segments the
    builder throws: every cell of the biome map is [undefined] and the
    colour loop reads [.color] of the first one. *)
Theorem terrain_mesh_empty_table (Math_sin : Q -> Q)
    (three_Color : string -> Q * Q * Q) (n : nat)
    (size seed scale octaves persistence lacunarity amplitude
     offsetX offsetY tempModifier humidModifier : Q) :
  (1 <= n)%nat ->
  generateTerrainMesh Math_sin three_Color [] size (inject_Z (Z.of_nat n))
    seed scale octaves persistence lacunarity amplitude offsetX offsetY
    tempModifier humidModifier = TypeError.
Proof.
  intros Hn. unfold generateTerrainMesh.
  destruct (climate_grid_length Math_sin seed offsetX offsetY tempModifier)
    as [Ht _].
  destruct (climate_grid_length Math_sin seed offsetX offsetY humidModifier)
    as [_ Hh].
  set (noiseMap := generateNoiseMap Math_sin _ _ seed scale octaves
                     persistence lacunarity offsetX offsetY).
  assert (Hnoise : length noiseMap = S n).
  { subst noiseMap.
    destruct (generateNoiseMap_shape Math_sin (inject_Z (Z.of_nat n) + 1)
                (inject_Z (Z.of_nat n) + 1) seed scale octaves persistence
                lacunarity offsetX offsetY) as [-> _].
    apply loop_count_succ_nat. }
  unfold buildBiomeMap. rewrite loop_count_incl_nat.
  rewrite (forEach_map _ (fun _ : nat => map (fun _ : nat => @None Biome)
                                           (seq 0 (S n)))).
  2:{ intros z Hz. apply in_seq in Hz. apply forEach_map.
      intros x _. apply biomeAt_empty_table; (assumption || lia). }
  cbn [mbind completion_bind].
  rewrite planeVertexCount_nat.
  destruct (forEach_returns
              (elevationAt noiseMap (inject_Z (Z.of_nat n)) amplitude)
              (fun _ => True) (seq 0 (S n * S n)))
    as (ys & -> & _ & _).
  { intros i Hi. apply in_seq in Hi.
    destruct (elevationAt_returns noiseMap n i amplitude Hnoise) as (y & ->);
      [lia|].
    exists y. auto. }
  reflexivity.
Qed.

Lemma terrain_mesh_empty_table_witness :
  generateTerrainMesh (fun s => s) (fun _ => (0, 0, 0)) [] 100
    (inject_Z (Z.of_nat 4)) 42 0.01 8 0.4 2.0 10 0 0 0.5 (-0.3) = TypeError.
Proof.
  apply (terrain_mesh_empty_table (fun s => s) (fun _ => (0, 0, 0)) 4).
  apply le_S, le_S, le_S, le_n.
Defined.

Lemma succ_inject (n : nat) :
  inject_Z (Z.of_nat n) + 1 == inject_Z (Z.of_nat (S n)).
Proof. rewrite Nat2Z.inj_succ. unfold Z.succ. rewrite inject_Z_plus. reflexivity. Qed.

Lemma floor_nat_quotient (i n : nat) :
  Num.floor (inject_Z (Z.of_nat i) / (inject_Z (Z.of_nat n) + 1)) =
  Z.of_nat (i / S n).
Proof.
  unfold Num.floor.
  assert (E : inject_Z (Z.of_nat i) / (inject_Z (Z.of_nat n) + 1) ==
              inject_Z (Z.of_nat i) / inject_Z (Z.of_nat (S n)))
    by (rewrite succ_inject; reflexivity).
  rewrite (Qfloor_comp _ _ E), <- Zdiv_Qdiv, Nat2Z.inj_div. reflexivity.
Qed.

Lemma vertexRow_nat (i n : nat) :
  vertexRow i (inject_Z (Z.of_nat n)) = Some (Z.of_nat (i / S n)).
Proof.
  unfold vertexRow, Num.div.
  pose proof (inject_nat_le 0 n ltac:(lia)) as Hn0.
  change (inject_Z (Z.of_nat 0)) with 0 in Hn0.
  rewrite (nonzero_divisor (inject_Z (Z.of_nat n) + 1)) by lra.
  cbn [fmap option_fmap option_map]. rewrite floor_nat_quotient. reflexivity.
Qed.

Lemma as_index_of_nat (v : Q) (r : nat) :
  v == inject_Z (Z.of_nat r) -> Num.as_index v = Some r.
Proof.
  intros Hv. unfold Num.as_index.
  rewrite (Qfloor_comp _ _ Hv), Qfloor_Z.
  assert (E : Qeq_bool v (inject_Z (Z.of_nat r)) = true)
    by (apply Qeq_bool_iff; exact Hv).
  rewrite E. destruct (Z.leb_spec 0 (Z.of_nat r)); [|lia].
  cbn. rewrite Nat2Z.id. reflexivity.
Qed.

Lemma vertexColumn_nat (i n : nat) :
  vertexColumn i (inject_Z (Z.of_nat n)) = Some (i mod S n)%nat.
Proof.
  unfold vertexColumn, Num.rem.
  pose proof (inject_nat_le 0 n ltac:(lia)) as Hn0.
  pose proof (inject_nat_le 0 i ltac:(lia)) as Hi0.
  change (inject_Z (Z.of_nat 0)) with 0 in Hn0, Hi0.
  assert (Hpos : 0 < inject_Z (Z.of_nat n) + 1) by lra.
  rewrite (nonzero_divisor _ Hpos). cbn [mbind option_bind].
  apply as_index_of_nat. unfold Num.trunc.
  assert (Hq : 0 <= inject_Z (Z.of_nat i) / (inject_Z (Z.of_nat n) + 1)).
  { apply Qle_shift_div_l; [exact Hpos|]. lra. }
  apply Qle_bool_true in Hq. rewrite Hq.
  pose proof (floor_nat_quotient i n) as Hf. unfold Num.floor in Hf.
  rewrite Hf, succ_inject, <- inject_Z_mult.
  unfold Qminus. rewrite <- inject_Z_opp, <- inject_Z_plus.
  assert (Hmod : (Z.of_nat i + - (Z.of_nat (S n) * Z.of_nat (i / S n)))%Z =
                 Z.of_nat (i mod S n)).
  { rewrite Nat2Z.inj_mod, Nat2Z.inj_div.
    rewrite (Z.mod_eq (Z.of_nat i) (Z.of_nat (S n))) by lia. lia. }
  rewrite Hmod. reflexivity.
Qed.

(** The elevation written into vertex [i] is the cell of the height grid
    at row [i / (n + 1)], column [i mod (n + 1)], times the amplitude. *)
Lemma elevationAt_value (noiseMap : list (list Q)) (n i : nat)
    (amplitude : Q) :
  length noiseMap = S n -> (i < S n * S n)%nat ->
  elevationAt noiseMap (inject_Z (Z.of_nat n)) amplitude i =
  Returned ((fun c => c * amplitude) <$>
            heightAt noiseMap (i / S n) (i mod S n)).
Proof.
  intros Hlen Hi. unfold elevationAt.
  rewrite vertexRow_nat, vertexColumn_nat. unfold rowAt, heightAt.
  destruct (Z.leb_spec 0 (Z.of_nat (i / S n))); [|lia].
  rewrite Nat2Z.id.
  assert (Hr : (i / S n < S n)%nat)
    by (apply Nat.Div0.div_lt_upper_bound; lia).
  destruct (lookup_lt_is_Some_2 noiseMap (i / S n)) as [row Hrow]; [lia|].
  rewrite Hrow. reflexivity.
Qed.

(** X14: the mesh is laid out row by row.  With a whole number [n >= 1] of
    segments and a non-empty table, vertex [i] takes its elevation from the
    cell of the height grid at row [i / (n + 1)], column [i mod (n + 1)],
    multiplied by the amplitude, and that cell exists for every vertex: no
    vertex reads outside the grid.  (Whether the value of the cell is finite
    is a matter of the noise arithmetic, not of the layout.) *)
Theorem terrain_mesh_elevations (Math_sin : Q -> Q)
    (three_Color : string -> Q * Q * Q) (rules : list Biome) (n : nat)
    (size seed scale octaves persistence lacunarity amplitude
     offsetX offsetY tempModifier humidModifier : Q) :
  (1 <= n)%nat -> rules <> [] ->
  let noiseMap :=
    generateNoiseMap Math_sin (inject_Z (Z.of_nat n) + 1)
      (inject_Z (Z.of_nat n) + 1) seed scale octaves persistence lacunarity
      offsetX offsetY in
  exists mesh : TerrainMesh,
    generateTerrainMesh Math_sin three_Color rules size
      (inject_Z (Z.of_nat n)) seed scale octaves persistence lacunarity
      amplitude offsetX offsetY tempModifier humidModifier = Returned mesh /\
    positionY mesh =
      map (fun i => (fun c => c * amplitude) <$>
                    heightAt noiseMap (i / (n + 1)) (i mod (n + 1)))
          (seq 0 ((n + 1) * (n + 1))) /\
    forall i : nat,
      (i < (n + 1) * (n + 1))%nat ->
      is_Some (heightAt noiseMap (i / (n + 1)) (i mod (n + 1))).
Proof.
  intros Hn Hrules noiseMap. destruct rules as [|first rest]; [congruence|].
  unfold generateTerrainMesh. fold noiseMap.
  destruct (climate_grid_length Math_sin seed offsetX offsetY tempModifier)
    as [Ht _].
  destruct (climate_grid_length Math_sin seed offsetX offsetY humidModifier)
    as [_ Hh].
  destruct (buildBiomeMap_returns first rest noiseMap _ _ n Hn Ht Hh)
    as (biomeMap & -> & Hrows & Hcells).
  cbn [mbind completion_bind].
  assert (Hnoise : length noiseMap = S n).
  { subst noiseMap.
    destruct (generateNoiseMap_shape Math_sin (inject_Z (Z.of_nat n) + 1)
                (inject_Z (Z.of_nat n) + 1) seed scale octaves persistence
                lacunarity offsetX offsetY) as [-> _].
    apply loop_count_succ_nat. }
  rewrite planeVertexCount_nat.
  rewrite (forEach_map _ (fun i => (fun c => c * amplitude) <$>
                                   heightAt noiseMap (i / S n) (i mod S n))).
  2:{ intros i Hi. apply in_seq in Hi.
      apply elevationAt_value; [exact Hnoise | lia]. }
  cbn [mbind completion_bind].
  destruct (buildColors_returns three_Color biomeMap (S n) Hcells)
    as (cs & -> & _).
  cbn [mbind completion_bind]. eexists. split; [reflexivity|].
  cbn [positionY]. replace (n + 1)%nat with (S n) by lia.
  split; [reflexivity|].
  intros i Hi.
  assert (Hr : (i / S n < S n)%nat)
    by (apply Nat.Div0.div_lt_upper_bound; lia).
  assert (Hc : (i mod S n < S n)%nat) by (apply Nat.mod_upper_bound; lia).
  subst noiseMap.
  apply (generateNoiseMap_lookup Math_sin
           (inject_Z (Z.of_nat n) + 1) (inject_Z (Z.of_nat n) + 1)
           seed scale octaves persistence lacunarity offsetX
           offsetY (i / S n) (i mod S n)).
  rewrite succ_inject, <- !Zlt_Qlt. lia.
Qed.

Lemma terrain_mesh_elevations_witness :
  exists mesh : TerrainMesh,
    generateTerrainMesh (fun s => s) (fun _ => (0, 0, 0)) biomes 100
      (inject_Z (Z.of_nat 4)) 42 0.01 8 0.4 2.0 10 0 0 0.5 (-0.3) =
    Returned mesh /\
    length (positionY mesh) = 25%nat.
Proof.
  destruct (terrain_mesh_elevations (fun s => s) (fun _ => (0, 0, 0)) biomes 4
              100 42 0.01 8 0.4 2.0 10 0 0 0.5 (-0.3))
    as (mesh & Hmesh & Hys & _).
  - apply le_S, le_S, le_S, le_n.
  - discriminate.
  - exists mesh. split; [exact Hmesh|].
    rewrite Hys, length_map, length_seq. reflexivity.
Defined.

(** * Further properties of the biome rules *)

(** X15: a sample whose temperature or humidity is [undefined] matches no
    rule, so the first rule of the table is selected (and nothing at all on
    an empty table). *)
Theorem selectBiome_undefined_sample (rules : list Biome)
    (temp humid height : option Q) :
  selectBiome rules None humid height = head rules /\
  selectBiome rules temp None height = head rules.
Proof.
  assert (Hnone : forall f : Biome -> bool,
            (forall r, f r = false) -> List.filter f rules = []).
  { intros f Hf. induction rules as [|r rest IH]; [reflexivity|].
    cbn [List.filter]. rewrite Hf. exact IH. }
  assert (H1 : viableBiomes rules None humid height = []).
  { apply Hnone. intros r. reflexivity. }
  assert (H2 : viableBiomes rules temp None height = []).
  { apply Hnone. intros r. unfold isViable.
    replace (inRange None (humidityRange r)) with false by reflexivity.
    rewrite andb_false_r. reflexivity. }
  unfold selectBiome. rewrite H1, H2. split; reflexivity.
Qed.

(** X16: for two well-formed ranges (lower bound at most upper bound) the
    checker's four-endpoint test holds exactly when the two ranges share a
    value; it does not depend on the order of the two ranges. *)
Theorem rangesOverlap_shared_value (r1 r2 : Q * Q) :
  fst r1 <= snd r1 -> fst r2 <= snd r2 ->
  (rangesOverlap r1 r2 = true <->
   exists v : Q, contains r1 v /\ contains r2 v) /\
  rangesOverlap r1 r2 = rangesOverlap r2 r1.
Proof.
  intros H1 H2. split.
  - rewrite rangesOverlap_spec. unfold overlaps, contains. split.
    + intros [H|[H|[H|H]]].
      * exists (fst r2). lra.
      * exists (snd r2). lra.
      * exists (fst r1). lra.
      * exists (snd r1). lra.
    + intros (v & Hv1 & Hv2).
      destruct (Qlt_le_dec (fst r2) (fst r1)) as [Hlt|Hle].
      * right. right. left. lra.
      * left. lra.
  - destruct (rangesOverlap r1 r2) eqn:E12, (rangesOverlap r2 r1) eqn:E21;
      try reflexivity.
    + apply rangesOverlap_spec in E12.
      assert (E : rangesOverlap r2 r1 = true)
        by (apply rangesOverlap_spec; unfold overlaps in *; tauto).
      congruence.
    + apply rangesOverlap_spec in E21.
      assert (E : rangesOverlap r1 r2 = true)
        by (apply rangesOverlap_spec; unfold overlaps in *; tauto).
      congruence.
Qed.

Lemma rangesOverlap_shared_value_witness :
  rangesOverlap (0, 0.5) (0.3, 0.8) = rangesOverlap (0.3, 0.8) (0, 0.5).
Proof.
  apply (rangesOverlap_shared_value (0, 0.5) (0.3, 0.8));
    intros H; discriminate H.
Defined.

(** The selection is never lighter than a matching rule. *)
Lemma selectBiome_not_lighter (rules : list Biome)
    (temperature humidity height : Q) (r b : Biome) :
  In r rules -> matchesSample temperature humidity height r ->
  selectBiome rules (Some temperature) (Some humidity) (Some height) = Some b ->
  In b rules /\ weight r <= weight b.
Proof.
  intros Hr Hm Hsel.
  assert (Hv : In r (viableBiomes rules (Some temperature) (Some humidity)
                       (Some height)))
    by (apply viableBiomes_In; auto).
  unfold selectBiome in Hsel.
  destruct (viableBiomes rules (Some temperature) (Some humidity) (Some height))
    as [|v vs] eqn:Ev; [destruct Hv|].
  injection Hsel as <-.
  destruct (reduce_heavier v vs) as (before & after & Hsplit & Hlt & Hle).
  set (b := fold_left heavier vs v) in *.
  split.
  - assert (Hb : In b (v :: vs))
      by (rewrite Hsplit; apply in_or_app; right; left; reflexivity).
    rewrite <- Ev in Hb. apply viableBiomes_In in Hb. tauto.
  - rewrite Hsplit in Hv. apply in_app_or in Hv.
    destruct Hv as [Hv|[<-|Hv]].
    + apply Qlt_le_weak. apply Hlt. exact Hv.
    + apply Qle_refl.
    + apply Hle. exact Hv.
Qed.

(** X17: with the game's table every point whose height is at most 0.15 is
    ocean, whatever its temperature and humidity in [[0, 1]]: the ocean
    rule covers it and outweighs every other rule. *)
Theorem biomes_low_points_are_ocean (temperature humidity height : Q) :
  0 <= temperature <= 1 -> 0 <= humidity <= 1 -> 0 <= height <= 0.15 ->
  name <$> selectBiome biomes (Some temperature) (Some humidity) (Some height)
  = Some "Ocean"%string.
Proof.
  intros Ht Hh Hz.
  set (ocean := mkBiome "Ocean" (0.0, 1.0) (0.0, 1.0) (Some (0.0, 0.15))
                  "#1E90FF" 100).
  assert (Hin : In ocean biomes) by (unfold biomes; simpl; tauto).
  assert (Hm : matchesSample temperature humidity height ocean).
  { unfold matchesSample, contains. cbn. repeat split; lra. }
  destruct (selectBiome biomes (Some temperature) (Some humidity) (Some height))
    as [b|] eqn:Hsel.
  - destruct (selectBiome_not_lighter biomes temperature humidity height
                ocean b Hin Hm Hsel) as [Hb Hw].
    cbn in Hb. cbn [weight ocean] in Hw.
    repeat (destruct Hb as [<-|Hb]; [cbn in Hw; try lra; try reflexivity|]).
    destruct Hb.
  - exfalso. unfold selectBiome in Hsel.
    assert (Hv : In ocean (viableBiomes biomes (Some temperature)
                             (Some humidity) (Some height)))
      by (apply viableBiomes_In; auto).
    destruct (viableBiomes biomes (Some temperature) (Some humidity)
                (Some height)); [destruct Hv | discriminate Hsel].
Qed.

Lemma biomes_low_points_are_ocean_witness :
  name <$> selectBiome biomes (Some 0.9) (Some 0.2) (Some 0.1)
  = Some "Ocean"%string.
Proof.
  apply (biomes_low_points_are_ocean 0.9 0.2 0.1);
    split; intros H; discriminate H.
Defined.

(** X18: the game's table does not cover every sample.  A point above the
    ocean level (height over 0.15) that is cooler than 0.5 and drier than
    0.45 matches no rule and is coloured by the first rule, Grassland, also
    when its temperature lies outside Grassland's own range. *)
Theorem biomes_cool_dry_falls_back (temperature humidity height : Q) :
  temperature < 0.5 -> humidity < 0.45 -> 0.15 < height ->
  (forall r, In r biomes -> ~ matchesSample temperature humidity height r) /\
  name <$> selectBiome biomes (Some temperature) (Some humidity) (Some height)
  = Some "Grassland"%string.
Proof.
  intros Ht Hh Hz.
  assert (Hnone : forall r, In r biomes ->
                    ~ matchesSample temperature humidity height r).
  { intros r Hr Hm. unfold matchesSample, contains in Hm. cbn in Hr.
    repeat (destruct Hr as [<-|Hr]; [cbn in Hm; lra|]).
    exact Hr. }
  split; [exact Hnone|].
  unfold selectBiome.
  destruct (viableBiomes biomes (Some temperature) (Some humidity) (Some height))
    as [|v vs] eqn:Ev; [reflexivity|].
  exfalso.
  assert (Hv : In v (viableBiomes biomes (Some temperature) (Some humidity)
                       (Some height))) by (rewrite Ev; left; reflexivity).
  apply viableBiomes_In in Hv. destruct Hv as [Hin Hm].
  exact (Hnone v Hin Hm).
Qed.

Lemma biomes_cool_dry_falls_back_witness :
  name <$> selectBiome biomes (Some 0.1) (Some 0.1) (Some 0.5)
  = Some "Grassland"%string.
Proof.
  apply (biomes_cool_dry_falls_back 0.1 0.1 0.5); reflexivity.
Defined.

(** * The window element *)

Lemma clamp_cases (num lower upper : Q) :
  (upper < lower /\ Num.clamp num lower upper == upper) \/
  (lower <= upper /\ num < lower /\ Num.clamp num lower upper == lower) \/
  (lower <= num <= upper /\ Num.clamp num lower upper == num) \/
  (lower <= upper /\ upper < num /\ Num.clamp num lower upper == upper).
Proof.
  unfold Num.clamp.
  destruct (Q.max_spec num lower) as [[H1 E1]|[H1 E1]];
    destruct (Q.min_spec (Qmax num lower) upper) as [[H2 E2]|[H2 E2]];
    rewrite E2; rewrite ?E1 in *;
    destruct (Qlt_le_dec upper lower) as [Hul|Hul];
    destruct (Qlt_le_dec upper num) as [Hun|Hun];
    try (left; split; [assumption|]; lra);
    try (right; left; split; [assumption|]; split; lra);
    try (right; right; left; split; [split; lra|]; lra);
    try (right; right; right; split; [assumption|]; split; lra).
Qed.

(** X19: for bounds in order, [clamp] returns a value between the bounds,
    returns its argument when that already lies between them, and clamping
    twice changes nothing more. *)
Theorem clamp_between (num lower upper : Q) :
  lower <= upper ->
  lower <= Num.clamp num lower upper <= upper /\
  (lower <= num <= upper -> Num.clamp num lower upper == num) /\
  Num.clamp (Num.clamp num lower upper) lower upper ==
  Num.clamp num lower upper.
Proof.
  intros Hlu.
  assert (Hin : lower <= Num.clamp num lower upper <= upper).
  { destruct (clamp_cases num lower upper)
      as [[H E]|[[H [H' E]]|[[H E]|[H [H' E]]]]]; rewrite E; lra. }
  assert (Hid : forall v, lower <= v <= upper -> Num.clamp v lower upper == v).
  { intros v Hv.
    destruct (clamp_cases v lower upper)
      as [[H E]|[[H [H' E]]|[[H E]|[H [H' E]]]]]; rewrite E; lra. }
  split; [exact Hin|]. split; [apply Hid|]. apply Hid. exact Hin.
Qed.

Lemma clamp_between_witness : 0 <= Num.clamp 250 0 100 <= 100.
Proof.
  apply (clamp_between 250 0 100). intros H. discriminate H.
Defined.

(** X20: when the bounds are out of order (upper below lower), [clamp]
    returns the upper bound whatever its argument. *)
Theorem clamp_inverted_bounds (num lower upper : Q) :
  upper < lower -> Num.clamp num lower upper == upper.
Proof.
  intros Hul.
  destruct (clamp_cases num lower upper)
    as [[H E]|[[H [H' E]]|[[H E]|[H [H' E]]]]]; [exact E | lra | lra | lra].
Qed.

Lemma clamp_inverted_bounds_witness : Num.clamp 250 40 (-60) == -60.
Proof. apply (clamp_inverted_bounds 250 40 (-60)). reflexivity. Defined.

(** X21: while the toolbar is dragged on a desktop the window fits in (width
    at most the desktop's, height at most the desktop's less the 40 pixel
    top bar), a pointer move puts the window inside the desktop and below
    the top bar; and when the pointer's target lies inside those bounds the
    window takes exactly the position that keeps the grabbed point under the
    pointer. *)
Theorem drag_keeps_window_in_desktop (clientX clientY clientWidth clientHeight
    offsetWidth offsetHeight : Q) (d : Drag.State) (pos : Drag.Position) :
  Drag.isDragging d = true ->
  offsetWidth <= clientWidth -> 40 + offsetHeight <= clientHeight ->
  exists l t : Q,
    snd (Drag.onMouseMove clientX clientY (Some (clientWidth, clientHeight))
           offsetWidth offsetHeight d pos) =
      Drag.mkPosition (Some l) (Some t) /\
    0 <= l /\ l + offsetWidth <= clientWidth /\
    40 <= t /\ t + offsetHeight <= clientHeight /\
    (0 <= clientX - Drag.offsetX d <= clientWidth - offsetWidth ->
     l == clientX - Drag.offsetX d) /\
    (40 <= clientY - Drag.offsetY d <= clientHeight - offsetHeight ->
     t == clientY - Drag.offsetY d).
Proof.
  intros Hd Hw Hh. unfold Drag.onMouseMove. rewrite Hd. cbn [negb snd].
  eexists _, _. split; [reflexivity|].
  destruct (clamp_cases (clientX - Drag.offsetX d) 0
              (clientWidth - offsetWidth))
    as [[H E]|[[H [H' E]]|[[H E]|[H [H' E]]]]];
    destruct (clamp_cases (clientY - Drag.offsetY d) 40
                (clientHeight - offsetHeight))
      as [[G F]|[[G [G' F]]|[[G F]|[G [G' F]]]]];
    rewrite E, F; repeat split; intros; lra.
Qed.

Lemma drag_keeps_window_in_desktop_witness :
  exists l t : Q,
    snd (Drag.onMouseMove 5000 (-20) (Some (1920, 1080)) 800 600
           (Drag.toolbarMouseDown 110 60 100 50 Drag.initial)
           (Drag.mkPosition None None)) =
      Drag.mkPosition (Some l) (Some t) /\
    0 <= l /\ l + 800 <= 1920 /\ 40 <= t /\ t + 600 <= 1080.
Proof.
  destruct (drag_keeps_window_in_desktop 5000 (-20) 1920 1080 800 600
              (Drag.toolbarMouseDown 110 60 100 50 Drag.initial)
              (Drag.mkPosition None None))
    as (l & t & Hpos & H1 & H2 & H3 & H4 & _).
  - reflexivity.
  - intros H. discriminate H.
  - intros H. discriminate H.
  - exists l, t. repeat split; assumption.
Defined.

Lemma documentMouseMoves_idle (moves : list (Q * Q)) (desktop : option (Q * Q))
    (offsetWidth offsetHeight : Q) (d : Drag.State) (pos : Drag.Position) :
  Drag.listening d = false ->
  Drag.documentMouseMoves moves desktop offsetWidth offsetHeight d pos =
  (d, pos).
Proof.
  intros Hl. induction moves as [|[clientX clientY] rest IH]; [reflexivity|].
  cbn [Drag.documentMouseMoves]. unfold Drag.documentMouseMove.
  rewrite Hl. exact IH.
Qed.

(** Once the button is released the drag is over: whatever pointer moves
    reach the document afterwards, the window keeps its position and the
    drag state does not change; the same holds before any drag has
    started. *)
Lemma drag_released_ignores_moves (moves : list (Q * Q))
    (desktop : option (Q * Q)) (offsetWidth offsetHeight : Q)
    (d : Drag.State) (pos : Drag.Position) :
  Drag.documentMouseMoves moves desktop offsetWidth offsetHeight
    (Drag.onMouseUp d) pos = (Drag.onMouseUp d, pos) /\
  Drag.documentMouseMoves moves desktop offsetWidth offsetHeight
    Drag.initial pos = (Drag.initial, pos).
Proof.
  split; apply documentMouseMoves_idle; reflexivity.
Qed.

Lemma lt_spec (a b : Q) : Js.lt a b = true <-> a < b.
Proof.
  unfold Js.lt. rewrite negb_true_iff. apply Qle_bool_false.
Qed.

Lemma lt_false (a b : Q) : Js.lt a b = false <-> b <= a.
Proof.
  unfold Js.lt. rewrite negb_false_iff. apply Qle_bool_true.
Qed.

Example getResizeDirection_corner :
  Resize.getResizeDirection 105 55 (Resize.mkRect 100 50 800 600) = "nw"%string.
Proof. reflexivity. Qed.

(** X22: the resize direction names exactly the edges the pointer is within
    10 pixels of (or beyond): it contains "n" exactly when the pointer is
    less than 10 pixels below the top edge, "s" when it is less than 10
    pixels above the bottom edge, "w" and "e" likewise for the left and
    right edges; it is empty exactly when the pointer is at least 10 pixels
    inside all four edges; and on a window at least 20 pixels wide and high
    it is one of the eight compass directions or empty, which are the names
    the cursor style is built from. *)
Theorem resize_direction_edges (clientX clientY : Q) (rect : Resize.Rect) :
  let direction := Resize.getResizeDirection clientX clientY rect in
  let x := clientX - Resize.left rect in
  let y := clientY - Resize.top rect in
  (Js.includes "n" direction = true <-> y < 10) /\
  (Js.includes "s" direction = true <-> Resize.height rect - 10 < y) /\
  (Js.includes "w" direction = true <-> x < 10) /\
  (Js.includes "e" direction = true <-> Resize.width rect - 10 < x) /\
  (direction = ""%string <->
   10 <= x <= Resize.width rect - 10 /\ 10 <= y <= Resize.height rect - 10) /\
  (20 <= Resize.width rect -> 20 <= Resize.height rect ->
   In direction
      ["n"; "s"; "w"; "e"; "nw"; "ne"; "sw"; "se"; ""]%string).
Proof.
  unfold Resize.getResizeDirection, Resize.edgeThreshold, Js.gt. cbv zeta.
  destruct (Js.lt (clientY - Resize.top rect) 10) eqn:En;
    destruct (Js.lt (Resize.height rect - 10) (clientY - Resize.top rect))
      eqn:Es;
    destruct (Js.lt (clientX - Resize.left rect) 10) eqn:Ew;
    destruct (Js.lt (Resize.width rect - 10) (clientX - Resize.left rect))
      eqn:Ee;
    cbn;
    rewrite ?lt_spec, ?lt_false in *;
    repeat apply conj; intros;
    try discriminate; try lra; try reflexivity;
    try (match goal with
         | H : _ /\ _ |- _ => destruct H as [[? ?] [? ?]]; lra
         end);
    try (repeat split; lra);
    repeat (first [left; reflexivity | right]).
Qed.

Lemma resize_direction_edges_witness :
  In (Resize.getResizeDirection 105 55 (Resize.mkRect 100 50 800 600))
    ["n"; "s"; "w"; "e"; "nw"; "ne"; "sw"; "se"; ""]%string.
Proof.
  apply (resize_direction_edges 105 55 (Resize.mkRect 100 50 800 600));
    intros E; discriminate E.
Defined.

(** X23: while a resize is in progress and the window is not being dragged, a
    pointer move never makes the window narrower or lower than 100 pixels;
    resizing from the west keeps the right edge where it was when the resize
    started and resizing from the north keeps the bottom edge; a direction
    without east or west leaves width and left untouched; and while the
    window is dragged, or when no resize is in progress, the move changes
    nothing. *)
Theorem resize_keeps_opposite_edge (dragging : bool) (clientX clientY : Q)
    (r : Resize.State) (st : Resize.Style) :
  let st' := Resize.onMouseMove dragging clientX clientY r st in
  (Resize.isResizing r = true -> dragging = false ->
   (Js.includes "w" (Resize.resizeDirection r) = true ->
    exists w l : Q,
      Resize.styleWidth st' = Some w /\ Resize.styleLeft st' = Some l /\
      100 <= w /\ l + w == Resize.startLeft r + Resize.startWidth r) /\
   (Js.includes "n" (Resize.resizeDirection r) = true ->
    exists h t : Q,
      Resize.styleHeight st' = Some h /\ Resize.styleTop st' = Some t /\
      100 <= h /\ t + h == Resize.startTop r + Resize.startHeight r) /\
   (Js.includes "e" (Resize.resizeDirection r) = true ->
    exists w : Q, Resize.styleWidth st' = Some w /\ 100 <= w) /\
   (Js.includes "s" (Resize.resizeDirection r) = true ->
    exists h : Q, Resize.styleHeight st' = Some h /\ 100 <= h) /\
   (Js.includes "e" (Resize.resizeDirection r) = false ->
    Js.includes "w" (Resize.resizeDirection r) = false ->
    Resize.styleWidth st' = Resize.styleWidth st /\
    Resize.styleLeft st' = Resize.styleLeft st)) /\
  (Resize.isResizing r = false \/ dragging = true -> st' = st).
Proof.
  cbv zeta. unfold Resize.onMouseMove. split.
  - intros -> ->. cbn [negb orb]. cbv zeta.
    destruct (Js.includes "e" (Resize.resizeDirection r));
      destruct (Js.includes "s" (Resize.resizeDirection r));
      destruct (Js.includes "w" (Resize.resizeDirection r));
      destruct (Js.includes "n" (Resize.resizeDirection r));
      cbn;
      repeat split; intros; try discriminate;
      try (eexists _, _; repeat split; [apply Q.le_max_l | ring]);
      try (eexists; split; [reflexivity | apply Q.le_max_l]).
  - intros [->| ->]; [reflexivity|].
    destruct (negb (Resize.isResizing r)); reflexivity.
Qed.

Lemma resize_keeps_opposite_edge_witness :
  exists w l : Q,
    Resize.styleWidth
      (Resize.onMouseMove false 300 400
         (Resize.mouseDown 102 400 (Resize.mkRect 100 50 800 600)
            Resize.initial)
         (Resize.mkStyle None None None None)) = Some w /\
    Resize.styleLeft
      (Resize.onMouseMove false 300 400
         (Resize.mouseDown 102 400 (Resize.mkRect 100 50 800 600)
            Resize.initial)
         (Resize.mkStyle None None None None)) = Some l /\
    100 <= w /\ l + w == 100 + 800.
Proof.
  destruct (resize_keeps_opposite_edge false 300 400
              (Resize.mouseDown 102 400 (Resize.mkRect 100 50 800 600)
                 Resize.initial)
              (Resize.mkStyle None None None None)) as [H _].
  destruct (H eq_refl eq_refl) as (Hw & _).
  apply Hw. reflexivity.
Defined.

Lemma int32_testbit (z i : Z) :
  (0 <= i < 32)%Z -> Z.testbit (Js.int32 z) i = Z.testbit z i.
Proof.
  intros Hi. unfold Js.int32.
  rewrite <- (Z.mod_pow2_bits_low ((z + 2 ^ 31) mod 2 ^ 32 - 2 ^ 31) 32 i)
    by lia.
  rewrite Zminus_mod_idemp_l.
  replace (z + 2 ^ 31 - 2 ^ 31)%Z with z by lia.
  apply Z.mod_pow2_bits_low. lia.
Qed.

Lemma shl_one_testbit (button i : Z) :
  (0 <= i < 32)%Z ->
  Z.testbit (Js.shl 1 button) i = (i =? Z.land button 31)%Z.
Proof.
  intros Hi. unfold Js.shl. rewrite int32_testbit by exact Hi.
  change (Js.int32 1) with 1%Z.
  assert (Hk : (0 <= Z.land button 31)%Z) by (apply Z.land_nonneg; lia).
  rewrite Z.shiftl_1_l, Z.pow2_bits_eqb by exact Hk.
  apply Z.eqb_sym.
Qed.

(** X24: the button mask keeps one bit per button.  After [mousedown] of a
    button its bit (number [button & 31]) is set and after [mouseup] it is
    clear, and neither changes any other of the 32 bits; leaving the window
    clears them all. *)
Theorem mousebuttons_track_buttons (button i : Z) (w : Input.State) :
  (0 <= i < 32)%Z ->
  Z.testbit (Input.mousebuttons (Input.mousedown button w)) i =
    (i =? Z.land button 31)%Z || Z.testbit (Input.mousebuttons w) i /\
  Z.testbit (Input.mousebuttons (Input.mouseup button w)) i =
    negb (i =? Z.land button 31)%Z && Z.testbit (Input.mousebuttons w) i /\
  Z.testbit (Input.mousebuttons (Input.mouseleave w)) i = false.
Proof.
  intros Hi. cbn [Input.mousebuttons Input.mousedown Input.mouseup
                  Input.mouseleave].
  unfold Js.bitor, Js.bitand, Js.bitnot.
  rewrite Z.lor_spec, Z.land_spec.
  rewrite !int32_testbit by exact Hi.
  rewrite Z.lnot_spec by lia.
  rewrite !int32_testbit, !shl_one_testbit by exact Hi.
  split; [apply orb_comm|]. split; [apply andb_comm|].
  apply Z.testbit_0_l.
Qed.

Lemma mousebuttons_track_buttons_witness :
  Z.testbit
    (Input.mousebuttons
       (Input.mouseup 0 (Input.mousedown 2 (Input.mousedown 0 Input.initial))))
    2 = true.
Proof.
  destruct (mousebuttons_track_buttons 0 2
              (Input.mousedown 2 (Input.mousedown 0 Input.initial)))
    as (_ & Hup & _); [lia|].
  rewrite Hup.
  destruct (mousebuttons_track_buttons 2 2 (Input.mousedown 0 Input.initial))
    as (Hdown & _ & _); [lia|].
  rewrite Hdown. reflexivity.
Defined.

Lemma has_add (k k' : string) (set : list string) :
  Js.has k' (Js.add k set) = String.eqb k' k || Js.has k' set.
Proof.
  unfold Js.add. destruct (Js.has k set) eqn:E.
  - destruct (String.eqb_spec k' k) as [->|Hne]; [|reflexivity].
    rewrite E. reflexivity.
  - unfold Js.has. rewrite existsb_app. cbn [existsb].
    rewrite orb_false_r. apply orb_comm.
Qed.

Lemma has_delete (k k' : string) (set : list string) :
  Js.has k' (Js.delete k set) = negb (String.eqb k' k) && Js.has k' set.
Proof.
  unfold Js.has, Js.delete. induction set as [|x set IH].
  - cbn. rewrite andb_false_r. reflexivity.
  - cbn [List.filter existsb].
    destruct (String.eqb_spec k x) as [->|Hkx]; cbn [negb].
    + rewrite IH. destruct (String.eqb_spec k' x) as [->|Hne]; reflexivity.
    + cbn [existsb]. rewrite IH.
      destruct (String.eqb_spec k' x) as [->|Hne].
      * destruct (String.eqb_spec x k) as [->|_]; [congruence|reflexivity].
      * cbn [orb]. reflexivity.
Qed.

(** X25: the key set follows the keyboard.  A key is down after its
    [keydown] and up after its [keyup], however many repeated [keydown]
    events came before; no event changes whether another key is down; and
    after a blur with the game's hook no key is down, no button is held and
    the pointer lock is off. *)
Theorem keys_track_keyboard (key other : string) (w : Input.State) :
  Input.keyDown key (Input.keydown key w) = true /\
  Input.keyUp key (Input.keyup key w) = true /\
  Input.keyUp key (Input.keyup key (Input.keydown key (Input.keydown key w)))
    = true /\
  (other <> key ->
   Input.keyDown other (Input.keydown key w) = Input.keyDown other w /\
   Input.keyDown other (Input.keyup key w) = Input.keyDown other w) /\
  Input.keyDown key (Input.blur Input.gameBlur w) = false /\
  Input.mousebuttons (Input.blur Input.gameBlur w) = 0%Z /\
  Input.pointerlock (Input.blur Input.gameBlur w) = false.
Proof.
  unfold Input.keyDown, Input.keyUp. cbn [Input.keys Input.keydown Input.keyup].
  rewrite !has_delete, !has_add, String.eqb_refl. cbn [negb andb orb].
  split; [reflexivity|]. split; [reflexivity|]. split; [reflexivity|].
  split; [|repeat split].
  intros Hother. apply String.eqb_neq in Hother. rewrite Hother.
  split; reflexivity.
Qed.

Lemma keys_track_keyboard_witness :
  Input.keyDown "w" (Input.keydown "Escape" (Input.keydown "w" Input.initial))
  = Input.keyDown "w" (Input.keydown "w" Input.initial).
Proof.
  destruct (keys_track_keyboard "Escape" "w" (Input.keydown "w" Input.initial))
    as (_ & _ & _ & Hother & _).
  apply Hother. discriminate.
Defined.

(** * The canvas layout *)

(** X26: for a container with positive width and height the canvas fits
    inside the container, has the ratio 16:9, touches the container in at
    least one direction and is centred: the margins are not negative and
    twice a margin plus the canvas size is the container size.  For a
    container of height zero the canvas has no width and no height. *)
Theorem canvas_fits_container (containerWidth containerHeight : Q) :
  let layout := Canvas.fit containerWidth containerHeight in
  (0 < containerWidth -> 0 < containerHeight ->
   Canvas.width layout <= containerWidth /\
   Canvas.height layout <= containerHeight /\
   Canvas.width layout == Canvas.height layout * (16 # 9) /\
   (Canvas.width layout == containerWidth \/
    Canvas.height layout == containerHeight) /\
   0 <= Canvas.marginLeft layout /\ 0 <= Canvas.marginTop layout /\
   2 * Canvas.marginLeft layout + Canvas.width layout == containerWidth /\
   2 * Canvas.marginTop layout + Canvas.height layout == containerHeight) /\
  (0 <= containerWidth -> containerHeight == 0 ->
   Canvas.width layout == 0 /\ Canvas.height layout == 0).
Proof.
  cbv zeta. unfold Canvas.fit, Canvas.widerThanRatio, Num.div, Js.gt,
    Canvas.aspectRatio. split.
  - intros Hw Hh. rewrite (nonzero_divisor _ Hh).
    assert (Eq : containerWidth / containerHeight * containerHeight ==
                 containerWidth) by (field; lra).
    assert (Ed : containerWidth / (16 / 9) == containerWidth * (9 # 16))
      by field.
    assert (Er : containerHeight * (16 / 9) == containerHeight * (16 # 9))
      by field.
    destruct (Js.lt (16 / 9) (containerWidth / containerHeight)) eqn:E.
    + apply lt_spec in E.
      assert (Hlt : (16 / 9) * containerHeight <
                    containerWidth / containerHeight * containerHeight)
        by (apply Qmult_lt_compat_r; assumption).
      rewrite Eq in Hlt.
      assert (Er' : 16 / 9 * containerHeight == containerHeight * (16 # 9))
        by field.
      rewrite Er' in Hlt.
      cbn [Canvas.width Canvas.height Canvas.marginLeft Canvas.marginTop].
      rewrite Er.
      assert (M1 : (containerWidth - containerHeight * (16 # 9)) / 2 ==
                   (containerWidth - containerHeight * (16 # 9)) * (1 # 2))
        by field.
      assert (M2 : (containerHeight - containerHeight) / 2 == 0) by field.
      rewrite M1, M2. repeat split; lra.
    + apply lt_false in E.
      assert (Hle : containerWidth / containerHeight * containerHeight <=
                    (16 / 9) * containerHeight)
        by (apply Qmult_le_compat_r; [assumption | lra]).
      rewrite Eq in Hle.
      assert (Er' : 16 / 9 * containerHeight == containerHeight * (16 # 9))
        by field.
      rewrite Er' in Hle.
      cbn [Canvas.width Canvas.height Canvas.marginLeft Canvas.marginTop].
      rewrite Ed.
      assert (M1 : (containerWidth - containerWidth) / 2 == 0) by field.
      assert (M2 : (containerHeight - containerWidth * (9 # 16)) / 2 ==
                   (containerHeight - containerWidth * (9 # 16)) * (1 # 2))
        by field.
      rewrite M1, M2. repeat split; lra.
  - intros Hw Hh.
    assert (E0 : Qeq_bool containerHeight 0 = true)
      by (apply Qeq_bool_iff; exact Hh).
    rewrite E0.
    destruct (Js.lt 0 containerWidth) eqn:E;
      cbn [Canvas.width Canvas.height].
    + rewrite Hh. split; [field | reflexivity].
    + apply lt_false in E.
      assert (Ew : containerWidth == 0) by lra.
      rewrite Ew. split; [reflexivity | field].
Qed.

Lemma canvas_fits_container_witness :
  Canvas.width (Canvas.fit 1000 1000) <= 1000 /\
  Canvas.height (Canvas.fit 1000 1000) <= 1000.
Proof.
  destruct (canvas_fits_container 1000 1000) as [H _].
  destruct H as (Hw & Hh & _); [reflexivity | reflexivity |].
  split; assumption.
Defined.

(** * Child elements *)

Lemma hideChildElements_hidden (children : list Children.Child) :
  Forall (fun child => Children.display child = "none"%string)
    (Children.hideChildElements children).
Proof.
  unfold Children.hideChildElements. apply Forall_forall.
  intros child' Hin. apply list_elem_of_fmap in Hin.
  destruct Hin as (child & -> & _).
  destruct (String.eqb_spec (Children.display child) "none") as [E|E];
    [exact E | reflexivity].
Qed.

(** X27: hiding the children and regenerating the content shows every child
    as it was.  If no child that is already hidden carries a
    [data-child-hidden] attribute, the clones placed in the content have the
    displays the children had, in the same order, while the children
    themselves all end up with display [none] and without the attribute;
    and hiding twice is the same as hiding once. *)
Theorem hide_then_regenerate (children : list Children.Child) :
  Forall (fun child => Children.display child = "none"%string ->
                       Children.childHidden child = None) children ->
  let after :=
    Children.regenerateContent (Children.hideChildElements children) in
  map Children.display (snd after) = map Children.display children /\
  Forall (fun child => Children.display child = "none"%string /\
                       Children.childHidden child = None) (fst after) /\
  Children.hideChildElements (Children.hideChildElements children) =
  Children.hideChildElements children.
Proof.
  intros Hpre. cbv zeta.
  unfold Children.regenerateContent, Children.hideChildElements.
  cbn [fst snd]. rewrite !map_map. split; [|split].
  - induction Hpre as [|child rest Hchild _ IH]; [reflexivity|].
    cbn [map]. rewrite IH. f_equal.
    destruct (String.eqb_spec (Children.display child) "none") as [E|E].
    + unfold Children.regenerateChild. rewrite (Hchild E). reflexivity.
    + reflexivity.
  - apply Forall_forall. intros child' Hin.
    apply list_elem_of_fmap in Hin. destruct Hin as (child & -> & Hin).
    rewrite Forall_forall in Hpre. specialize (Hpre child Hin).
    destruct (String.eqb_spec (Children.display child) "none") as [E|E].
    + unfold Children.regenerateChild. rewrite (Hpre E). cbn. auto.
    + cbn. auto.
  - apply map_ext. intros child.
    destruct (String.eqb_spec (Children.display child) "none") as [E|E].
    + rewrite (proj2 (String.eqb_eq _ _) E). reflexivity.
    + reflexivity.
Qed.

Lemma hide_then_regenerate_witness :
  map Children.display
    (snd (Children.regenerateContent
            (Children.hideChildElements
               [ Children.mkChild "block" None
               ; Children.mkChild "none" None
               ; Children.mkChild "" None ]))) =
  ["block"; "none"; ""]%string.
Proof.
  apply (hide_then_regenerate
           [ Children.mkChild "block" None
           ; Children.mkChild "none" None
           ; Children.mkChild "" None ]).
  repeat constructor.
Defined.

Lemma regenerateChild_original (child : Children.Child) :
  Children.display (fst (Children.regenerateChild child)) =
    Children.display child /\
  Children.childHidden (fst (Children.regenerateChild child)) = None.
Proof.
  unfold Children.regenerateChild.
  destruct (Children.childHidden child) eqn:E; cbn; auto.
Qed.

(** X28: the remembered displays are used up by one regeneration.  When the
    children are hidden and the content regenerated a second time with no
    change to the children in between (what the [onchange] handler does),
    every clone in the new content has display [none]. *)
Theorem regenerate_twice_hides_content (children : list Children.Child) :
  let once :=
    Children.regenerateContent (Children.hideChildElements children) in
  let twice :=
    Children.regenerateContent (Children.hideChildElements (fst once)) in
  Forall (fun clone => Children.display clone = "none"%string) (snd twice).
Proof.
  cbv zeta.
  pose proof (hideChildElements_hidden children) as Hhidden.
  set (hidden := Children.hideChildElements children) in *.
  unfold Children.regenerateContent. cbn [fst snd].
  unfold Children.hideChildElements. rewrite !map_map.
  apply Forall_forall. intros clone Hin.
  apply list_elem_of_fmap in Hin. destruct Hin as (child & -> & Hin).
  rewrite Forall_forall in Hhidden. specialize (Hhidden child Hin).
  destruct (regenerateChild_original child) as [Hd Hh].
  set (c1 := fst (Children.regenerateChild child)) in *.
  rewrite Hhidden in Hd.
  rewrite (proj2 (String.eqb_eq _ _) Hd).
  unfold Children.regenerateChild. rewrite Hh. exact Hd.
Qed.

(** * The preload check *)

(** Safari on iOS 16.3 is turned away, on 16.4 it is not, and Chrome on an
    old iOS is left alone. *)
Example isUnsupported_ios_16_3 :
  Preload.isUnsupported
    "Mozilla/5.0 (iPhone; CPU iPhone OS 16_3 like Mac OS X) AppleWebKit/605.1.15 (KHTML, like Gecko) Version/16.3 Mobile/15E148 Safari/604.1"
  = true.
Proof. reflexivity. Qed.

Example isUnsupported_ios_16_4 :
  Preload.isUnsupported
    "Mozilla/5.0 (iPhone; CPU iPhone OS 16_4 like Mac OS X) AppleWebKit/605.1.15 (KHTML, like Gecko) Version/16.4 Mobile/15E148 Safari/604.1"
  = false.
Proof. reflexivity. Qed.

Example isUnsupported_chrome_on_ios :
  Preload.isUnsupported
    "Mozilla/5.0 (iPhone; CPU iPhone OS 15_7 like Mac OS X) AppleWebKit/605.1.15 (KHTML, like Gecko) CriOS/100.0 Mobile/15E148 Safari/604.1"
  = false.
Proof. reflexivity. Qed.

Example matchVersion_desktop_mac :
  Preload.matchVersion "Mozilla/5.0 (Macintosh; Intel Mac OS X 10_15_7)" = None.
Proof. reflexivity. Qed.

Lemma takeDigits_spec (s digits tail : string) :
  Preload.takeDigits s = (digits, tail) ->
  s = (digits ++ tail)%string /\
  Preload.allDigits digits = true /\ Preload.noDigitAhead tail = true.
Proof.
  revert digits tail. induction s as [|c rest IH]; intros digits tail H.
  - injection H as <- <-. auto.
  - cbn [Preload.takeDigits] in H. destruct (Preload.isDigit c) eqn:Ec.
    + destruct (Preload.takeDigits rest) as [d t] eqn:Er.
      injection H as <- <-.
      destruct (IH d t eq_refl) as (-> & Hd & Ht).
      cbn [Preload.allDigits append]. rewrite Ec, Hd. auto.
    + injection H as <- <-. cbn [Preload.noDigitAhead append]. rewrite Ec.
      auto.
Qed.

Lemma versionAt_sound (s major minor : string) :
  Preload.versionAt s = Some (major, minor) ->
  exists post : string,
    s = ("OS " ++ major ++ "_" ++ minor ++ post)%string /\
    major <> ""%string /\ minor <> ""%string /\
    Preload.allDigits major = true /\ Preload.allDigits minor = true /\
    Preload.noDigitAhead post = true.
Proof.
  unfold Preload.versionAt. intros H.
  destruct s as [|c1 [|c2 [|c3 rest]]]; try discriminate H.
  destruct (Ascii.eqb_spec c1 "O") as [->|]; [|discriminate H].
  destruct (Ascii.eqb_spec c2 "S") as [->|]; [|discriminate H].
  destruct (Ascii.eqb_spec c3 " ") as [->|]; [|discriminate H].
  cbn [andb] in H.
  destruct (Preload.takeDigits rest) as [ma afterMajor] eqn:E1.
  destruct ma as [|m0 ma]; [discriminate H|].
  destruct afterMajor as [|separator afterSeparator]; [discriminate H|].
  destruct (Ascii.eqb_spec separator "_") as [->|]; [|discriminate H].
  destruct (Preload.takeDigits afterSeparator) as [mi post] eqn:E2.
  destruct mi as [|i0 mi]; [discriminate H|].
  injection H as <- <-.
  destruct (takeDigits_spec _ _ _ E1) as (-> & Hd1 & _).
  destruct (takeDigits_spec _ _ _ E2) as (-> & Hd2 & Hpost).
  exists post. repeat split; try assumption; discriminate.
Qed.

(** X29: whatever the version pattern captures really is in the user agent:
    the string reads [... OS <major>_<minor> ...] where both captures are
    non-empty runs of digits and the minor run is complete (no digit
    follows it). *)
Theorem matchVersion_sound (userAgent major minor : string) :
  Preload.matchVersion userAgent = Some (major, minor) ->
  exists pre post : string,
    userAgent = (pre ++ "OS " ++ major ++ "_" ++ minor ++ post)%string /\
    major <> ""%string /\ minor <> ""%string /\
    Preload.allDigits major = true /\ Preload.allDigits minor = true /\
    Preload.noDigitAhead post = true.
Proof.
  induction userAgent as [|c rest IH]; intros H.
  - discriminate H.
  - cbn [Preload.matchVersion] in H.
    destruct (Preload.versionAt (String c rest)) as [[ma mi]|] eqn:E.
    + injection H as <- <-.
      destruct (versionAt_sound _ _ _ E) as (post & Hs & Hrest).
      exists ""%string, post. split; [exact Hs | exact Hrest].
    + destruct (IH H) as (pre & post & -> & Hrest).
      exists (String c pre), post. split; [reflexivity | exact Hrest].
Qed.

Lemma matchVersion_sound_witness :
  exists pre post : string,
    "(iPhone; CPU iPhone OS 16_3_1 like Mac OS X)"%string =
    (pre ++ "OS " ++ "16" ++ "_" ++ "3" ++ post)%string.
Proof.
  destruct (matchVersion_sound "(iPhone; CPU iPhone OS 16_3_1 like Mac OS X)"
              "16" "3" eq_refl) as (pre & post & Hs & _).
  exists pre, post. exact Hs.
Defined.

(** X30: a user agent is reported unsupported exactly when it names an iPad,
    iPhone or iPod, contains [Safari] but none of [Chrome], [CriOS] and
    [FxiOS], and carries a version [OS <major>_<minor>] with
    [10 * major + minor < 164]; so minor numbers of 10 and more carry into
    the major number (15_64 counts as 21.4). *)
Theorem isUnsupported_criterion (userAgent : string) :
  Preload.isUnsupported userAgent = true <->
  Preload.isIOS userAgent = true /\
  Js.includes "Safari" userAgent = true /\
  Js.includes "Chrome" userAgent = false /\
  Js.includes "CriOS" userAgent = false /\
  Js.includes "FxiOS" userAgent = false /\
  exists major minor : string,
    Preload.matchVersion userAgent = Some (major, minor) /\
    (10 * Preload.parseInt major + Preload.parseInt minor < 164)%Z.
Proof.
  unfold Preload.isUnsupported, Preload.isSafari.
  assert (Hver : forall a b : Z,
            Js.lt (inject_Z a + inject_Z b / 10) 16.4 = true <->
            (10 * a + b < 164)%Z).
  { intros a b. rewrite lt_spec, Zlt_Qlt, inject_Z_plus, inject_Z_mult.
    change (inject_Z 10) with 10. change (inject_Z 164) with 164.
    assert (E : inject_Z a + inject_Z b / 10 ==
                (10 * inject_Z a + inject_Z b) * (1 # 10)) by field.
    rewrite E. assert (E2 : 16.4 == 164 * (1 # 10)) by reflexivity.
    rewrite E2. split; intros H; lra. }
  destruct (Preload.isIOS userAgent); cbn [andb];
    [|split; [discriminate | intros [H _]; discriminate H]].
  destruct (Js.includes "Safari" userAgent); cbn [andb];
    [|split; [discriminate | intros (_ & H & _); discriminate H]].
  destruct (Js.includes "Chrome" userAgent); cbn [orb negb];
    [split; [discriminate | intros (_ & _ & H & _); discriminate H]|].
  destruct (Js.includes "CriOS" userAgent); cbn [orb negb];
    [split; [discriminate | intros (_ & _ & _ & H & _); discriminate H]|].
  destruct (Js.includes "FxiOS" userAgent); cbn [orb negb];
    [split; [discriminate | intros (_ & _ & _ & _ & H & _); discriminate H]|].
  destruct (Preload.matchVersion userAgent) as [[major minor]|].
  - rewrite Hver. split.
    + intros H. repeat split. exists major, minor. auto.
    + intros (_ & _ & _ & _ & _ & ma & mi & Hm & H).
      injection Hm as <- <-. exact H.
  - split; [discriminate|].
    intros (_ & _ & _ & _ & _ & ma & mi & Hm & _). discriminate Hm.
Qed.
